(** * Real-time aggregator: refresh pipeline and read side

    A shallow embedding of the aggregator and the properties of it that
    the specification states, followed by further properties read off
    the code.  Embedded are the refresh pipeline
    (app/services/fetcher.py, app/cache.py,
    app/repositories/records.py, app/repositories/audits.py,
    app/services/aggregator.py), the read side (the queries of the two
    repositories, the aggregate summary, the record routes of
    app/routers/data.py) and what guards the routes (app/auth.py, the
    rate limiter of app/middleware.py).

    Conventions.
    - Python exceptions are values of [exn]; a call that may raise returns
      a [result].  [try ... except RedisError] is [except_RedisError].
    - Clock readings ([time.monotonic()], Redis expiry, datetimes) are
      integers, in seconds.
    - Module-level mutable objects ([_circuit], [_pool], [_stats],
      [_buckets], the Redis keyspace, the database session) are passed
      in and returned.
    - The network, Redis and the database are given by what the code
      relies on: an answer per request, a keyspace of JSON texts with
      expiry, and tables with the unique index and the 32-bit
      [external_id] column of app/models.py and SQL's treatment of
      NULL; the texts stored are taken to fit their columns.  What SQL
      leaves to the database engine (the order of ties and of groups)
      is a parameter, [Engine]; so is what the Redis server decides
      (the keys a pattern matches, the expiries it accepts),
      [RedisServer].
    - Library calls whose results are not computed here are
      parameters: the digests ([Hashlib]), float rounding ([Floats]),
      the text of a datetime ([Datetimes]) and pydantic's validation
      ([Pydantic], [Models]), the last with the round trip the code
      relies on.
    - Strings are sequences of code points below 256.
    - [asyncio] tasks run one after the other; logging is left out. *)

From Stdlib Require Import ZArith String Ascii List Bool Lia Sorted DecimalString DecimalZ.
From stdpp Require Import base option list gmap strings pretty.

Set Warnings "-register-all".

Local Open Scope string_scope.
Local Open Scope list_scope.
Local Open Scope Z_scope.

(* ===================================================================== *)
(** * Part I: the program *)
(* ===================================================================== *)

(** ** Python values, exceptions and results *)

Module Py.

(** The exceptions the pipeline raises or handles.
    [CacheError] is app.exceptions.CacheError (an AppError),
    [RedisError] is redis.exceptions.RedisError and its subclasses,
    [IntegrityError] is the database driver's unique-index violation,
    [DBAPIError] its refusal of a value the column type cannot hold,
    [TypeError] and [ValueError] are the built-in exceptions,
    [OtherError] is any other [Exception]. *)
Inductive exn :=
| CacheError (detail : string)
| RedisError (detail : string)
| IntegrityError (detail : string)
| DBAPIError (detail : string)
| TypeError (detail : string)
| ValueError (detail : string)
| OtherError (detail : string).

Inductive result (A : Type) :=
| Returned (a : A)
| Raises (e : exn).
Arguments Returned {A} a.
Arguments Raises {A} e.

(** Sequencing: an exception raised by the first call skips the rest. *)
#[global] Instance result_bind : MBind result := fun A B k r =>
  match r with
  | Returned a => k a
  | Raises e => Raises e
  end.
#[global] Instance result_ret : MRet result := fun A a => Returned a.

Definition is_RedisError (e : exn) : bool :=
  match e with RedisError _ => true | _ => false end.

(** [try: body  except RedisError as e: handler] *)
Definition except_RedisError {A} (body : result A) (handler : A) : result A :=
  match body with
  | Returned a => Returned a
  | Raises e => if is_RedisError e then Returned handler else Raises e
  end.

(** [str.__bool__]: the empty string is falsy. *)
Definition str_truthy (s : string) : bool :=
  match s with EmptyString => false | String _ _ => true end.

(** Truthiness of an [Optional[str]]: [None] and [""] are falsy. *)
Definition opt_str_truthy (o : option string) : bool :=
  match o with None => false | Some s => str_truthy s end.

(** Truthiness of an [Optional[int]]: [None] and [0] are falsy. *)
Definition opt_int_truthy (o : option Z) : bool :=
  match o with None => false | Some z => negb (z =? 0) end.

End Py.

(** ** Circuit breaker (app/services/fetcher.py, lines 17-61) *)

Module Breaker.

(** One entry of [_circuit]: [{"failures": n, "opened_at": t}]. *)
Record circuit_state := { failures : Z; opened_at : Z }.

Definition FAILURE_THRESHOLD : Z := 3.
Definition RECOVERY_SECONDS : Z := 60.

(** [_is_open(url)], reading the clock at [now]; returns the answer and
    [_circuit] as the call leaves it. *)
Definition _is_open (now : Z) (url : string) (_circuit : gmap string circuit_state)
  : bool * gmap string circuit_state :=
  match _circuit !! url with
  | None => (false, _circuit)
  | Some state =>
      if FAILURE_THRESHOLD <=? failures state then
        if now - opened_at state <? RECOVERY_SECONDS then (true, _circuit)
        else
          (* Half-open: allow one probe *)
          (false,
           <[url := {| failures := FAILURE_THRESHOLD - 1;
                       opened_at := opened_at state |}]> _circuit)
      else (false, _circuit)
  end.

(** [_record_failure(url)], reading the clock at [now]. *)
Definition _record_failure (now : Z) (url : string) (_circuit : gmap string circuit_state)
  : gmap string circuit_state :=
  let state := default {| failures := 0; opened_at := 0 |} (_circuit !! url) in
  let n := failures state + 1 in
  <[url := {| failures := n;
              opened_at := if FAILURE_THRESHOLD <=? n then now else opened_at state |}]>
    _circuit.

(** [_record_success(url)]: [_circuit.pop(url, None)]. *)
Definition _record_success (url : string) (_circuit : gmap string circuit_state)
  : gmap string circuit_state :=
  delete url _circuit.

(** [circuit_status()]: failure count and open flag per source. *)
Definition circuit_status (_circuit : gmap string circuit_state) : gmap string (Z * bool) :=
  (fun s => (failures s, FAILURE_THRESHOLD <=? failures s)) <$> _circuit.

End Breaker.

(** ** Upstream records *)

Module Upstream.

(** One element of an upstream response, as the pipeline looks at it:
    [isinstance(r, dict)] tells objects from other JSON values, and
    [r.get("id")] is the external id of an object ([None] when the key
    is missing or null).  The other members of an object are kept as
    (key, JSON text) pairs.  External ids are integers, as the
    [external_id] column is. *)
Record json_object := { obj_id : option Z; obj_fields : list (string * string) }.

Inductive record :=
| RObject (o : json_object)
| RValue (text : string).

(** [isinstance(r, dict)] *)
Definition is_dict (r : record) : bool :=
  match r with RObject _ => true | RValue _ => false end.

(** [r.get("id") if isinstance(r, dict) else None] *)
Definition get_id (r : record) : option Z :=
  match r with RObject o => obj_id o | RValue _ => None end.

(** [resp.json()]: a list of records, or a single JSON value. *)
Inductive body :=
| BodyList (items : list record)
| BodyOne (item : record).

(** [data if isinstance(data, list) else [data]] *)
Definition as_records (data : body) : list record :=
  match data with BodyList items => items | BodyOne item => [item] end.

End Upstream.

(** ** Fetch executor (app/services/fetcher.py, lines 64-113) *)

Module Fetcher.
Import Py Breaker Upstream.

Definition MAX_RETRIES : nat := 3.

(** What one [client.get(url)] followed by [raise_for_status()] and
    [resp.json()] does: it returns the decoded body with the elapsed
    milliseconds, or raises.  The strings are [str(exc)]. *)
Inductive attempt :=
| Response2xx (data : body) (ms : Z)
| TimeoutException (msg : string)
| ConnectError (msg : string)
| HTTPStatusError (msg : string)
| OtherException (msg : string).

(** The world outside the process: what the [n]-th request to a URL
    answers, and what the monotonic clock reads when a source's
    breaker is consulted and when its outcome is recorded. *)
Record environment := {
  respond : string -> nat -> attempt;
  checked_at : string -> Z;
  recorded_at : string -> Z
}.

(** [_fetch_one] under its [@retry] decorator: only timeouts and
    connection errors are retried, [stop_after_attempt(MAX_RETRIES)],
    [reraise=True].  Returns the result and the requests issued. *)
Fixpoint attempts (env : environment) (url : string) (retries_left n : nat)
  : (list record * Z + string) * list string :=
  match respond env url n with
  | Response2xx data ms => (inl (as_records data, ms), [url])
  | TimeoutException msg | ConnectError msg =>
      match retries_left with
      | O => (inr msg, [url])
      | S r => let '(res, log) := attempts env url r (S n) in (res, url :: log)
      end
  | HTTPStatusError msg | OtherException msg => (inr msg, [url])
  end.

Definition _fetch_one (env : environment) (url : string)
  : (list record * Z + string) * list string :=
  attempts env url (Nat.pred MAX_RETRIES) 0%nat.

(** One entry of the list [fetch_sources] returns. *)
Record outcome := {
  url : string;
  source_key : string;
  records : list record;
  duration_ms : Z;
  error : option string
}.

Definition slash : ascii := "/"%char.

Fixpoint lstrip_slash (cs : list ascii) : list ascii :=
  match cs with
  | c :: cs' => if Ascii.eqb c slash then lstrip_slash cs' else cs
  | [] => []
  end.

Fixpoint upto_slash (cs : list ascii) : list ascii :=
  match cs with
  | c :: cs' => if Ascii.eqb c slash then [] else c :: upto_slash cs'
  | [] => []
  end.

(** [url.rstrip("/").rsplit("/", 1)[-1]], computed on the reversed
    string: drop the leading slashes, keep what precedes the next. *)
Definition source_key_of (u : string) : string :=
  string_of_list_ascii
    (rev (upto_slash (lstrip_slash (rev (list_ascii_of_string u))))).

Definition CIRCUIT_OPEN : string := "Circuit open — upstream unavailable".

(** [_guarded(client, url)]: the outcome, [_circuit] afterwards and the
    requests issued.  [except Exception] catches whatever [_fetch_one]
    raises. *)
Definition _guarded (env : environment) (u : string) (_circuit : gmap string circuit_state)
  : outcome * gmap string circuit_state * list string :=
  let key := source_key_of u in
  let '(is_open, c1) := _is_open (checked_at env u) u _circuit in
  if is_open then
    ({| url := u; source_key := key; records := []; duration_ms := 0;
        error := Some CIRCUIT_OPEN |}, c1, [])
  else
    match _fetch_one env u with
    | (inl (recs, ms), log) =>
        ({| url := u; source_key := key; records := recs; duration_ms := ms;
            error := None |}, _record_success u c1, log)
    | (inr msg, log) =>
        ({| url := u; source_key := key; records := []; duration_ms := 0;
            error := Some msg |}, _record_failure (recorded_at env u) u c1, log)
    end.

(** [fetch_sources(urls)].  [asyncio.gather] returns the results in the
    order of [urls]; the tasks are run here one after the other in that
    order. *)
Fixpoint fetch_sources (env : environment) (urls : list string)
    (_circuit : gmap string circuit_state)
  : list outcome * gmap string circuit_state * list string :=
  match urls with
  | [] => ([], _circuit, [])
  | u :: rest =>
      let '(o, c1, log1) := _guarded env u _circuit in
      let '(os, c2, log2) := fetch_sources env rest c1 in
      (o :: os, c2, log1 ++ log2)
  end.

End Fetcher.

(** ** Stale-while-revalidate cache (app/cache.py) *)

Module Cache.
Import Py.

(** A key of a Python dict handed to [cache_set].  A float is given by
    its [repr()]; [KOther] stands for a key of any other type (a tuple,
    a datetime, ...), given by the name of its type. *)
Inductive pykey :=
| KStr (s : string)
| KInt (n : Z)
| KFloat (repr : string)
| KBool (b : bool)
| KNone
| KOther (type_name : string).

(** A Python value handed to [cache_set] ([value: Any]).  A float is
    given by its [repr()].  The members of a dict are listed in the
    order of the dict.  [PObject] stands for any object the JSON encoder
    does not know (a datetime of a [model_dump()], a Decimal, ...),
    given by its [str()].  [PCircular] stands for a list or dict that
    contains itself, which no finite term spells out.  An int is taken
    to have no more digits than Python converts to text (4300, unless
    configured otherwise). *)
Inductive pyval :=
| PNone
| PBool (b : bool)
| PInt (n : Z)
| PFloat (repr : string)
| PStr (s : string)
| PList (items : list pyval)
| PTuple (items : list pyval)
| PDict (members : list (pykey * pyval))
| PObject (str : string)
| PCircular.

(** A JSON document: what a Redis string written by this module holds.
    The text of a document and the document are identified; the
    sentinel's value, the text [1], is the document [JNumber 1].  A
    number with a fraction or an exponent, and [NaN] and [Infinity],
    which Python writes and reads, are given by the [repr()] of the
    float they are read as.  The members of an object are listed as the
    text has them, repeated names included. *)
Inductive json :=
| JNull
| JBool (b : bool)
| JNumber (n : Z)
| JFloat (repr : string)
| JString (s : string)
| JArray (items : list json)
| JObject (members : list (string * json)).

(** The text the encoder writes for a float used as a key. *)
Definition floatstr (repr : string) : string :=
  if String.eqb repr "nan" then "NaN"
  else if String.eqb repr "inf" then "Infinity"
  else if String.eqb repr "-inf" then "-Infinity"
  else repr.

(** The member name [json.dumps] writes for a dict key: a [str] as it
    is, an [int] in decimal, a [float] as the encoder writes floats,
    [True], [False] and [None] as [true], [false] and [null].  A key of
    another type is a [TypeError]: [default] is not asked about keys. *)
Definition key_name (k : pykey) : result string :=
  match k with
  | KStr s => Returned s
  | KInt n => Returned (pretty n)
  | KFloat repr => Returned (floatstr repr)
  | KBool true => Returned "true"
  | KBool false => Returned "false"
  | KNone => Returned "null"
  | KOther type_name =>
      Raises (TypeError ("keys must be str, int, float, bool or None, not " +:+ type_name))
  end.

(** [json.dumps(value, default=str)].  A tuple is written as a list; an
    object the encoder does not know is replaced by [str(obj)]; the
    members of a dict are written in order, the key before the value.
    A key that is none of str, int, float, bool and None, and a
    container that contains itself, make it raise. *)
Fixpoint json_dumps (v : pyval) : result json :=
  match v with
  | PNone => Returned JNull
  | PBool b => Returned (JBool b)
  | PInt n => Returned (JNumber n)
  | PFloat repr => Returned (JFloat repr)
  | PStr s => Returned (JString s)
  | PList items | PTuple items =>
      items' ← mapM json_dumps items;
      Returned (JArray items')
  | PDict members =>
      members' ← mapM (fun '(k, x) => name ← key_name k; x' ← json_dumps x;
                                      Returned (name, x'))
                      members;
      Returned (JObject members')
  | PObject str => Returned (JString str)
  | PCircular => Raises (ValueError "Circular reference detected")
  end.

(** [d[key] = x] on the members of a dict, for a [str] key: the value of
    an existing key is replaced in place, a new key is added at the
    end.  A key that is not a [str] is not equal to one that is. *)
Fixpoint assign (key : string) (x : pyval) (members : list (pykey * pyval))
  : list (pykey * pyval) :=
  match members with
  | [] => [(KStr key, x)]
  | (k, v) :: rest =>
      if match k with KStr s => String.eqb s key | _ => false end
      then (k, x) :: rest
      else (k, v) :: assign key x rest
  end.

(** The dict with the given members: of a repeated name the first
    occurrence gives the position, the last the value. *)
Definition dict_of (pairs : list (string * pyval)) : list (pykey * pyval) :=
  fold_left (fun members '(name, x) => assign name x members) pairs [].

(** [json.loads(text)] *)
Fixpoint json_loads (j : json) : pyval :=
  match j with
  | JNull => PNone
  | JBool b => PBool b
  | JNumber n => PInt n
  | JFloat repr => PFloat repr
  | JString s => PStr s
  | JArray items => PList (map json_loads items)
  | JObject members => PDict (dict_of (map (fun '(k, x) => (k, json_loads x)) members))
  end.

(** [k] is a [str] that is none of [names]. *)
Definition new_name (names : list string) (k : pykey) : bool :=
  match k with
  | KStr s => negb (existsb (String.eqb s) names)
  | _ => false
  end.

(** The keys are [str], pairwise distinct as the keys of a dict are. *)
Fixpoint str_keys (names : list string) (keys : list pykey) : bool :=
  match keys with
  | [] => true
  | k :: rest =>
      new_name names k
      && str_keys (match k with KStr s => s :: names | _ => names end) rest
  end.

(** Values built from what JSON has (None, booleans, integers, floats,
    strings, lists, and dicts whose keys are [str]): they survive
    encoding and decoding. *)
Fixpoint json_native (v : pyval) : bool :=
  match v with
  | PNone | PBool _ | PInt _ | PFloat _ | PStr _ => true
  | PList items => forallb json_native items
  | PDict members =>
      str_keys [] (map fst members) && forallb (fun '(_, x) => json_native x) members
  | PTuple _ | PObject _ | PCircular => false
  end.

Definition CACHE_TTL_HOT : Z := 30.
Definition CACHE_TTL_WARM : Z := 300.
Definition CACHE_TTL_COLD : Z := 3600.
Definition CACHE_STALE_GRACE : Z := 60.

(** A Redis key with its string value and the clock reading at which it
    expires ([SETEX]). *)
Record entry := { value : json; expires_at : Z }.

(** The backing store: failing (every command raises a [RedisError],
    whose [str()] is [detail]: connection refused, timeout, ...) or
    serving a keyspace. *)
Inductive server :=
| Unreachable (detail : string)
| Serving (keys : gmap string entry).

(** [_pool] and the store behind it. *)
Record redis := { pool_initialized : bool; backend : server }.

(** [get_redis()] *)
Definition get_redis (r : redis) : result server :=
  if pool_initialized r then Returned (backend r)
  else Raises (CacheError "Redis pool not initialized").

(** Sending commands: they run on the keyspace of a serving store. *)
Definition execute {A} (s : server) (commands : gmap string entry -> A) : result A :=
  match s with
  | Unreachable detail => Raises (RedisError detail)
  | Serving keys => Returned (commands keys)
  end.

(** [GET key] at clock reading [now]: an expired key is gone. *)
Definition GET (now : Z) (key : string) (keys : gmap string entry) : option json :=
  match keys !! key with
  | Some e => if now <? expires_at e then Some (value e) else None
  | None => None
  end.

(** [EXISTS key] *)
Definition EXISTS (now : Z) (key : string) (keys : gmap string entry) : bool :=
  match GET now key keys with Some _ => true | None => false end.

(** [DEL key] *)
Definition DEL (key : string) (keys : gmap string entry) : gmap string entry :=
  delete key keys.

(** [f"{key}:fresh"] *)
Definition fresh_key (key : string) : string := key +:+ ":fresh".

Definition with_keys (r : redis) (keys : gmap string entry) : redis :=
  {| pool_initialized := pool_initialized r; backend := Serving keys |}.

(** The characters a MATCH pattern does not take for themselves. *)
Definition special (c : ascii) : bool :=
  Ascii.eqb c "*" || Ascii.eqb c "?" || Ascii.eqb c "[" || Ascii.eqb c "\".

Definition literal (s : string) : bool :=
  forallb (fun c => negb (special c)) (list_ascii_of_string s).

(** An expiry of up to this many seconds (some thirty years) is
    accepted by every server. *)
Definition EXPIRE_SURE : Z := 1000000000.

(** What the Redis server decides and is not computed here: whether a
    key matches a MATCH pattern (a glob with [*], [?], [[...]] classes
    and backslash escapes, whose corner cases differ between servers),
    and whether it accepts an expiry for [SETEX] at a clock reading.
    Relied on are that a pattern of literal characters followed by [*]
    selects the keys that start with these characters, that an expiry
    which is not positive is refused, and that a positive one of up to
    [EXPIRE_SURE] seconds is accepted. *)
Class RedisServer := {
  matches : string -> string -> bool;
  accepts_expiry : Z -> Z -> bool;
  matches_literal_prefix :
    forall prefix key : string,
      literal prefix = true -> matches (prefix +:+ "*") key = String.prefix prefix key;
  refuses_nonpositive :
    forall now ttl : Z, ttl <= 0 -> accepts_expiry now ttl = false;
  accepts_seconds :
    forall now ttl : Z, 0 < ttl <= EXPIRE_SURE -> accepts_expiry now ttl = true
}.

Section Commands.
Context `{RedisServer}.

(** [SETEX key ttl value] at clock reading [now]: refused, with a
    [ResponseError] (a [RedisError]), for an expiry the server does not
    accept. *)
Definition SETEX (now : Z) (key : string) (ttl : Z) (v : json) (keys : gmap string entry)
  : result (gmap string entry) :=
  if accepts_expiry now ttl
  then Returned (<[key := {| value := v; expires_at := now + ttl |}]> keys)
  else Raises (RedisError "ERR invalid expire time in 'setex' command").

(** The commands queued on a pipeline, as [pipe.execute()] runs them in
    one MULTI/EXEC: in order; a command the server refuses changes
    nothing and does not keep the others from running. *)
Definition transaction
    (commands : list (gmap string entry -> result (gmap string entry)))
    (keys : gmap string entry) : gmap string entry :=
  fold_left (fun keys command =>
               match command keys with
               | Returned keys' => keys'
               | Raises _ => keys
               end)
            commands keys.

(** [cache_get(key)] at clock reading [now].  [PNone] is Python's
    [None]: "value=None means total cache miss". *)
Definition cache_get (now : Z) (key : string) (r : redis) : result (pyval * bool) :=
  except_RedisError
    (s ← get_redis r;
     '(value_raw, is_fresh) ← execute s (fun keys =>
         (GET now key keys, EXISTS now (fresh_key key) keys));
     match value_raw with
     | None => Returned (PNone, false)
     | Some raw => Returned (json_loads raw, negb is_fresh)
     end)
    (PNone, false).

(** [cache_set(key, value, ttl)] at clock reading [now]; returns the
    store as the call leaves it.  What [get_redis] and [json.dumps]
    raise is raised before anything is sent.  [pipe.execute()] raises
    the first refusal of the server once the commands have run; the
    handler catches it like any other [RedisError], so that the call
    returns, with the store as the commands that were accepted left
    it. *)
Definition cache_set (now : Z) (key : string) (v : pyval) (ttl : Z) (r : redis)
  : result redis :=
  except_RedisError
    (s ← get_redis r;
     let stale_ttl := ttl + CACHE_STALE_GRACE in
     serialized ← json_dumps v;
     keys' ← execute s (transaction
                          [ SETEX now key stale_ttl serialized;
                            SETEX now (fresh_key key) ttl (JNumber 1) ]);
     Returned (with_keys r keys'))
    r.

(** [cache_delete(key)] *)
Definition cache_delete (key : string) (r : redis) : result redis :=
  except_RedisError
    (s ← get_redis r;
     keys' ← execute s (fun keys => DEL (fresh_key key) (DEL key keys));
     Returned (with_keys r keys'))
    r.

(** The keys [scan_iter(match=pattern)] yields at clock reading [now]. *)
Definition scanned (now : Z) (pattern : string) (keys : gmap string entry)
  : gmap string entry :=
  filter (fun kv => matches pattern kv.1 = true /\ now < expires_at kv.2) keys.

(** [invalidate_pattern(pattern)]: the number of keys deleted and the
    store afterwards. *)
Definition invalidate_pattern (now : Z) (pattern : string) (r : redis)
  : result (Z * redis) :=
  except_RedisError
    (s ← get_redis r;
     execute s (fun keys =>
       let hit := scanned now pattern keys in
       (Z.of_nat (size hit), with_keys r (keys ∖ hit))))
    (0, r).

End Commands.

End Cache.

(** ** Stored records and reconciliation (app/models.py,
       app/repositories/records.py) *)

Module Records.
Import Py Upstream.

(** The two library calls [_checksum] is made of. *)
Class Hashlib := {
  json_dumps_sort_keys : record -> string;
  sha256_hexdigest : string -> string
}.

(** A row of [data_records].  The primary key and [fetched_at] are left
    out: a row is identified by its position in the table.  [checksum]
    is a nullable column. *)
Record DataRecord := {
  source_key : string;
  source_url : string;
  external_id : option Z;
  payload : record;
  checksum : option string
}.

Section Repository.
Context `{Hashlib}.

(** [_checksum(payload)] *)
Definition _checksum (payload : record) : string :=
  sha256_hexdigest (json_dumps_sort_keys payload).

(** [DataRecord.source_key == source_key] *)
Definition of_source (key : string) (row : DataRecord) : bool :=
  String.eqb (source_key row) key.

(** Equality of two external ids ([None == None], [1 == 1]). *)
Definition same_id (a b : option Z) : bool :=
  match a, b with
  | Some x, Some y => x =? y
  | None, None => true
  | _, _ => false
  end.

(** [eid in ids] *)
Definition member (eid : option Z) (ids : list (option Z)) : bool :=
  existsb (same_id eid) ids.

(** [row.checksum != checksum] is false: the stored checksum is the
    computed one. *)
Definition same_sum (stored : option string) (sum : string) : bool :=
  match stored with
  | Some s => String.eqb s sum
  | None => false
  end.

(** The row is selected for [key] and is the value of [existing] at
    [eid]. *)
Definition keyed (key : string) (eid : option Z) (row : DataRecord) : bool :=
  of_source key row && same_id (external_id row) eid.

(** [existing.get(eid)], where
    [existing = {row.external_id: row for row in SELECT ... WHERE source_key = key}]:
    of several rows with one external id the last one selected stays. *)
Fixpoint existing_get (key : string) (eid : option Z) (rows : list DataRecord)
  : option DataRecord :=
  match rows with
  | [] => None
  | row :: rest =>
      match existing_get key eid rest with
      | Some found => Some found
      | None => if keyed key eid row then Some row else None
      end
  end.

(** Assigning to the attributes of [existing[eid]]: the row object is
    the one in the session, so the table the session holds changes. *)
Fixpoint existing_set (key : string) (eid : option Z)
    (f : DataRecord -> DataRecord) (rows : list DataRecord) : list DataRecord :=
  match rows with
  | [] => []
  | row :: rest =>
      match existing_get key eid rest with
      | Some _ => row :: existing_set key eid f rest
      | None => if keyed key eid row then f row :: rest else row :: rest
      end
  end.

(** The state of the loop over [records]. *)
Record loop_state := {
  session : list DataRecord;
  to_insert : list DataRecord;
  changed : Z
}.

(** The body of [for r in records]. *)
Definition visit (key url : string) (st : loop_state) (r : record) : loop_state :=
  let ext_id := get_id r in
  let sum := if is_dict r then _checksum r else "" in
  match (if opt_int_truthy ext_id then existing_get key ext_id (session st) else None) with
  | Some row =>
      if same_sum (checksum row) sum then st
      else
        {| session :=
             existing_set key ext_id
               (fun row => {| source_key := source_key row; source_url := source_url row;
                              external_id := external_id row;
                              payload := r; checksum := Some sum |})
               (session st);
           to_insert := to_insert st;
           changed := changed st + 1 |}
  | None =>
      {| session := session st;
         to_insert := to_insert st ++
           [{| source_key := key; source_url := url; external_id := ext_id;
               payload := r; checksum := Some sum |}];
         changed := changed st + 1 |}
  end.

(** The unique index [ix_source_ext] on (source_key, external_id): a
    row with a non-NULL external id may not repeat a stored pair.  NULLs
    are distinct from each other in a unique index, so rows without
    external id never conflict. *)
Definition violates_ix_source_ext (row : DataRecord) (table : list DataRecord) : bool :=
  match external_id row with
  | None => false
  | Some _ => existsb (keyed (source_key row) (external_id row)) table
  end.

(** The INSERTs of the pending rows, in order. *)
Fixpoint insert_all (pending table : list DataRecord) : result (list DataRecord) :=
  match pending with
  | [] => Returned table
  | row :: rest =>
      if violates_ix_source_ext row table
      then Raises (IntegrityError "duplicate key value violates unique constraint ix_source_ext")
      else insert_all rest (table ++ [row])
  end.

(** The [external_id] column is an INTEGER: 32 bits, signed. *)
Definition INTEGER_MIN : Z := - 2 ^ 31.
Definition INTEGER_MAX : Z := 2 ^ 31 - 1.

(** The value fits the column; NULL does. *)
Definition fits_integer (eid : option Z) : bool :=
  match eid with
  | Some z => (INTEGER_MIN <=? z) && (z <=? INTEGER_MAX)
  | None => true
  end.

(** Flushing the pending rows, which go in one INSERT statement.  The
    driver encodes the parameters of the statement before it sends
    anything: an external id that the column cannot hold raises there,
    whatever the rows would do to the index. *)
Definition flush (pending table : list DataRecord) : result (list DataRecord) :=
  if forallb (fun row => fits_integer (external_id row)) pending
  then insert_all pending table
  else Raises (DBAPIError "invalid input for query argument: value out of int32 range").

(** [{r.get("id") for r in records if isinstance(r, dict) and r.get("id")}] *)
Definition incoming_ids (recs : list record) : list (option Z) :=
  map get_id (List.filter (fun r => is_dict r && opt_int_truthy (get_id r)) recs).

(** [external_id IN (stale)] in SQL.  A comparison with NULL is never
    true: a row whose [external_id] is NULL satisfies no IN predicate,
    and a NULL among the listed values matches no row. *)
Definition sql_in (eid : option Z) (stale : list (option Z)) : bool :=
  match eid with
  | None => false
  | Some _ => member eid stale
  end.

(** [DELETE FROM data_records WHERE source_key = key AND external_id IN (stale)] *)
Definition delete_stale (key : string) (stale : list (option Z)) (table : list DataRecord)
  : list DataRecord :=
  List.filter (fun row => negb (of_source key row && sql_in (external_id row) stale))
              table.

(** [upsert_source(source_key, source_url, records)] on the table the
    session sees; returns [(len(records), changed)] and the table
    afterwards.  The rows of [add_all(to_insert)] are pending until the
    next flush: the session flushes them before it executes the DELETE
    (autoflush), and at [flush()] otherwise, so the INSERTs come first
    in both cases.  [stale] lists the keys of [existing], one per row
    selected here (a repeated key changes nothing in an IN list). *)
Definition upsert_source (key url : string) (recs : list record)
    (table : list DataRecord) : result (Z * Z * list DataRecord) :=
  let existing := List.filter (of_source key) table in
  let st := fold_left (visit key url) recs
              {| session := table; to_insert := []; changed := 0 |} in
  flushed ← flush (to_insert st) (session st);
  let table' :=
    match existing with
    | [] => flushed
    | _ :: _ =>
        let incoming := incoming_ids recs in
        let stale :=
          List.filter (fun eid => negb (member eid incoming)) (map external_id existing) in
        match stale with
        | [] => flushed
        | _ :: _ => delete_stale key stale flushed
        end
    end in
  Returned (Z.of_nat (length recs), changed st, table').

End Repository.

End Records.

(** ** Audit log (app/repositories/audits.py) *)

Module Audits.

(** A row of [fetch_audits] (without primary key and [created_at]). *)
Record FetchAudit := {
  source_url : string;
  source_key : string;
  status : string;
  records_fetched : Z;
  records_changed : Z;
  duration_ms : Z;
  error_detail : option string;
  triggered_by : string
}.

(** [AuditRepository.log(...)]: [self.db.add(FetchAudit(...))]. *)
Definition log (entry : FetchAudit) (audits : list FetchAudit) : list FetchAudit :=
  audits ++ [entry].

End Audits.

(** ** Refresh orchestrator (app/services/aggregator.py, lines 21-66) *)

Module Aggregator.
Import Py Breaker Upstream Fetcher Cache Records Audits.

(** [settings.DATA_SOURCES], as configured by default. *)
Definition DATA_SOURCES : list string :=
  [ "https://jsonplaceholder.typicode.com/posts";
    "https://jsonplaceholder.typicode.com/users";
    "https://jsonplaceholder.typicode.com/todos";
    "https://jsonplaceholder.typicode.com/comments" ].

Record RefreshResponse := {
  message : string;
  sources_refreshed : Z;
  records_upserted : Z;
  records_changed : Z;
  errors : list string
}.

(** What the session holds: both tables. *)
Record database := {
  data_records : list DataRecord;
  fetch_audits : list FetchAudit
}.

(** The state of the loop over [raw_results]. *)
Record tally := {
  session : database;
  total_upserted : Z;
  total_changed : Z;
  errs : list string
}.

Section Orchestrator.
Context `{Hashlib} `{RedisServer}.

(** The body of [for result in raw_results]. *)
Definition handle (by_ : string) (st : tally) (o : outcome) : result tally :=
  if opt_str_truthy (error o) then
    let detail := default "" (error o) in
    Returned
      {| session :=
           {| data_records := data_records (session st);
              fetch_audits :=
                log {| Audits.source_url := url o;
                       Audits.source_key := Fetcher.source_key o;
                       status := "error";
                       Audits.records_fetched := 0;
                       Audits.records_changed := 0;
                       Audits.duration_ms := 0;
                       error_detail := error o;
                       triggered_by := by_ |}
                    (fetch_audits (session st)) |};
         total_upserted := total_upserted st;
         total_changed := total_changed st;
         errs := errs st ++ [Fetcher.source_key o +:+ ": " +:+ detail] |}
  else
    '(fetched, changed, table) ←
      upsert_source (Fetcher.source_key o) (url o) (records o)
                    (data_records (session st));
    Returned
      {| session :=
           {| data_records := table;
              fetch_audits :=
                log {| Audits.source_url := url o;
                       Audits.source_key := Fetcher.source_key o;
                       status := "ok";
                       Audits.records_fetched := fetched;
                       Audits.records_changed := changed;
                       Audits.duration_ms := Fetcher.duration_ms o;
                       error_detail := None;
                       triggered_by := by_ |}
                    (fetch_audits (session st)) |};
         total_upserted := total_upserted st + fetched;
         total_changed := total_changed st + changed;
         errs := errs st |}.

(** [for result in raw_results: ...]; an exception ends the loop. *)
Fixpoint handle_all (by_ : string) (raw_results : list outcome) (st : tally)
  : result tally :=
  match raw_results with
  | [] => Returned st
  | o :: rest => st' ← handle by_ st o; handle_all by_ rest st'
  end.

(** [refresh_data] from line 27 on, given [raw_results]: the loop,
    [db.commit()], [invalidate_pattern("agg:v2:*")] at Redis clock
    reading [now], and the summary.  Returns what the caller gets,
    the committed database and the store.  An exception raised in the
    loop leaves the database as it was; one raised by the
    invalidation comes after the commit. *)
Definition refresh_results (now : Z) (by_ : string) (raw_results : list outcome)
    (db : database) (cache : redis) : result RefreshResponse * database * redis :=
  match handle_all by_ raw_results
          {| session := db; total_upserted := 0; total_changed := 0; errs := [] |} with
  | Raises e => (Raises e, db, cache)
  | Returned st =>
      match invalidate_pattern now "agg:v2:*" cache with
      | Raises e => (Raises e, session st, cache)
      | Returned (_, cache') =>
          (Returned
             {| message := "Refresh complete";
                sources_refreshed :=
                  Z.of_nat (length (List.filter (fun o => negb (opt_str_truthy (error o)))
                                                raw_results));
                records_upserted := total_upserted st;
                records_changed := total_changed st;
                errors := errs st |},
           session st, cache')
      end
  end.

(** The process state [refresh_data] works on. *)
Record world := {
  circuit : gmap string circuit_state;
  db : database;
  cache : redis
}.

(** [refresh_data(db, triggered_by)] over [sources]
    ([settings.DATA_SOURCES]). *)
Definition refresh_data (env : environment) (now : Z) (sources : list string)
    (by_ : string) (w : world) : result RefreshResponse * world :=
  let '(raw_results, circuit', _) := fetch_sources env sources (circuit w) in
  let '(response, db', cache') := refresh_results now by_ raw_results (db w) (cache w) in
  (response, {| circuit := circuit'; db := db'; cache := cache' |}).

End Orchestrator.

End Aggregator.

(** ** Pool lifecycle, cache keys and hit statistics (app/cache.py,
       lines 26-68 and 143-166) *)

Module CacheAdmin.
Import Py Cache Records.

(** [init_redis_pool()]: [_pool] is set; no connection is made yet. *)
Definition init_redis_pool (r : redis) : redis :=
  {| pool_initialized := true; backend := backend r |}.

(** [close_redis_pool()]: [if _pool: ...; _pool = None]. *)
Definition close_redis_pool (r : redis) : redis :=
  if pool_initialized r then {| pool_initialized := false; backend := backend r |}
  else r.

(** [ping_redis()]: [PING] answers [True]; [except Exception] turns
    whatever is raised into [False]. *)
Definition ping_redis (r : redis) : bool :=
  match (s ← get_redis r; execute s (fun _ => true)) with
  | Returned pong => pong
  | Raises _ => false
  end.

(** An argument of [build_key], as the callers pass them: a string, an
    integer or [None]. *)
Inductive part :=
| Text (s : string)
| Number (n : Z)
| Missing.

(** [str(p)] *)
Definition str (p : part) : string :=
  match p with
  | Text s => s
  | Number n => pretty n
  | Missing => "None"
  end.

(** [sep.join(items)] *)
Fixpoint join (sep : string) (items : list string) : string :=
  match items with
  | [] => ""
  | [x] => x
  | x :: rest => x +:+ sep +:+ join sep rest
  end.

(** [s.replace(old, new)] for single characters. *)
Fixpoint replace (old new : ascii) (s : string) : string :=
  match s with
  | EmptyString => EmptyString
  | String c s' => String (if Ascii.eqb c old then new else c) (replace old new s')
  end.

Section Keys.
Context `{Hashlib}.

(** [build_key], called with [parts].  [sha256_hexdigest raw] is
    [hashlib.sha256(raw.encode()).hexdigest()]; [raw[:n]] is
    [substring 0 n raw]. *)
Definition build_key (parts : list part) : string :=
  let raw := join ":" (map str parts) in
  let digest := substring 0 12 (sha256_hexdigest raw) in
  let slug := replace " " "_" (substring 0 60 raw) in
  "agg:v2:" +:+ digest +:+ ":" +:+ slug.

End Keys.

(** [_stats] *)
Record stats := { hits : Z; misses : Z; stale_hits : Z }.

(** [_stats] when the module is loaded. *)
Definition no_stats : stats := {| hits := 0; misses := 0; stale_hits := 0 |}.

(** [record_hit(stale)] *)
Definition record_hit (stale : bool) (s : stats) : stats :=
  if stale
  then {| hits := hits s; misses := misses s; stale_hits := stale_hits s + 1 |}
  else {| hits := hits s + 1; misses := misses s; stale_hits := stale_hits s |}.

(** [record_miss()] *)
Definition record_miss (s : stats) : stats :=
  {| hits := hits s; misses := misses s + 1; stale_hits := stale_hits s |}.

(** Python floats, as far as [get_cache_stats] uses them: the literal
    [0.0] and [round(a / b, ndigits)] for integers [a] and [b]. *)
Class Floats := {
  float : Type;
  float_zero : float;
  round_div : Z -> Z -> Z -> float
}.

(** The dict [get_cache_stats()] returns. *)
Record cache_stats `{Floats} := {
  stats_hits : Z;
  stats_misses : Z;
  stats_stale_hits : Z;
  total_requests : Z;
  hit_rate : float
}.

(** [get_cache_stats()]: no division when nothing was counted. *)
Definition get_cache_stats `{Floats} (s : stats) : cache_stats :=
  let total := hits s + misses s + stale_hits s in
  {| stats_hits := hits s;
     stats_misses := misses s;
     stats_stale_hits := stale_hits s;
     total_requests := total;
     hit_rate := if total =? 0 then float_zero
                 else round_div (hits s + stale_hits s) total 4 |}.

End CacheAdmin.

(** ** API key check (app/auth.py) *)

Module Auth.

(** What [require_api_key] raises: [AuthenticationError] (an AppError
    answered with status 401), or the [TypeError] of
    [hmac.compare_digest]. *)
Inductive exn :=
| AuthenticationError (detail : string)
| TypeError (detail : string).

Inductive result (A : Type) :=
| Returned (a : A)
| Raises (e : exn).
Arguments Returned {A} a.
Arguments Raises {A} e.

(** [s.isascii()].  The characters of a string are code points below
    256 (a header value is decoded as latin-1). *)
Definition isascii (s : string) : bool :=
  forallb (fun c => (nat_of_ascii c <? 128)%nat) (list_ascii_of_string s).

(** [hmac.compare_digest(a, b)] on two [str]: equality, for ASCII
    strings only. *)
Definition compare_digest (a b : string) : result bool :=
  if isascii a && isascii b then Returned (String.eqb a b)
  else Raises (TypeError "comparing strings with non-ASCII characters is not supported").

(** [require_api_key(api_key)], with [settings.API_KEY]; [api_key] is
    the value of the [X-API-Key] header, [None] when there is none. *)
Definition require_api_key (API_KEY : string) (api_key : option string) : result string :=
  match api_key with
  | Some key =>
      if Py.str_truthy key then
        match compare_digest key API_KEY with
        | Returned true => Returned key
        | Returned false => Raises (AuthenticationError "Invalid or missing API key")
        | Raises e => Raises e
        end
      else Raises (AuthenticationError "Invalid or missing API key")
  | None => Raises (AuthenticationError "Invalid or missing API key")
  end.

End Auth.

(** ** Rate limiter (app/middleware.py, lines 16-81) *)

Module RateLimit.

Definition RATE_LIMIT_REQUESTS : Z := 100.
Definition RATE_LIMIT_WINDOW_SECONDS : Z := 60.
Definition _CLEANUP_INTERVAL : Z := 300.
Definition TRUSTED_PROXY_HEADERS : list string := ["X-Forwarded-For"; "X-Real-IP"].

(** A request, as the limiter looks at it: the header lines in the
    order received, their names in lower case (as the server hands them
    over), and [request.client.host] when there is a client. *)
Record request := {
  headers : list (string * string);
  client_host : option string
}.

(** [c.lower()] for a character. *)
Definition lower_char (c : ascii) : ascii :=
  let n := nat_of_ascii c in
  if ((65 <=? n) && (n <=? 90))%nat then ascii_of_nat (n + 32) else c.

(** [name.lower()] for a header name (ASCII). *)
Fixpoint lower (s : string) : string :=
  match s with
  | EmptyString => EmptyString
  | String c s' => String (lower_char c) (lower s')
  end.

(** [request.headers.get(name)]: the first line with that name,
    whatever the case of [name]. *)
Fixpoint headers_get (name : string) (lines : list (string * string)) : option string :=
  match lines with
  | [] => None
  | (k, v) :: rest => if String.eqb k (lower name) then Some v else headers_get name rest
  end.

(** [c.isspace()] for a code point below 256. *)
Definition isspace (c : ascii) : bool :=
  let n := nat_of_ascii c in
  (((9 <=? n) && (n <=? 13)) || ((28 <=? n) && (n <=? 32)) || (n =? 133) || (n =? 160))%nat.

Fixpoint lstrip (cs : list ascii) : list ascii :=
  match cs with
  | c :: cs' => if isspace c then lstrip cs' else cs
  | [] => []
  end.

(** [s.strip()] *)
Definition strip (s : string) : string :=
  string_of_list_ascii (rev (lstrip (rev (lstrip (list_ascii_of_string s))))).

(** [s.split(",")[0]] *)
Fixpoint before_comma (s : string) : string :=
  match s with
  | EmptyString => EmptyString
  | String c s' => if Ascii.eqb c ","%char then EmptyString else String c (before_comma s')
  end.

(** The loop of [_resolve_client_ip] over the trusted headers. *)
Fixpoint first_trusted (names : list string) (r : request) : option string :=
  match names with
  | [] => None
  | name :: rest =>
      match headers_get name (headers r) with
      | Some v => if Py.str_truthy v then Some (strip (before_comma v))
                  else first_trusted rest r
      | None => first_trusted rest r
      end
  end.

(** [_resolve_client_ip(request)] *)
Definition _resolve_client_ip (r : request) : string :=
  match first_trusted TRUSTED_PROXY_HEADERS r with
  | Some ip => ip
  | None => default "unknown" (client_host r)
  end.

(** One entry of [_buckets]: [{"window_start": t, "count": n}]. *)
Record bucket := { window_start : Z; count : Z }.

(** [_buckets] and [_last_cleanup]. *)
Record limiter := { _buckets : gmap string bucket; _last_cleanup : Z }.

(** The limiter when the module is loaded. *)
Definition no_requests : limiter := {| _buckets := ∅; _last_cleanup := 0 |}.

(** What [dispatch] does with the request: it answers 429 itself, with
    [Retry-After] and [X-RateLimit-Reset] set to [retry_after] and
    [X-RateLimit-Remaining] to 0, or it calls the next handler and adds
    [X-RateLimit-Remaining] and [X-RateLimit-Reset] to its response. *)
Inductive verdict :=
| TooManyRequests (retry_after : Z)
| Forwarded (remaining reset : Z).

(** The periodic purge at the head of [dispatch]. *)
Definition cleanup (now : Z) (st : limiter) : limiter :=
  if _CLEANUP_INTERVAL <? now - _last_cleanup st then
    {| _buckets :=
         filter (fun kv => ~ (RATE_LIMIT_WINDOW_SECONDS * 2 < now - window_start kv.2))
                (_buckets st);
       _last_cleanup := now |}
  else st.

(** [RateLimitMiddleware.dispatch(request, call_next)] with the
    monotonic clock at [now]: the verdict and the limiter afterwards. *)
Definition dispatch (now : Z) (r : request) (st : limiter) : verdict * limiter :=
  let client_ip := _resolve_client_ip r in
  let st1 := cleanup now st in
  let entry :=
    match _buckets st1 !! client_ip with
    | Some b =>
        if RATE_LIMIT_WINDOW_SECONDS <? now - window_start b
        then {| window_start := now; count := 1 |}
        else {| window_start := window_start b; count := count b + 1 |}
    | None => {| window_start := now; count := 1 |}
    end in
  let st2 := {| _buckets := <[client_ip := entry]> (_buckets st1);
                _last_cleanup := _last_cleanup st1 |} in
  let remaining := Z.max 0 (RATE_LIMIT_REQUESTS - count entry) in
  let reset_at := window_start entry + RATE_LIMIT_WINDOW_SECONDS - now in
  if RATE_LIMIT_REQUESTS <? count entry
  then (TooManyRequests (Z.max 0 reset_at), st2)
  else (Forwarded remaining (Z.max 0 reset_at), st2).

End RateLimit.

(** ** Queries (app/repositories/records.py, lines 79-113;
       app/repositories/audits.py, lines 36-42) *)

Module Queries.
Import Py Records Audits.

(** A row of [data_records] with the two columns [DataRecord] leaves
    out: the primary key and [fetched_at], a clock reading. *)
Record Row := { id : Z; fetched_at : Z; columns : DataRecord }.

(** A row of [fetch_audits] with its primary key and [created_at]. *)
Record AuditRow := { audit_id : Z; created_at : Z; audit : FetchAudit }.

(** What SQL leaves to the database engine: the order of rows that tie
    in an ORDER BY, and the order of the groups of a GROUP BY. *)
Class Engine := {
  order_by_desc : forall {A : Type}, (A -> Z) -> list A -> list A;
  order_by_desc_permutes :
    forall {A : Type} (key : A -> Z) (rows : list A),
      Permutation (order_by_desc key rows) rows;
  order_by_desc_sorts :
    forall {A : Type} (key : A -> Z) (rows : list A),
      StronglySorted (fun a b => key b <= key a) (order_by_desc key rows);
  group_order : list (string * string) -> list (string * string);
  group_order_permutes :
    forall groups : list (string * string), Permutation (group_order groups) groups
}.

Section Statements.
Context `{Engine}.

(** [OFFSET n LIMIT m]: PostgreSQL refuses negative values. *)
Definition offset_limit {A : Type} (offset limit : Z) (rows : list A) : result (list A) :=
  if offset <? 0 then Raises (OtherError "OFFSET must not be negative")
  else if limit <? 0 then Raises (OtherError "LIMIT must not be negative")
  else Returned (take (Z.to_nat limit) (drop (Z.to_nat offset) rows)).

(** The WHERE clause of [get_paginated]: [if source_key:] adds it. *)
Definition selected (source_key : option string) (table : list Row) : list Row :=
  if opt_str_truthy source_key
  then List.filter (fun row => of_source (default "" source_key) (columns row)) table
  else table.

(** [get_paginated(source_key, page, page_size)] *)
Definition get_paginated (source_key : option string) (page page_size : Z)
    (table : list Row) : result (Z * list Row) :=
  let total := Z.of_nat (length (selected source_key table)) in
  rows ← offset_limit ((page - 1) * page_size) page_size
           (order_by_desc fetched_at (selected source_key table));
  Returned (total, rows).

(** [get_by_id(record_id)]: [db.get(DataRecord, record_id)]. *)
Definition get_by_id (record_id : Z) (table : list Row) : option Row :=
  List.find (fun row => id row =? record_id) table.

(** One row of the result of [source_summary()]. *)
Record summary := {
  group_key : string;
  group_url : string;
  cnt : Z;
  last_fetch : option Z
}.

(** The GROUP BY columns of a row. *)
Definition group_of (row : Row) : string * string :=
  (Records.source_key (columns row), Records.source_url (columns row)).

Definition in_group (g : string * string) (row : Row) : bool :=
  String.eqb (Records.source_key (columns row)) g.1
  && String.eqb (Records.source_url (columns row)) g.2.

(** [max(...)] over the values of a group; NULL for no value. *)
Definition sql_max (values : list Z) : option Z :=
  match values with
  | [] => None
  | v :: rest => Some (fold_left Z.max rest v)
  end.

(** [source_summary()]: one row per distinct (source_key, source_url),
    with the number of rows of the group and its latest [fetched_at]. *)
Definition source_summary (table : list Row) : list summary :=
  map (fun g =>
         {| group_key := g.1;
            group_url := g.2;
            cnt := Z.of_nat (length (List.filter (in_group g) table));
            last_fetch := sql_max (map fetched_at (List.filter (in_group g) table)) |})
      (group_order (remove_dups (map group_of table))).

(** [AuditRepository.recent(limit)] *)
Definition recent (limit : Z) (audits : list AuditRow) : result (list AuditRow) :=
  offset_limit 0 limit (order_by_desc created_at audits).

End Statements.

End Queries.

(** ** Aggregate summary (app/services/aggregator.py, lines 69-134) *)

Module Summary.
Import Py Cache Records CacheAdmin Queries.

(** app/schemas.py.  A datetime is given by its clock reading. *)
Record SourceResult := {
  source_key : string;
  source_url : string;
  record_count : Z;
  last_fetch : option Z;
  duration_ms : Z;
  status : string
}.

Record AggregateResponse := {
  total_records : Z;
  sources : list SourceResult;
  aggregated_at : Z;
  cache_status : option string
}.

(** [bool(value)] for a cached value. *)
Definition truthy (v : pyval) : bool :=
  match v with
  | PNone => false
  | PBool b => b
  | PInt n => negb (n =? 0)
  | PFloat repr => negb (String.eqb repr "0.0" || String.eqb repr "-0.0")
  | PStr s => str_truthy s
  | PList items | PTuple items => match items with [] => false | _ :: _ => true end
  | PDict members => match members with [] => false | _ :: _ => true end
  | PObject _ | PCircular => true
  end.

(** [value[key] = x] for a cached value and a string key: a [TypeError]
    unless the value is a dict. *)
Definition setitem (value : pyval) (key : string) (x : pyval) : result pyval :=
  match value with
  | PDict members => Returned (PDict (assign key x members))
  | _ => Raises (OtherError "TypeError: object does not support item assignment")
  end.

(** [str(d)] for a datetime [d]. *)
Class Datetimes := { datetime_str : Z -> string }.

Section Models.
Context `{Datetimes}.

Definition dump_datetime (d : Z) : pyval := PObject (datetime_str d).

(** [SourceResult.model_dump()] *)
Definition dump_source (s : SourceResult) : pyval :=
  PDict [ (KStr "source_key", PStr (source_key s));
          (KStr "source_url", PStr (source_url s));
          (KStr "record_count", PInt (record_count s));
          (KStr "last_fetch", match last_fetch s with
                              | Some d => dump_datetime d
                              | None => PNone
                              end);
          (KStr "duration_ms", PInt (duration_ms s));
          (KStr "status", PStr (status s)) ].

(** [AggregateResponse.model_dump()] *)
Definition model_dump (r : AggregateResponse) : pyval :=
  PDict [ (KStr "total_records", PInt (total_records r));
          (KStr "sources", PList (map dump_source (sources r)));
          (KStr "aggregated_at", dump_datetime (aggregated_at r));
          (KStr "cache_status", match cache_status r with
                                | Some s => PStr s
                                | None => PNone
                                end) ].

Definition with_status (s : string) (r : AggregateResponse) : AggregateResponse :=
  {| total_records := total_records r; sources := sources r;
     aggregated_at := aggregated_at r; cache_status := Some s |}.

(** [AggregateResponse] called with the members of [value]: pydantic's
    validation.  What is
    relied on is that it reads back what [model_dump] gave once that
    went through [json.dumps(default=str)] and [json.loads] and its
    [cache_status] was assigned: the datetimes are parsed from their
    [str()]. *)
Class Pydantic := {
  validate : pyval -> result AggregateResponse;
  validate_model_dump :
    forall (r : AggregateResponse) (s : string) (document : json) (value : pyval),
      json_dumps (model_dump r) = Returned document ->
      setitem (json_loads document) "cache_status" (PStr s) = Returned value ->
      validate value = Returned (with_status s r)
}.

Context `{Hashlib} `{Engine} `{Pydantic} `{RedisServer}.

(** The response both [get_aggregate_summary] and
    [_revalidate_aggregate] build from the database, with
    [datetime.now(timezone.utc)] reading [utcnow]. *)
Definition summarise (utcnow : Z) (table : list Row) : AggregateResponse :=
  let sources :=
    map (fun r : summary =>
           {| source_key := group_key r;
              source_url := group_url r;
              record_count := cnt r;
              last_fetch := Queries.last_fetch r;
              duration_ms := 0;
              status := "ok" |})
        (source_summary table) in
  {| total_records := fold_right Z.add 0 (map record_count sources);
     sources := sources;
     aggregated_at := utcnow;
     cache_status := Some "MISS" |}.

(** [_revalidate_aggregate(key)] at Redis clock reading [now], with
    the table its own session sees: [except Exception] keeps whatever
    is raised from the caller.  Returns the store afterwards. *)
Definition _revalidate_aggregate (now utcnow : Z) (table : list Row) (key : string)
    (cache : redis) : redis :=
  match cache_set now key (model_dump (summarise utcnow table)) CACHE_TTL_WARM cache with
  | Returned cache' => cache'
  | Raises _ => cache
  end.

(** What a call of [get_aggregate_summary] leaves: the store, the hit
    counters, and the key of the revalidation it has scheduled with
    [asyncio.create_task], if any. *)
Record effects := {
  cache : redis;
  counters : stats;
  scheduled : option string
}.

(** [get_aggregate_summary(db)] at Redis clock reading [now]. *)
Definition get_aggregate_summary (now utcnow : Z) (table : list Row)
    (cache : redis) (counters : stats) : result AggregateResponse * effects :=
  let key := build_key [Text "aggregate_summary"] in
  let unchanged := {| cache := cache; counters := counters; scheduled := None |} in
  match cache_get now key cache with
  | Raises e => (Raises e, unchanged)
  | Returned (value, is_stale) =>
      if truthy value && negb is_stale then
        (value' ← setitem value "cache_status" (PStr "HIT"); validate value',
         {| cache := cache; counters := record_hit false counters; scheduled := None |})
      else if truthy value && is_stale then
        (value' ← setitem value "cache_status" (PStr "STALE"); validate value',
         {| cache := cache; counters := record_hit true counters;
            scheduled := Some key |})
      else
        let response := summarise utcnow table in
        match cache_set now key (model_dump response) CACHE_TTL_WARM cache with
        | Raises e =>
            (Raises e,
             {| cache := cache; counters := record_miss counters; scheduled := None |})
        | Returned cache' =>
            (Returned response,
             {| cache := cache'; counters := record_miss counters; scheduled := None |})
        end
  end.

End Models.

End Summary.

(** ** Record routes (app/routers/data.py, lines 50-89) *)

Module Routes.
Import Py Cache Records CacheAdmin Queries Summary.

(** What the two handlers raise: [NotFoundError] (an AppError answered
    with status 404), the refusal of the query parameters that are
    outside the bounds their declarations give (answered with status
    422), or whatever the cache, the database or the validation
    raises. *)
Inductive exn :=
| NotFoundError (detail : string)
| RequestValidationError (parameters : list string)
| Raised (e : Py.exn).

Inductive result (A : Type) :=
| Returned (a : A)
| Raises (e : exn).
Arguments Returned {A} a.
Arguments Raises {A} e.

(** What a call of the repository, the cache or pydantic gave. *)
Definition lift {A : Type} (r : Py.result A) : result A :=
  match r with
  | Py.Returned a => Returned a
  | Py.Raises e => Raises (Raised e)
  end.

(** app/schemas.py *)
Record RecordOut := {
  id : Z;
  source_key : string;
  external_id : option Z;
  payload : Upstream.record;
  checksum : option string;
  fetched_at : Z
}.

Record PaginatedRecords := {
  total : Z;
  page : Z;
  page_size : Z;
  items : list RecordOut
}.

(** [RecordOut.model_validate(row)], with [from_attributes]. *)
Definition from_row (row : Row) : RecordOut :=
  {| id := Queries.id row;
     source_key := Records.source_key (columns row);
     external_id := Records.external_id (columns row);
     payload := Records.payload (columns row);
     checksum := Records.checksum (columns row);
     fetched_at := Queries.fetched_at row |}.

(** The [payload] column as the Python value the JSON column type
    hands over: a value read from a JSON text. *)
Class Payloads := {
  payload_value : Upstream.record -> pyval;
  payload_native : forall r : Upstream.record, json_native (payload_value r) = true
}.

Section Handlers.
Context `{Datetimes} `{Payloads}.

(** [RecordOut.model_dump()] *)
Definition dump_record (out : RecordOut) : pyval :=
  PDict [ (KStr "id", PInt (id out));
          (KStr "source_key", PStr (source_key out));
          (KStr "external_id", match external_id out with
                               | Some n => PInt n
                               | None => PNone
                               end);
          (KStr "payload", payload_value (payload out));
          (KStr "checksum", match checksum out with
                            | Some s => PStr s
                            | None => PNone
                            end);
          (KStr "fetched_at", dump_datetime (fetched_at out)) ].

(** [PaginatedRecords.model_dump()] *)
Definition dump_page (p : PaginatedRecords) : pyval :=
  PDict [ (KStr "total", PInt (total p));
          (KStr "page", PInt (page p));
          (KStr "page_size", PInt (page_size p));
          (KStr "items", PList (map dump_record (items p))) ].

(** [RecordOut] and [PaginatedRecords] called with the members of a
    cached value: pydantic's validation.  What is relied on is that it
    reads back what [model_dump] gave once that went through
    [json.dumps(default=str)] and [json.loads]. *)
Class Models := {
  validate_record : pyval -> Py.result RecordOut;
  validate_page : pyval -> Py.result PaginatedRecords;
  validate_record_dump :
    forall (out : RecordOut) (document : json),
      json_dumps (dump_record out) = Py.Returned document ->
      validate_record (json_loads document) = Py.Returned out;
  validate_page_dump :
    forall (p : PaginatedRecords) (document : json),
      json_dumps (dump_page p) = Py.Returned document ->
      validate_page (json_loads document) = Py.Returned p
}.

Context `{Hashlib} `{Engine} `{Models} `{RedisServer}.

(** What a handler leaves: the store and the hit counters. *)
Record effects := { cache : redis; counters : stats }.

(** The [source_key] query parameter as an argument of [build_key]. *)
Definition key_part (source_key : option string) : part :=
  match source_key with Some s => Text s | None => Missing end.

(** [list_records(source_key, page, page_size, db)] at Redis clock
    reading [now].  The bounds of [page] and [page_size] are those of
    their declarations ([Query(1, ge=1)], [Query(50, ge=1, le=200)]),
    checked before the body runs. *)
Definition list_records (source_key : option string) (page page_size : Z) (now : Z)
    (table : list Row) (cache : redis) (counters : stats)
  : result PaginatedRecords * effects :=
  let unchanged := {| cache := cache; counters := counters |} in
  let refused :=
    (if page <? 1 then ["page"] else [])
    ++ (if (page_size <? 1) || (200 <? page_size) then ["page_size"] else []) in
  match refused with
  | _ :: _ => (Raises (RequestValidationError refused), unchanged)
  | [] =>
    let cache_key :=
      build_key [Text "records"; key_part source_key; Number page; Number page_size] in
    match cache_get now cache_key cache with
    | Py.Raises e => (Raises (Raised e), unchanged)
    | Py.Returned (value, is_stale) =>
        if truthy value && negb is_stale then
          (lift (validate_page value),
           {| cache := cache; counters := record_hit false counters |})
        else
          let missed := {| cache := cache; counters := record_miss counters |} in
          match get_paginated source_key page page_size table with
          | Py.Raises e => (Raises (Raised e), missed)
          | Py.Returned (n, rows) =>
              let result := {| total := n; page := page; page_size := page_size;
                               items := map from_row rows |} in
              match cache_set now cache_key (dump_page result) CACHE_TTL_WARM cache with
              | Py.Raises e => (Raises (Raised e), missed)
              | Py.Returned cache' =>
                  (Returned result,
                   {| cache := cache'; counters := record_miss counters |})
              end
          end
    end
  end.

(** [get_record(record_id, db)] at Redis clock reading [now]. *)
Definition get_record (record_id : Z) (now : Z) (table : list Row) (cache : redis)
    (counters : stats) : result RecordOut * effects :=
  let unchanged := {| cache := cache; counters := counters |} in
  let cache_key := build_key [Text "record"; Number record_id] in
  match cache_get now cache_key cache with
  | Py.Raises e => (Raises (Raised e), unchanged)
  | Py.Returned (value, is_stale) =>
      if truthy value && negb is_stale then
        (lift (validate_record value),
         {| cache := cache; counters := record_hit false counters |})
      else
        let missed := {| cache := cache; counters := record_miss counters |} in
        match get_by_id record_id table with
        | None =>
            (Raises (NotFoundError ("Record " +:+ pretty record_id +:+ " not found")),
             missed)
        | Some row =>
            let out := from_row row in
            match cache_set now cache_key (dump_record out) CACHE_TTL_COLD cache with
            | Py.Raises e => (Raises (Raised e), missed)
            | Py.Returned cache' =>
                (Returned out, {| cache := cache'; counters := record_miss counters |})
            end
        end
  end.

End Handlers.

End Routes.

(* ===================================================================== *)
(** * Part II: properties *)
(* ===================================================================== *)

(** ** Circuit breaker *)

Module BreakerProofs.
Import Breaker.

Lemma record_failure_lookup (now : Z) (url : string) (c : gmap string circuit_state) :
  _record_failure now url c !! url =
    Some {| failures := failures (default {| failures := 0; opened_at := 0 |} (c !! url)) + 1;
            opened_at :=
              if FAILURE_THRESHOLD <=?
                   failures (default {| failures := 0; opened_at := 0 |} (c !! url)) + 1
              then now
              else opened_at (default {| failures := 0; opened_at := 0 |} (c !! url)) |}.
Proof. unfold _record_failure. by rewrite lookup_insert_eq. Qed.

Lemma record_failure_other (now : Z) (url url' : string) (c : gmap string circuit_state) :
  url <> url' -> _record_failure now url c !! url' = c !! url'.
Proof. intros Hne. unfold _record_failure. by rewrite lookup_insert_ne. Qed.

Lemma record_success_lookup (url : string) (c : gmap string circuit_state) :
  _record_success url c !! url = None.
Proof. apply lookup_delete_eq. Qed.

Lemma is_open_absent (now : Z) (url : string) (c : gmap string circuit_state) :
  c !! url = None -> _is_open now url c = (false, c).
Proof. intros Hnone. unfold _is_open. by rewrite Hnone. Qed.

Lemma is_open_below (now : Z) (url : string) (c : gmap string circuit_state)
    (st : circuit_state) :
  c !! url = Some st -> failures st < FAILURE_THRESHOLD -> _is_open now url c = (false, c).
Proof.
  intros Hst Hlt. unfold _is_open. rewrite Hst.
  destruct (Z.leb_spec FAILURE_THRESHOLD (failures st)); [lia | done].
Qed.

Lemma is_open_tripped (now : Z) (url : string) (c : gmap string circuit_state)
    (st : circuit_state) :
  c !! url = Some st -> FAILURE_THRESHOLD <= failures st ->
  now - opened_at st < RECOVERY_SECONDS -> _is_open now url c = (true, c).
Proof.
  intros Hst Hge Hwin. unfold _is_open. rewrite Hst.
  destruct (Z.leb_spec FAILURE_THRESHOLD (failures st)); [| lia].
  destruct (Z.ltb_spec (now - opened_at st) RECOVERY_SECONDS); [done | lia].
Qed.

Lemma is_open_recovered (now : Z) (url : string) (c : gmap string circuit_state)
    (st : circuit_state) :
  c !! url = Some st -> FAILURE_THRESHOLD <= failures st ->
  RECOVERY_SECONDS <= now - opened_at st ->
  _is_open now url c =
    (false, <[url := {| failures := FAILURE_THRESHOLD - 1; opened_at := opened_at st |}]> c).
Proof.
  intros Hst Hge Hwin. unfold _is_open. rewrite Hst.
  destruct (Z.leb_spec FAILURE_THRESHOLD (failures st)); [| lia].
  destruct (Z.ltb_spec (now - opened_at st) RECOVERY_SECONDS); [lia | done].
Qed.

(** C4.  Starting with no state for a source, one or two recorded
    failures leave its breaker closed and the third opens it, for every
    check made less than [RECOVERY_SECONDS] after that failure; and in
    any state a recorded success removes the source's entry, so the
    breaker reports closed without touching the state, and the next
    failure counts as the first. *)
Theorem breaker_opens_at_threshold_and_success_resets :
  forall (url : string) (c : gmap string circuit_state) (t1 t2 t3 now : Z),
    c !! url = None ->
    now - t3 < RECOVERY_SECONDS ->
    (_is_open now url (_record_failure t1 url c)).1 = false
    /\ (_is_open now url (_record_failure t2 url (_record_failure t1 url c))).1 = false
    /\ (_is_open now url
          (_record_failure t3 url (_record_failure t2 url (_record_failure t1 url c)))).1
       = true
    /\ (forall (c' : gmap string circuit_state) (now' t : Z),
           _record_success url c' !! url = None
           /\ _is_open now' url (_record_success url c') = (false, _record_success url c')
           /\ _record_failure t url (_record_success url c') !! url
              = Some {| failures := 1; opened_at := 0 |}).
Proof.
  intros url c t1 t2 t3 now Hnone Hwin.
  pose proof (record_failure_lookup t1 url c) as H1. rewrite Hnone in H1. cbn in H1.
  pose proof (record_failure_lookup t2 url (_record_failure t1 url c)) as H2.
  rewrite H1 in H2. cbn in H2.
  pose proof (record_failure_lookup t3 url
                (_record_failure t2 url (_record_failure t1 url c))) as H3.
  rewrite H2 in H3. cbn in H3.
  repeat split.
  - by rewrite (is_open_below _ _ _ _ H1).
  - by rewrite (is_open_below _ _ _ _ H2).
  - rewrite (is_open_tripped _ _ _ _ H3); [done | done | exact Hwin].
  - apply record_success_lookup.
  - apply is_open_absent, record_success_lookup.
  - rewrite record_failure_lookup, record_success_lookup. done.
Qed.

Lemma breaker_opens_at_threshold_and_success_resets_witness :
  (∅ : gmap string circuit_state) !! "https://x/posts" = None
  /\ 130 - 100 < RECOVERY_SECONDS
  /\ (_is_open 130 "https://x/posts"
        (_record_failure 100 "https://x/posts"
           (_record_failure 50 "https://x/posts"
              (_record_failure 10 "https://x/posts" ∅)))).1 = true.
Proof.
  split; [reflexivity |]. split; [reflexivity |].
  exact (proj1 (proj2 (proj2
    (breaker_opens_at_threshold_and_success_resets
       "https://x/posts" ∅ 10 50 100 130 eq_refl eq_refl)))).
Defined.

(** C5 (what the code does).  Once the recovery window has elapsed on a
    tripped breaker, [_is_open] answers closed and stores
    [FAILURE_THRESHOLD - 1] failures; checked again, at any time and
    before any outcome is recorded, it answers closed again and leaves
    the state as it is. *)
Theorem half_open_admits_every_later_check :
  forall (url : string) (c : gmap string circuit_state) (st : circuit_state) (now now' : Z),
    c !! url = Some st ->
    FAILURE_THRESHOLD <= failures st ->
    RECOVERY_SECONDS <= now - opened_at st ->
    (_is_open now url c).1 = false
    /\ (_is_open now url c).2 !! url
       = Some {| failures := FAILURE_THRESHOLD - 1; opened_at := opened_at st |}
    /\ _is_open now' url (_is_open now url c).2 = (false, (_is_open now url c).2).
Proof.
  intros url c st now now' Hst Hge Hwin.
  rewrite (is_open_recovered _ _ _ _ Hst Hge Hwin). cbn [fst snd].
  split; [done |]. split; [by rewrite lookup_insert_eq |].
  eapply is_open_below; [by rewrite lookup_insert_eq |]. cbn. unfold FAILURE_THRESHOLD. lia.
Qed.

Lemma half_open_admits_every_later_check_witness :
  _is_open 61 "https://x/posts"
    (_is_open 60 "https://x/posts"
       {[ "https://x/posts" := {| failures := 3; opened_at := 0 |} ]}).2
  = (false,
     (_is_open 60 "https://x/posts"
        {[ "https://x/posts" := {| failures := 3; opened_at := 0 |} ]}).2).
Proof.
  refine (proj2 (proj2
    (half_open_admits_every_later_check "https://x/posts"
       {[ "https://x/posts" := {| failures := 3; opened_at := 0 |} ]}
       {| failures := 3; opened_at := 0 |} 60 61 _ _ _)));
    [apply lookup_singleton_eq | unfold FAILURE_THRESHOLD; cbn; lia
    | unfold RECOVERY_SECONDS; cbn; lia].
Defined.

(** X1.  The probe decides: after the half-open check, one recorded
    failure trips the breaker again, for every check made less than
    [RECOVERY_SECONDS] after it, and a recorded success removes the
    source's state. *)
Theorem probe_outcome_decides :
  forall (url : string) (c : gmap string circuit_state) (st : circuit_state)
         (now t now' : Z),
    c !! url = Some st ->
    FAILURE_THRESHOLD <= failures st ->
    RECOVERY_SECONDS <= now - opened_at st ->
    now' - t < RECOVERY_SECONDS ->
    _is_open now' url (_record_failure t url (_is_open now url c).2)
    = (true, _record_failure t url (_is_open now url c).2)
    /\ _record_success url (_is_open now url c).2 !! url = None.
Proof.
  intros url c st now t now' Hst Hge Hwin Hwin'.
  rewrite (is_open_recovered _ _ _ _ Hst Hge Hwin). cbn [fst snd].
  split; [| apply record_success_lookup].
  eapply is_open_tripped.
  - rewrite record_failure_lookup, lookup_insert_eq. reflexivity.
  - cbn. unfold FAILURE_THRESHOLD. lia.
  - cbn. exact Hwin'.
Qed.

Lemma probe_outcome_decides_witness :
  _is_open 100 "https://x/posts"
    (_record_failure 61 "https://x/posts"
       (_is_open 60 "https://x/posts"
          {[ "https://x/posts" := {| failures := 3; opened_at := 0 |} ]}).2)
  = (true,
     _record_failure 61 "https://x/posts"
       (_is_open 60 "https://x/posts"
          {[ "https://x/posts" := {| failures := 3; opened_at := 0 |} ]}).2).
Proof.
  refine (proj1
    (probe_outcome_decides "https://x/posts"
       {[ "https://x/posts" := {| failures := 3; opened_at := 0 |} ]}
       {| failures := 3; opened_at := 0 |} 60 61 100 _ _ _ _));
    [apply lookup_singleton_eq | unfold FAILURE_THRESHOLD; cbn; lia
    | unfold RECOVERY_SECONDS; cbn; lia | unfold RECOVERY_SECONDS; lia].
Defined.

End BreakerProofs.

(** ** Fetch executor *)

Module FetcherProofs.
Import Breaker Fetcher Upstream.

(** The outcome returned when the breaker rejects the request. *)
Definition rejected (u : string) : outcome :=
  {| url := u; source_key := source_key_of u; records := []; duration_ms := 0;
     error := Some CIRCUIT_OPEN |}.

Lemma guarded_url (env : environment) (u : string) (c : gmap string circuit_state) :
  url (_guarded env u c).1.1 = u.
Proof.
  unfold _guarded. destruct (_is_open (checked_at env u) u c) as [[] c1]; [done |].
  destruct (_fetch_one env u) as [[[recs ms] | msg] log]; done.
Qed.

Lemma guarded_error_no_records (env : environment) (u : string)
    (c : gmap string circuit_state) :
  error (_guarded env u c).1.1 <> None -> records (_guarded env u c).1.1 = [].
Proof.
  unfold _guarded. destruct (_is_open (checked_at env u) u c) as [[] c1]; [done |].
  destruct (_fetch_one env u) as [[[recs ms] | msg] log]; cbn; [congruence | done].
Qed.

Lemma is_open_true_keeps_state (now : Z) (u : string) (c : gmap string circuit_state) :
  (_is_open now u c).1 = true -> (_is_open now u c).2 = c.
Proof.
  unfold _is_open. destruct (c !! u) as [st |]; [| done].
  destruct (FAILURE_THRESHOLD <=? failures st); [| done].
  destruct (now - opened_at st <? RECOVERY_SECONDS); done.
Qed.

Lemma guarded_open (env : environment) (u : string) (c : gmap string circuit_state) :
  (_is_open (checked_at env u) u c).1 = true -> _guarded env u c = (rejected u, c, []).
Proof.
  intros Hopen. pose proof (is_open_true_keeps_state _ _ _ Hopen) as Hsame.
  unfold _guarded. destruct (_is_open (checked_at env u) u c) as [b c1].
  cbn in Hopen, Hsame. subst. done.
Qed.

Lemma fetch_sources_cons (env : environment) (u : string) (rest : list string)
    (c : gmap string circuit_state) :
  (fetch_sources env (u :: rest) c).1.1 =
    (_guarded env u c).1.1 :: (fetch_sources env rest (_guarded env u c).1.2).1.1.
Proof.
  cbn [fetch_sources]. destruct (_guarded env u c) as [[o c1] log1]. cbn [fst snd].
  destruct (fetch_sources env rest c1) as [[os c2] log2]. done.
Qed.

(** C6.  [fetch_sources] is a total function of its inputs (nothing it
    does raises): it returns one outcome per URL, in the order of the
    URLs; an outcome that carries an error carries no records; and a
    source whose breaker reports open gets the rejection outcome, with
    zero duration, the breaker state unchanged and no request issued. *)
Theorem fetch_sources_one_outcome_per_url :
  forall (env : environment) (urls : list string) (c : gmap string circuit_state),
    map url (fetch_sources env urls c).1.1 = urls
    /\ Forall (fun o => error o <> None -> records o = []) (fetch_sources env urls c).1.1
    /\ (forall (u : string) (c' : gmap string circuit_state),
           (_is_open (checked_at env u) u c').1 = true ->
           _guarded env u c' = (rejected u, c', [])
           /\ fetch_sources env [u] c' = ([rejected u], c', [])).
Proof.
  intros env urls c. split; [| split].
  - revert c. induction urls as [| u rest IH]; intros c; [done |].
    rewrite fetch_sources_cons. cbn [map]. by rewrite guarded_url, IH.
  - revert c. induction urls as [| u rest IH]; intros c; [by constructor |].
    rewrite fetch_sources_cons. constructor; [apply guarded_error_no_records | apply IH].
  - intros u c' Hopen. pose proof (guarded_open env u c' Hopen) as Hg.
    split; [exact Hg |]. cbn [fetch_sources]. by rewrite Hg.
Qed.

(** A network that always times out, and a breaker tripped at time 0
    that is consulted at time 10. *)
Definition always_timeout : environment :=
  {| respond := fun _ _ => TimeoutException "";
     checked_at := fun _ => 10;
     recorded_at := fun _ => 10 |}.

Lemma fetch_sources_one_outcome_per_url_witness :
  fetch_sources always_timeout ["https://x/posts"]
    {[ "https://x/posts" := {| failures := 3; opened_at := 0 |} ]}
  = ([rejected "https://x/posts"],
     {[ "https://x/posts" := {| failures := 3; opened_at := 0 |} ]}, []).
Proof.
  refine (proj2 (proj2 (proj2
    (fetch_sources_one_outcome_per_url always_timeout [] ∅))
    "https://x/posts" {[ "https://x/posts" := {| failures := 3; opened_at := 0 |} ]} _)).
  reflexivity.
Defined.

End FetcherProofs.

(** ** Stale-while-revalidate cache *)

Module CacheProofs.
Import Py Cache.

Lemma fresh_key_ne (key : string) : fresh_key key <> key.
Proof.
  unfold fresh_key. induction key as [| a key IH]; cbn; [done |].
  intros Heq. injection Heq as Heq. by apply IH.
Qed.

(** The store with an initialised pool serving [keys]. *)
Definition serving (keys : gmap string entry) : redis :=
  {| pool_initialized := true; backend := Serving keys |}.

(** The store with an initialised pool whose backend fails. *)
Definition failing (detail : string) : redis :=
  {| pool_initialized := true; backend := Unreachable detail |}.

(** The store before [init_redis_pool()] or after [close_redis_pool()]. *)
Definition uninitialised (s : server) : redis :=
  {| pool_initialized := false; backend := s |}.

Definition NOT_INITIALISED : exn := CacheError "Redis pool not initialized".

(** *** Encoding and decoding *)

(** Induction on a value, with the property assumed for the items of a
    list or tuple and the values of a dict. *)
Lemma pyval_nested_ind (P : pyval -> Prop) :
  P PNone -> (forall b, P (PBool b)) -> (forall n, P (PInt n)) ->
  (forall repr, P (PFloat repr)) -> (forall s, P (PStr s)) ->
  (forall items, Forall P items -> P (PList items)) ->
  (forall items, Forall P items -> P (PTuple items)) ->
  (forall members, Forall (fun kx => P kx.2) members -> P (PDict members)) ->
  (forall str, P (PObject str)) -> P PCircular ->
  forall v, P v.
Proof.
  intros HN HB HI HF HS HL HT HD HO HC. fix IH 1.
  intros [| b | n | repr | s | items | items | members | str |].
  - exact HN.
  - apply HB.
  - apply HI.
  - apply HF.
  - apply HS.
  - apply HL. induction items as [| x items IHitems]; constructor;
      [apply IH | exact IHitems].
  - apply HT. induction items as [| x items IHitems]; constructor;
      [apply IH | exact IHitems].
  - apply HD. induction members as [| [k x] members IHmembers]; constructor;
      [apply IH | exact IHmembers].
  - apply HO.
  - exact HC.
Qed.

(** The member name of a key, when it has one. *)
Definition name_of (k : pykey) : string :=
  match key_name k with
  | Returned name => name
  | Raises _ => ""
  end.

(** The document of a value the encoder does not refuse. *)
Fixpoint encode (v : pyval) : json :=
  match v with
  | PNone => JNull
  | PBool b => JBool b
  | PInt n => JNumber n
  | PFloat repr => JFloat repr
  | PStr s => JString s
  | PList items | PTuple items => JArray (map encode items)
  | PDict members => JObject (map (fun '(k, x) => (name_of k, encode x)) members)
  | PObject str => JString str
  | PCircular => JNull
  end.

Definition is_name (k : pykey) : bool :=
  match k with KOther _ => false | _ => true end.

(** A value the encoder does not refuse: no container that contains
    itself, and no key that is none of str, int, float, bool and None. *)
Fixpoint encodable (v : pyval) : bool :=
  match v with
  | PNone | PBool _ | PInt _ | PFloat _ | PStr _ | PObject _ => true
  | PList items | PTuple items => forallb encodable items
  | PDict members => forallb (fun '(k, x) => is_name k && encodable x) members
  | PCircular => false
  end.

(** What the encoder raises is a [TypeError] or a [ValueError]. *)
Definition encoder_error (e : exn) : Prop :=
  (exists detail, e = TypeError detail) \/ (exists detail, e = ValueError detail).

Lemma mapM_cons {A B : Type} (f : A -> result B) (x : A) (l : list A) :
  mapM f (x :: l) = y ← f x; k ← mapM f l; Returned (y :: k).
Proof. reflexivity. Qed.

Lemma mapM_returns {A B : Type} (f : A -> result B) (g : A -> B) (l : list A) :
  Forall (fun x => f x = Returned (g x)) l -> mapM f l = Returned (map g l).
Proof.
  induction 1 as [| x l Hx _ IH]; [done |]. rewrite mapM_cons, Hx, IH. done.
Qed.

Lemma mapM_returned {A B : Type} (f : A -> result B) (g : A -> B) (l : list A)
    (l' : list B) :
  Forall (fun x => forall y, f x = Returned y -> y = g x) l ->
  mapM f l = Returned l' -> l' = map g l.
Proof.
  intros Hall. revert l'. induction Hall as [| x l Hx _ IH]; intros l'.
  - by intros [= <-].
  - rewrite mapM_cons. destruct (f x) as [y | e] eqn:Hy; [| done]. cbn.
    destruct (mapM f l) as [k | e]; [| done]. cbn. intros [= <-].
    by rewrite (Hx y eq_refl), (IH k eq_refl).
Qed.

Lemma mapM_raised {A B : Type} (f : A -> result B) (P : exn -> Prop) (l : list A)
    (e : exn) :
  Forall (fun x => forall e, f x = Raises e -> P e) l ->
  mapM f l = Raises e -> P e.
Proof.
  induction 1 as [| x l Hx _ IH]; [done |].
  rewrite mapM_cons. destruct (f x) as [y | e'] eqn:Hy; cbn.
  - destruct (mapM f l) as [k | e']; cbn; [done |]. intros [= <-]. by apply IH.
  - intros [= <-]. by apply Hx.
Qed.

Lemma mapM_all {A B : Type} (f : A -> result B) (ok : A -> bool) (l : list A)
    (l' : list B) :
  Forall (fun x => forall y, f x = Returned y -> ok x = true) l ->
  mapM f l = Returned l' -> forallb ok l = true.
Proof.
  intros Hall. revert l'. induction Hall as [| x l Hx _ IH]; intros l'; [done |].
  rewrite mapM_cons. destruct (f x) as [y | e] eqn:Hy; [| done]. cbn.
  destruct (mapM f l) as [k | e]; [| done]. cbn. intros _.
  by rewrite (Hx y eq_refl), (IH k eq_refl).
Qed.

Lemma key_name_of (k : pykey) : is_name k = true -> key_name k = Returned (name_of k).
Proof. by destruct k as [| | | [] | |]. Qed.

Lemma key_name_returned (k : pykey) (name : string) :
  key_name k = Returned name -> is_name k = true /\ name = name_of k.
Proof. unfold name_of. destruct k as [| | | [] | |]; cbn; intros [= <-]; done. Qed.

(** A value the encoder does not refuse is encoded. *)
Lemma json_dumps_encodable (v : pyval) :
  encodable v = true -> json_dumps v = Returned (encode v).
Proof.
  induction v as [| b | n | repr | s | items IH | items IH | members IH | str |]
    using pyval_nested_ind; cbn; try done.
  - intros Hall. rewrite (mapM_returns json_dumps encode); [done |].
    apply Forall_forall. intros x Hx. eapply Forall_forall in IH; [| exact Hx].
    apply IH. rewrite forallb_forall in Hall. by apply Hall, list_elem_of_In.
  - intros Hall. rewrite (mapM_returns json_dumps encode); [done |].
    apply Forall_forall. intros x Hx. eapply Forall_forall in IH; [| exact Hx].
    apply IH. rewrite forallb_forall in Hall. by apply Hall, list_elem_of_In.
  - intros Hall.
    rewrite (mapM_returns _ (fun '(k, x) => (name_of k, encode x))); [done |].
    apply Forall_forall. intros [k x] Hx. eapply Forall_forall in IH; [| exact Hx].
    rewrite forallb_forall in Hall. specialize (Hall (k, x)). cbn in Hall, IH.
    apply list_elem_of_In, Hall, andb_prop in Hx as [Hk Hv].
    by rewrite (key_name_of k Hk), (IH Hv).
Qed.

(** What the encoder returns is the document of the value, and the value
    is one it does not refuse. *)
Lemma json_dumps_returned (v : pyval) (document : json) :
  json_dumps v = Returned document -> encodable v = true /\ document = encode v.
Proof.
  revert document.
  induction v as [| b | n | repr | s | items IH | items IH | members IH | str |]
    using pyval_nested_ind; cbn; intros document; try (by intros [= <-]).
  - destruct (mapM json_dumps items) as [items' |] eqn:Hitems; [| done]. cbn.
    intros [= <-]. split.
    + eapply mapM_all; [| exact Hitems]. eapply Forall_impl; [exact IH |].
      intros x Hx y Hy. by apply (Hx y).
    + f_equal. eapply mapM_returned; [| exact Hitems]. eapply Forall_impl; [exact IH |].
      intros x Hx y Hy. by apply (Hx y).
  - destruct (mapM json_dumps items) as [items' |] eqn:Hitems; [| done]. cbn.
    intros [= <-]. split.
    + eapply mapM_all; [| exact Hitems]. eapply Forall_impl; [exact IH |].
      intros x Hx y Hy. by apply (Hx y).
    + f_equal. eapply mapM_returned; [| exact Hitems]. eapply Forall_impl; [exact IH |].
      intros x Hx y Hy. by apply (Hx y).
  - destruct (mapM _ members) as [members' |] eqn:Hmembers; [| done]. cbn.
    intros [= <-].
    assert (Forall (fun kx : pykey * pyval =>
              forall y,
                (let '(k, x) := kx in
                 name ← key_name k; x' ← json_dumps x; Returned (name, x')) = Returned y ->
                is_name kx.1 = true /\ encodable kx.2 = true
                /\ y = (name_of kx.1, encode kx.2)) members) as Heach.
    { eapply Forall_impl; [exact IH |]. intros [k x] Hx y. cbn in Hx |- *.
      destruct (key_name k) as [name |] eqn:Hk; [| done]. cbn.
      destruct (json_dumps x) as [x' |] eqn:Hx'; [| done]. cbn. intros [= <-].
      destruct (key_name_returned k name Hk) as [Hname ->].
      destruct (Hx x' eq_refl) as [Henc ->]. done. }
    split.
    + eapply (mapM_all _ (fun '(k, x) => is_name k && encodable x)); [| exact Hmembers].
      eapply Forall_impl; [exact Heach |]. intros [k x] Hx y Hy.
      destruct (Hx y Hy) as (Hk & Hv & _). cbn in Hk, Hv. by rewrite Hk, Hv.
    + f_equal.
      eapply (mapM_returned _ (fun '(k, x) => (name_of k, encode x))); [| exact Hmembers].
      eapply Forall_impl; [exact Heach |]. intros [k x] Hx y Hy.
      by destruct (Hx y Hy) as (_ & _ & ->).
Qed.

(** What the encoder raises. *)
Lemma json_dumps_raised (v : pyval) (e : exn) :
  json_dumps v = Raises e -> encoder_error e.
Proof.
  revert e.
  induction v as [| b | n | repr | s | items IH | items IH | members IH | str |]
    using pyval_nested_ind; cbn; intros e; try done.
  - destruct (mapM json_dumps items) as [items' |] eqn:Hitems; [done |]. cbn.
    intros [= <-]. eapply mapM_raised; [exact IH | exact Hitems].
  - destruct (mapM json_dumps items) as [items' |] eqn:Hitems; [done |]. cbn.
    intros [= <-]. eapply mapM_raised; [exact IH | exact Hitems].
  - destruct (mapM _ members) as [members' |] eqn:Hmembers; [done |]. cbn.
    intros [= <-]. eapply mapM_raised; [| exact Hmembers].
    eapply Forall_impl; [exact IH |]. intros [k x] Hx e'. cbn in Hx |- *.
    destruct (key_name k) as [name |] eqn:Hk; cbn.
    + destruct (json_dumps x) as [x' |] eqn:Hx'; cbn; [done |]. intros [= <-]. by apply Hx.
    + intros [= <-]. destruct k as [| | | [] | |]; try done. injection Hk as <-.
      left. by eexists.
  - intros [= <-]. right. by eexists.
Qed.

(** The encoder returns or raises by the value alone. *)
Lemma json_dumps_refused (v : pyval) :
  encodable v = false -> exists e, json_dumps v = Raises e /\ encoder_error e.
Proof.
  intros Hno. destruct (json_dumps v) as [document | e] eqn:Hv.
  - apply json_dumps_returned in Hv as [Hyes _]. congruence.
  - exists e. split; [done |]. by apply json_dumps_raised in Hv.
Qed.

(** The value [json.loads] reads from the document of a value: the
    value with every tuple turned into a list, every key into its
    member name, and every object the encoder does not know into its
    [str()]. *)
Fixpoint decoded (v : pyval) : pyval :=
  match v with
  | PNone | PBool _ | PInt _ | PFloat _ | PStr _ | PCircular => v
  | PList items | PTuple items => PList (map decoded items)
  | PDict members => PDict (dict_of (map (fun '(k, x) => (name_of k, decoded x)) members))
  | PObject str => PStr str
  end.

Lemma json_loads_encode (v : pyval) :
  encodable v = true -> json_loads (encode v) = decoded v.
Proof.
  induction v as [| b | n | repr | s | items IH | items IH | members IH | str |]
    using pyval_nested_ind; cbn; try done.
  - intros Hall. f_equal. rewrite map_map. apply List.map_ext_in. intros x Hx.
    rewrite Forall_forall in IH. rewrite forallb_forall in Hall.
    apply IH; [by apply list_elem_of_In | by apply Hall].
  - intros Hall. f_equal. rewrite map_map. apply List.map_ext_in. intros x Hx.
    rewrite Forall_forall in IH. rewrite forallb_forall in Hall.
    apply IH; [by apply list_elem_of_In | by apply Hall].
  - intros Hall. do 2 f_equal. rewrite map_map. apply List.map_ext_in. intros [k x] Hx.
    rewrite Forall_forall in IH. specialize (IH (k, x)). cbn in IH.
    rewrite forallb_forall in Hall. pose proof (Hall (k, x) Hx) as [_ Hv]%andb_prop.
    rewrite IH; [done | by apply list_elem_of_In | done].
Qed.

(** The dict has a member of that name. *)
Definition has_name (name : string) (members : list (pykey * pyval)) : bool :=
  existsb (fun kx => match kx.1 with KStr s => String.eqb s name | _ => false end) members.

Lemma assign_new (name : string) (x : pyval) (members : list (pykey * pyval)) :
  has_name name members = false -> assign name x members = members ++ [(KStr name, x)].
Proof.
  unfold has_name. induction members as [| [k v] members IH]; cbn; [done |].
  intros [Hk Hrest]%orb_false_elim. by rewrite Hk, IH.
Qed.

(** Members whose keys are distinct [str] are added one after the other. *)
Lemma fold_assign (members acc : list (pykey * pyval)) (names : list string) :
  (forall name, existsb (String.eqb name) names = false -> has_name name acc = false) ->
  str_keys names (map fst members) = true ->
  fold_left (fun ms '(name, x) => assign name x ms)
            (map (fun '(k, x) => (name_of k, x)) members) acc
  = acc ++ members.
Proof.
  revert acc names. induction members as [| [k x] members IH]; intros acc names Hacc;
    cbn [map fst str_keys fold_left]; [by rewrite app_nil_r |].
  intros [Hnew Hrest]%andb_prop. destruct k as [s | | | | |]; try done.
  cbn in Hnew. apply negb_true_iff in Hnew. cbn [name_of key_name].
  rewrite (assign_new s x acc) by (by apply Hacc).
  rewrite (IH _ (s :: names)); [by rewrite <- app_assoc | | done].
  intros name Hname. cbn in Hname. apply orb_false_elim in Hname as [Hs Hnames].
  unfold has_name. rewrite existsb_app. cbn. rewrite orb_false_r.
  apply orb_false_intro; [by apply Hacc |]. by rewrite String.eqb_sym.
Qed.

(** A dict whose keys are distinct [str] is read back member by member. *)
Lemma json_loads_encode_dict (members : list (pykey * pyval)) :
  str_keys [] (map fst members) = true ->
  json_loads (encode (PDict members))
  = PDict (map (fun '(k, x) => (k, json_loads (encode x))) members).
Proof.
  intros Hkeys. cbn [encode json_loads]. f_equal. rewrite map_map. unfold dict_of.
  pose proof (fold_assign (map (fun '(k, x) => (k, json_loads (encode x))) members) [] [])
    as Hfold.
  cbn [app] in Hfold. rewrite <- Hfold; [| done |].
  - f_equal. rewrite map_map. apply List.map_ext. by intros [k x].
  - rewrite map_map. erewrite List.map_ext; [exact Hkeys |]. by intros [k x].
Qed.

(** A value built from what JSON has is a value the encoder does not
    refuse, and it is decoded to itself. *)
Lemma native_encodable (v : pyval) : json_native v = true -> encodable v = true.
Proof.
  induction v as [| b | n | repr | s | items IH | items IH | members IH | str |]
    using pyval_nested_ind; cbn; try done.
  - intros Hall. apply forallb_forall. intros x Hx. rewrite forallb_forall in Hall.
    eapply Forall_forall in IH; [| by apply list_elem_of_In]. by apply IH, Hall.
  - intros [Hkeys Hall]%andb_prop. apply forallb_forall. intros [k x] Hx.
    rewrite forallb_forall in Hall. specialize (Hall (k, x) Hx). cbn in Hall.
    eapply Forall_forall in IH; [| by apply list_elem_of_In]. cbn in IH.
    rewrite (IH Hall), andb_true_r.
    clear -Hkeys Hx. revert Hkeys. generalize (@nil string) as names.
    induction members as [| [k' x'] members IHm]; intros names; [done |].
    cbn. intros [Hnew Hrest]%andb_prop. destruct Hx as [[= -> ->] | Hx].
    + by destruct k.
    + by apply (IHm Hx _ Hrest).
Qed.

Lemma decoded_native (v : pyval) : json_native v = true -> decoded v = v.
Proof.
  induction v as [| b | n | repr | s | items IH | items IH | members IH | str |]
    using pyval_nested_ind; cbn; try done.
  - intros Hall. f_equal. rewrite <- (map_id items) at 2. apply List.map_ext_in.
    intros x Hx. rewrite forallb_forall in Hall.
    eapply Forall_forall in IH; [| by apply list_elem_of_In]. by apply IH, Hall.
  - intros [Hkeys Hall]%andb_prop. f_equal.
    assert (map (fun '(k, x) => (name_of k, decoded x)) members
            = map (fun '(k, x) => (name_of k, x)) members) as ->.
    { apply List.map_ext_in. intros [k x] Hx. rewrite forallb_forall in Hall.
      specialize (Hall (k, x) Hx). cbn in Hall.
      eapply Forall_forall in IH; [| by apply list_elem_of_In]. cbn in IH.
      by rewrite (IH Hall). }
    unfold dict_of. by rewrite (fold_assign members [] []).
Qed.

(** *** Writing and reading *)

(** The keyspace after a [cache_set] of a value the encoder does not
    refuse, with expiries the server accepts: the two keys are
    written. *)
Definition written (now : Z) (key : string) (v : pyval) (ttl : Z)
    (keys : gmap string entry) : gmap string entry :=
  match json_dumps v with
  | Returned document =>
      <[fresh_key key := {| value := JNumber 1; expires_at := now + ttl |}]>
        (<[key := {| value := document; expires_at := now + (ttl + CACHE_STALE_GRACE) |}]>
           keys)
  | Raises _ => keys
  end.

Lemma written_value (now : Z) (key : string) (v : pyval) (document : json) (ttl : Z)
    (keys : gmap string entry) :
  json_dumps v = Returned document ->
  written now key v ttl keys !! key
  = Some {| value := document; expires_at := now + (ttl + CACHE_STALE_GRACE) |}.
Proof.
  intros Hv. unfold written. rewrite Hv, lookup_insert_ne by apply fresh_key_ne.
  by rewrite lookup_insert_eq.
Qed.

Lemma written_sentinel (now : Z) (key : string) (v : pyval) (document : json) (ttl : Z)
    (keys : gmap string entry) :
  json_dumps v = Returned document ->
  written now key v ttl keys !! fresh_key key
  = Some {| value := JNumber 1; expires_at := now + ttl |}.
Proof. intros Hv. unfold written. by rewrite Hv, lookup_insert_eq. Qed.

Lemma cache_get_serving (now : Z) (key : string) (keys : gmap string entry) :
  cache_get now key (serving keys)
  = Returned match GET now key keys with
             | None => (PNone, false)
             | Some raw => (json_loads raw, negb (EXISTS now (fresh_key key) keys))
             end.
Proof. unfold cache_get, serving. cbn. by destruct (GET now key keys). Qed.

(** What [cache_get] answers [elapsed] seconds after a [cache_set] with
    [ttl], for a value that reads back as [v]. *)
Definition answer (v : pyval) (ttl elapsed : Z) : pyval * bool :=
  if elapsed <? ttl then (v, false)
  else if elapsed <? ttl + CACHE_STALE_GRACE then (v, true)
  else (PNone, false).

(** [cache_get] after a [cache_set] of the key, [elapsed] seconds before. *)
Lemma cache_get_written (now elapsed ttl : Z) (key : string) (v : pyval) (document : json)
    (keys : gmap string entry) :
  json_dumps v = Returned document ->
  cache_get (now + elapsed) key (serving (written now key v ttl keys))
  = Returned (answer (json_loads document) ttl elapsed).
Proof.
  intros Hv. rewrite cache_get_serving. unfold EXISTS, GET, answer.
  rewrite (written_value _ _ _ _ _ _ Hv), (written_sentinel _ _ _ _ _ _ Hv).
  cbn [value expires_at]. unfold CACHE_STALE_GRACE.
  destruct (Z.ltb_spec (now + elapsed) (now + (ttl + 60)));
    destruct (Z.ltb_spec (now + elapsed) (now + ttl));
    destruct (Z.ltb_spec elapsed ttl);
    destruct (Z.ltb_spec elapsed (ttl + 60)); try lia; done.
Qed.

(** A keyspace in which [key] holds the document [null], as
    [cache_set(key, None, ttl)] leaves it once the sentinel has expired. *)
Definition holding_null (key : string) (expiry : Z) : gmap string entry :=
  {[ key := {| value := JNull; expires_at := expiry |} ]}.

Section Store.
Context `{RedisServer}.

(** The time to live of the application's entries, and that of their
    values, are accepted by every server. *)
Lemma accepts_ttl (now ttl : Z) :
  0 < ttl <= CACHE_TTL_COLD ->
  accepts_expiry now ttl = true /\ accepts_expiry now (ttl + CACHE_STALE_GRACE) = true.
Proof.
  unfold CACHE_TTL_COLD, CACHE_STALE_GRACE. intros Httl.
  split; apply accepts_seconds; unfold EXPIRE_SURE; lia.
Qed.

Lemma cache_set_serving (now : Z) (key : string) (v : pyval) (document : json) (ttl : Z)
    (keys : gmap string entry) :
  json_dumps v = Returned document ->
  accepts_expiry now ttl = true ->
  accepts_expiry now (ttl + CACHE_STALE_GRACE) = true ->
  cache_set now key v ttl (serving keys) = Returned (serving (written now key v ttl keys)).
Proof.
  intros Hv Httl Hstale. unfold cache_set, written, serving. cbn. rewrite Hv. cbn.
  unfold SETEX. by rewrite Hstale, Httl.
Qed.

(** What [json.dumps] raises, [cache_set] raises, whatever the store. *)
Lemma cache_set_refused (now : Z) (key : string) (v : pyval) (ttl : Z) (s : server)
    (e : exn) :
  json_dumps v = Raises e ->
  cache_set now key v ttl {| pool_initialized := true; backend := s |} = Raises e.
Proof.
  intros Hv. pose proof (json_dumps_raised v e Hv) as Herr.
  unfold cache_set. cbn. rewrite Hv. cbn. by destruct Herr as [[d ->] | [d ->]].
Qed.

(** With an expiry that is not positive the sentinel is not written:
    what the key of the sentinel held stays. *)
Lemma cache_set_nonpositive (now : Z) (key : string) (v : pyval) (document : json)
    (ttl : Z) (keys : gmap string entry) :
  json_dumps v = Returned document ->
  ttl <= 0 ->
  exists keys',
    cache_set now key v ttl (serving keys) = Returned (serving keys')
    /\ keys' !! fresh_key key = keys !! fresh_key key
    /\ (ttl + CACHE_STALE_GRACE <= 0 -> keys' = keys).
Proof.
  intros Hv Httl. unfold cache_set, serving. cbn. rewrite Hv. cbn. unfold SETEX.
  rewrite (refuses_nonpositive now ttl Httl).
  destruct (accepts_expiry now (ttl + CACHE_STALE_GRACE)) eqn:Hstale; eexists;
    (split; [reflexivity |]); (split; [| intros Hle]); try done.
  - rewrite lookup_insert_ne; [done |]. apply not_eq_sym, fresh_key_ne.
  - by rewrite (refuses_nonpositive now _ Hle) in Hstale.
Qed.

(** C2 as amended.  On a reachable store, for a value [json.dumps]
    encodes and a [ttl] the server accepts as an expiry, as it does
    [ttl + CACHE_STALE_GRACE]: [cache_set(k, v, ttl)] at time [now]
    writes the encoded value under [k] with expiry
    [ttl + CACHE_STALE_GRACE] and the sentinel under [k:fresh] with
    expiry [ttl]; [cache_get(k)], [elapsed] seconds later, returns the
    value decoded from that encoding: fresh while [elapsed < ttl], stale
    from [ttl] up to [ttl + CACHE_STALE_GRACE], and a miss from then on.
    The decoded value is [v] with its tuples turned into lists, its dict
    keys into their member names and the objects the encoder does not
    know into their [str()]: [v] itself when [v] is built from what JSON
    has.  The expiries are accepted for every [ttl] from 1 to
    [EXPIRE_SURE - CACHE_STALE_GRACE]; a [ttl] below 1 is refused, and
    what the sentinel key held stays.  What [json.dumps] raises is
    raised by [cache_set]. *)
Theorem cache_set_then_get :
  forall (keys : gmap string entry) (key : string) (v : pyval) (document : json)
         (ttl now elapsed : Z),
    json_dumps v = Returned document ->
    accepts_expiry now ttl = true ->
    accepts_expiry now (ttl + CACHE_STALE_GRACE) = true ->
    0 <= elapsed ->
    cache_set now key v ttl (serving keys) = Returned (serving (written now key v ttl keys))
    /\ written now key v ttl keys !! key
       = Some {| value := document; expires_at := now + (ttl + CACHE_STALE_GRACE) |}
    /\ written now key v ttl keys !! fresh_key key
       = Some {| value := JNumber 1; expires_at := now + ttl |}
    /\ cache_get (now + elapsed) key (serving (written now key v ttl keys))
       = Returned (answer (decoded v) ttl elapsed)
    /\ json_loads document = decoded v
    /\ (json_native v = true -> decoded v = v)
    /\ (forall ttl' : Z,
          (0 < ttl' <= EXPIRE_SURE - CACHE_STALE_GRACE ->
           accepts_expiry now ttl' = true
           /\ accepts_expiry now (ttl' + CACHE_STALE_GRACE) = true)
          /\ (ttl' <= 0 ->
              exists keys',
                cache_set now key v ttl' (serving keys) = Returned (serving keys')
                /\ keys' !! fresh_key key = keys !! fresh_key key))
    /\ (forall (v' : pyval) (e : exn),
          json_dumps v' = Raises e ->
          cache_set now key v' ttl (serving keys) = Raises e).
Proof.
  intros keys key v document ttl now elapsed Hv Httl Hstale Hpos.
  assert (json_loads document = decoded v) as Hdecoded.
  { apply json_dumps_returned in Hv as [Hplain ->]. by apply json_loads_encode. }
  split; [by apply (cache_set_serving now key v document) |].
  split; [by apply written_value |].
  split; [by apply (written_sentinel now key v document) |].
  split; [by rewrite (cache_get_written now elapsed ttl key v document), Hdecoded |].
  split; [done |].
  split; [apply decoded_native |].
  split.
  - intros ttl'. split.
    + unfold CACHE_STALE_GRACE. intros Hrange.
      split; apply accepts_seconds; unfold EXPIRE_SURE in *; lia.
    + intros Hle.
      destruct (cache_set_nonpositive now key v document ttl' keys Hv Hle)
        as (keys' & Hset & Hsentinel & _).
      by exists keys'.
  - intros v' e Hv'. by apply cache_set_refused.
Qed.

(** C9 as amended.  With an initialised pool and a backend that raises
    a [RedisError] on every command, whatever the error, no cache
    operation raises it: [cache_get] answers a miss that is not stale,
    [cache_set] (of a value the encoder does not refuse) and
    [cache_delete] return leaving the store as it is, and
    [invalidate_pattern] returns 0; of a value the encoder refuses
    [cache_set] raises the encoder's [TypeError] or [ValueError].  With
    no pool, whatever the backend and whatever the value, each of the
    four raises the [CacheError] of [get_redis]. *)
Theorem cache_operations_absorb_redis_errors :
  forall (now : Z) (key pattern : string) (v : pyval) (ttl : Z) (detail : string)
         (s : server),
    (cache_get now key (failing detail) = Returned (PNone, false)
     /\ (forall document : json,
           json_dumps v = Returned document ->
           cache_set now key v ttl (failing detail) = Returned (failing detail))
     /\ (forall e : exn,
           json_dumps v = Raises e ->
           cache_set now key v ttl (failing detail) = Raises e
           /\ ((exists d : string, e = TypeError d) \/ (exists d : string, e = ValueError d)))
     /\ cache_delete key (failing detail) = Returned (failing detail)
     /\ invalidate_pattern now pattern (failing detail) = Returned (0, failing detail))
    /\ (cache_get now key (uninitialised s) = Raises NOT_INITIALISED
        /\ cache_set now key v ttl (uninitialised s) = Raises NOT_INITIALISED
        /\ cache_delete key (uninitialised s) = Raises NOT_INITIALISED
        /\ invalidate_pattern now pattern (uninitialised s) = Raises NOT_INITIALISED).
Proof.
  intros. repeat split; try reflexivity.
  - intros document Hv. unfold cache_set, failing. cbn. by rewrite Hv.
  - by apply cache_set_refused.
  - by apply (json_dumps_raised v).
Qed.

(** C10 (what the code does).  When the value key holds [null] and the
    sentinel is gone, [cache_get] returns [None] with the stale flag
    set; [cache_set(key, None, ttl)], with a [ttl] the server accepts,
    leaves the store in that state from [ttl] seconds on, until the
    value key expires. *)
Theorem cache_get_stale_miss :
  forall (keys : gmap string entry) (key : string) (now ttl elapsed expiry : Z),
    accepts_expiry now ttl = true ->
    accepts_expiry now (ttl + CACHE_STALE_GRACE) = true ->
    ttl <= elapsed -> elapsed < ttl + CACHE_STALE_GRACE -> now < expiry ->
    cache_get now key (serving (holding_null key expiry)) = Returned (PNone, true)
    /\ cache_set now key PNone ttl (serving keys)
       = Returned (serving (written now key PNone ttl keys))
    /\ cache_get (now + elapsed) key (serving (written now key PNone ttl keys))
       = Returned (PNone, true).
Proof.
  intros keys key now ttl elapsed expiry Httl Hstale Hge Hlt Hlive. split; [| split].
  - rewrite cache_get_serving. unfold EXISTS, GET, holding_null.
    rewrite lookup_singleton_eq, lookup_singleton_ne by (apply not_eq_sym, fresh_key_ne).
    cbn [value expires_at]. destruct (Z.ltb_spec now expiry); [done | lia].
  - by apply (cache_set_serving now key PNone JNull).
  - rewrite (cache_get_written now elapsed ttl key PNone JNull) by done. unfold answer.
    destruct (Z.ltb_spec elapsed ttl); [lia |].
    by destruct (Z.ltb_spec elapsed (ttl + CACHE_STALE_GRACE)); [| lia].
Qed.

Lemma scanned_lookup (now : Z) (pattern key : string) (keys : gmap string entry) :
  scanned now pattern keys !! key =
    match keys !! key with
    | Some e => if matches pattern key && (now <? expires_at e) then Some e else None
    | None => None
    end.
Proof.
  unfold scanned. destruct (keys !! key) as [e |] eqn:He.
  - destruct (matches pattern key && (now <? expires_at e)) eqn:Hm.
    + apply andb_prop in Hm as [Hm Hlive]. apply Z.ltb_lt in Hlive.
      apply map_lookup_filter_Some. done.
    + apply map_lookup_filter_None. right. intros e' He' [Hm' Hlive]. cbn in *.
      assert (e' = e) as -> by congruence.
      apply Z.ltb_lt in Hlive. by rewrite Hm', Hlive in Hm.
  - apply map_lookup_filter_None. by left.
Qed.

(** X5.  On a reachable store [invalidate_pattern] returns the number of
    live keys that the server matches with the pattern, whatever the
    pattern and whatever its way of matching; afterwards no key that
    matches the pattern can be read, and every key that does not match
    is as it was. *)
Theorem invalidate_pattern_removes_matching_keys :
  forall (now : Z) (pattern : string) (keys : gmap string entry),
    invalidate_pattern now pattern (serving keys)
    = Returned (Z.of_nat (size (scanned now pattern keys)),
                serving (keys ∖ scanned now pattern keys))
    /\ (forall key : string,
           (if matches pattern key
            then GET now key (keys ∖ scanned now pattern keys) = None
            else (keys ∖ scanned now pattern keys) !! key = keys !! key)).
Proof.
  intros now pattern keys. split; [reflexivity |].
  intros key. unfold GET. rewrite lookup_difference, scanned_lookup.
  destruct (matches pattern key); cbn.
  - destruct (keys !! key) as [e |]; [| done].
    by destruct (now <? expires_at e) eqn:Hlive; [| rewrite Hlive].
  - by destruct (keys !! key).
Qed.

End Store.

(** *** A server for closed examples *)

(** Patterns with [*], [?] and literal characters. *)
Fixpoint glob (pattern : list ascii) (s : list ascii) : bool :=
  match pattern with
  | [] => match s with [] => true | _ => false end
  | p :: pattern' =>
      if Ascii.eqb p "*"%char then
        (fix star (s : list ascii) : bool :=
           glob pattern' s || match s with [] => false | _ :: s' => star s' end) s
      else
        match s with
        | [] => false
        | c :: s' => (Ascii.eqb p "?"%char || Ascii.eqb p c) && glob pattern' s'
        end
  end.

Lemma glob_star (s : list ascii) : glob ["*"%char] s = true.
Proof. induction s as [| x s IH]; [done |]. cbn in *. by rewrite IH. Qed.

Lemma glob_literal_prefix (prefix key : string) :
  literal prefix = true ->
  glob (list_ascii_of_string (prefix +:+ "*")) (list_ascii_of_string key)
  = String.prefix prefix key.
Proof.
  unfold literal. revert key. induction prefix as [| c prefix IH]; intros key.
  - intros _. change (glob ["*"%char] (list_ascii_of_string key) = String.prefix "" key).
    rewrite glob_star. by destruct key.
  - change (String c prefix +:+ "*") with (String c (prefix +:+ "*")).
    cbn [list_ascii_of_string forallb]. intros [Hc Hrest]%andb_prop.
    apply negb_true_iff in Hc. unfold special in Hc.
    apply orb_false_elim in Hc as [Hc _]. apply orb_false_elim in Hc as [Hc _].
    apply orb_false_elim in Hc as [Hstar Hany].
    destruct key as [| k key]; cbn [glob list_ascii_of_string String.prefix];
      rewrite Hstar; [done |].
    rewrite Hany, (IH key Hrest). cbn [orb].
    destruct (Ascii.eqb_spec c k) as [-> | Hne]; destruct (ascii_dec _ _); done.
Qed.

Lemma positive_refuses (now ttl : Z) : ttl <= 0 -> (0 <? ttl) = false.
Proof. intros Hle. by apply Z.ltb_ge. Qed.

Lemma positive_accepts (now ttl : Z) : 0 < ttl <= EXPIRE_SURE -> (0 <? ttl) = true.
Proof. intros [Hpos _]. by apply Z.ltb_lt. Qed.

(** A server that knows [*] and [?] only and accepts every positive
    expiry.  The results above hold for every other. *)
Definition plain_server : RedisServer :=
  {| matches := fun pattern key =>
       glob (list_ascii_of_string pattern) (list_ascii_of_string key);
     accepts_expiry := fun _ ttl => 0 <? ttl;
     matches_literal_prefix := glob_literal_prefix;
     refuses_nonpositive := positive_refuses;
     accepts_seconds := positive_accepts |}.

Lemma cache_set_then_get_witness :
  cache_get (1000 + 30) "agg:v2:k" (serving (written 1000 "agg:v2:k" (PInt 7) 300 ∅))
    = Returned (PInt 7, false)
  /\ cache_get (1000 + 300) "agg:v2:k" (serving (written 1000 "agg:v2:k" (PInt 7) 300 ∅))
     = Returned (PInt 7, true)
  /\ cache_get (1000 + 360) "agg:v2:k" (serving (written 1000 "agg:v2:k" (PInt 7) 300 ∅))
     = Returned (PNone, false).
Proof.
  split; [| split].
  - exact (proj1 (proj2 (proj2 (proj2
      (@cache_set_then_get plain_server ∅ "agg:v2:k" (PInt 7) (JNumber 7) 300 1000 30
         eq_refl eq_refl eq_refl ltac:(lia)))))).
  - exact (proj1 (proj2 (proj2 (proj2
      (@cache_set_then_get plain_server ∅ "agg:v2:k" (PInt 7) (JNumber 7) 300 1000 300
         eq_refl eq_refl eq_refl ltac:(lia)))))).
  - exact (proj1 (proj2 (proj2 (proj2
      (@cache_set_then_get plain_server ∅ "agg:v2:k" (PInt 7) (JNumber 7) 300 1000 360
         eq_refl eq_refl eq_refl ltac:(lia)))))).
Defined.

(** An object the JSON encoder does not know: a datetime, by its [str()]. *)
Definition a_datetime : pyval := PObject "2024-01-01 00:00:00+00:00".

(** C2 as stated fails.  (1) A cached datetime is read back as a
    string, a tuple as a list and a dict with an integer key as one
    with a string key.  (2) With [ttl = 0] the server refuses the
    expiry of the sentinel: the value is written and the sentinel an
    earlier [cache_set] left stays, so that the entry reads as fresh
    although [ttl] seconds have elapsed; with [ttl = -60] nothing is
    written and the earlier value is read.  (3) A dict with a tuple as
    a key makes [cache_set] raise a [TypeError], a list that contains
    itself a [ValueError].  (4) On a store that cannot be reached
    [cache_set] writes nothing, so that the next [cache_get] answers a
    miss. *)
Lemma cache_get_returns_the_decoded_value :
  (@cache_set plain_server 1000 "agg:v2:k" a_datetime 300 (serving ∅)
     = Returned (serving (written 1000 "agg:v2:k" a_datetime 300 ∅))
   /\ cache_get 1000 "agg:v2:k" (serving (written 1000 "agg:v2:k" a_datetime 300 ∅))
      = Returned (PStr "2024-01-01 00:00:00+00:00", false)
   /\ cache_get 1000 "agg:v2:k" (serving (written 1000 "agg:v2:k" a_datetime 300 ∅))
      <> Returned (a_datetime, false)
   /\ cache_get 1000 "agg:v2:k"
        (serving (written 1000 "agg:v2:k" (PTuple [PInt 1; PFloat "2.5"]) 300 ∅))
      = Returned (PList [PInt 1; PFloat "2.5"], false)
   /\ cache_get 1000 "agg:v2:k"
        (serving (written 1000 "agg:v2:k"
                    (PDict [(KInt 1, PStr "a"); (KStr "1", PStr "b")]) 300 ∅))
      = Returned (PDict [(KStr "1", PStr "b")], false))
  /\ (@cache_set plain_server 1010 "agg:v2:k" (PInt 8) 0
        (serving (written 1000 "agg:v2:k" (PInt 7) 300 ∅))
      = Returned (serving (<["agg:v2:k" := {| value := JNumber 8; expires_at := 1070 |}]>
                             (written 1000 "agg:v2:k" (PInt 7) 300 ∅)))
      /\ cache_get 1010 "agg:v2:k"
           (serving (<["agg:v2:k" := {| value := JNumber 8; expires_at := 1070 |}]>
                       (written 1000 "agg:v2:k" (PInt 7) 300 ∅)))
         = Returned (PInt 8, false)
      /\ @cache_set plain_server 1010 "agg:v2:k" (PInt 8) (-60)
           (serving (written 1000 "agg:v2:k" (PInt 7) 300 ∅))
         = Returned (serving (written 1000 "agg:v2:k" (PInt 7) 300 ∅))
      /\ cache_get 1010 "agg:v2:k" (serving (written 1000 "agg:v2:k" (PInt 7) 300 ∅))
         = Returned (PInt 7, false))
  /\ (@cache_set plain_server 1000 "agg:v2:k" (PDict [(KOther "tuple", PInt 1)]) 300
        (serving ∅)
      = Raises (TypeError "keys must be str, int, float, bool or None, not tuple")
      /\ @cache_set plain_server 1000 "agg:v2:k" (PList [PInt 1; PCircular]) 300 (serving ∅)
         = Raises (ValueError "Circular reference detected"))
  /\ (@cache_set plain_server 1000 "agg:v2:k" (PInt 7) 300 (failing "Connection refused")
      = Returned (failing "Connection refused")
      /\ cache_get 1000 "agg:v2:k" (failing "Connection refused") = Returned (PNone, false)).
Proof.
  split; [| split; [| split]].
  - split; [reflexivity |]. split; [vm_compute; reflexivity |].
    split; [vm_compute; discriminate |]. split; vm_compute; reflexivity.
  - repeat split; vm_compute; reflexivity.
  - split; reflexivity.
  - split; reflexivity.
Qed.

(** C9 as stated fails: with no pool, [cache_get] raises [CacheError]
    (which is not a [RedisError]) instead of answering a miss, and so
    do the other three operations. *)
Lemma cache_operations_raise_without_pool :
  cache_get 0 "agg:v2:k" (uninitialised (Serving ∅)) = Raises NOT_INITIALISED
  /\ cache_get 0 "agg:v2:k" (uninitialised (Serving ∅)) <> Returned (PNone, false)
  /\ @cache_set plain_server 0 "agg:v2:k" PNone 300 (uninitialised (Serving ∅))
     = Raises NOT_INITIALISED
  /\ cache_delete "agg:v2:k" (uninitialised (Serving ∅)) = Raises NOT_INITIALISED
  /\ @invalidate_pattern plain_server 0 "agg:v2:*" (uninitialised (Serving ∅))
     = Raises NOT_INITIALISED.
Proof. repeat split; try reflexivity. discriminate. Qed.

Lemma cache_operations_absorb_redis_errors_witness :
  @cache_set plain_server 1000 "agg:v2:k" (PList [PInt 7; a_datetime]) 300
    (failing "Connection refused")
  = Returned (failing "Connection refused").
Proof.
  refine (proj1 (proj2 (proj1
    (@cache_operations_absorb_redis_errors plain_server 1000 "agg:v2:k" "agg:v2:*"
       (PList [PInt 7; a_datetime]) 300 "Connection refused" (Serving ∅))))
    (JArray [JNumber 7; JString "2024-01-01 00:00:00+00:00"]) _).
  reflexivity.
Defined.

Lemma cache_get_stale_miss_witness :
  cache_get (1000 + 30) "agg:v2:k" (serving (written 1000 "agg:v2:k" PNone 30 ∅))
  = Returned (PNone, true).
Proof.
  refine (proj2 (proj2
    (@cache_get_stale_miss plain_server ∅ "agg:v2:k" 1000 30 30 1001 _ _ _ _ _)));
    try reflexivity; unfold CACHE_STALE_GRACE; lia.
Defined.

End CacheProofs.

(** ** Reconciliation *)

Module RecordsProofs.
Import Py Upstream Records.

(** [{"id": i, "payload": p}] and [{"payload": p}]. *)
Definition item (i : Z) (p : string) : record :=
  RObject {| obj_id := Some i; obj_fields := [("payload", p)] |}.

Definition anonymous (p : string) : record :=
  RObject {| obj_id := None; obj_fields := [("payload", p)] |}.

(** Running [upsert_source] on given records: the comparisons of ids
    are evaluated, those of the source key with itself rewritten. *)
Ltac run_upsert :=
  repeat (progress
    (cbn; unfold visit, keyed, of_source, flush; cbn; rewrite ?String.eqb_refl;
     repeat match goal with
            | |- context [?a <=? ?b] =>
                let v := eval vm_compute in (a <=? b) in
                progress change (a <=? b) with v
            end)).

Section Reconciliation.
Context `{Hashlib}.

(** The row [upsert_source] stores for a fetched record. *)
Definition stored (key url : string) (r : record) : DataRecord :=
  {| source_key := key; source_url := url; external_id := get_id r;
     payload := r; checksum := Some (if is_dict r then _checksum r else "") |}.

(** C8.  With rows for ids 1 ("A") and 2 ("B") stored under a source key
    and a fetch of [{id 1, "A"}, {id 3, "C"}], [upsert_source] returns
    [(2, 1)] and leaves exactly the untouched row of id 1 and a new row
    for id 3: id 2 is deleted, and the one change counted is the insert. *)
Theorem upsert_source_example :
  forall key url : string,
    upsert_source key url [item 1 "A"; item 3 "C"]
      [stored key url (item 1 "A"); stored key url (item 2 "B")]
    = Returned (2, 1, [stored key url (item 1 "A"); stored key url (item 3 "C")]).
Proof.
  intros key url. unfold upsert_source, stored.
  run_upsert.
  reflexivity.
Qed.

(** A stored row without external id survives a fetch that does not
    contain it, and a fetched record without id is stored once more
    beside the row an earlier fetch of it left. *)
Example upsert_source_without_id :
  forall key url : string,
    upsert_source key url [item 1 "A"] [stored key url (anonymous "P")]
    = Returned (1, 1, [stored key url (anonymous "P"); stored key url (item 1 "A")])
    /\ upsert_source key url [anonymous "P"] [stored key url (anonymous "P")]
       = Returned (1, 1, [stored key url (anonymous "P"); stored key url (anonymous "P")]).
Proof.
  intros key url. unfold upsert_source, stored. split.
  - run_upsert.
    reflexivity.
  - run_upsert.
    reflexivity.
Qed.

(** *** Keys of rows *)

Lemma same_id_eq (a b : option Z) : same_id a b = true <-> a = b.
Proof.
  destruct a as [x |], b as [y |]; cbn; try (split; congruence).
  rewrite Z.eqb_eq. split; congruence.
Qed.

Lemma same_id_refl (a : option Z) : same_id a a = true.
Proof. by apply same_id_eq. Qed.

Lemma same_id_neq (a b : option Z) : same_id a b = false <-> a <> b.
Proof.
  rewrite <- same_id_eq. destruct (same_id a b); split; congruence.
Qed.

Lemma member_In (eid : option Z) (ids : list (option Z)) :
  member eid ids = true <-> In eid ids.
Proof.
  unfold member. rewrite existsb_exists. split.
  - intros (x & Hin & Heq). apply same_id_eq in Heq. by subst.
  - intros Hin. exists eid. split; [done | apply same_id_refl].
Qed.


Lemma of_source_eq (key : string) (row : DataRecord) :
  of_source key row = true <-> source_key row = key.
Proof. unfold of_source. apply String.eqb_eq. Qed.

Lemma keyed_spec (key : string) (eid : option Z) (row : DataRecord) :
  keyed key eid row = true <-> source_key row = key /\ external_id row = eid.
Proof.
  unfold keyed. rewrite andb_true_iff, of_source_eq, same_id_eq. done.
Qed.


(** A change of a row that keeps its source key and external id. *)
Definition keeps_key (f : DataRecord -> DataRecord) : Prop :=
  forall row, source_key (f row) = source_key row /\ external_id (f row) = external_id row.


(** *** The dictionary [existing] *)


Lemma existing_get_none (key : string) (eid : option Z) (rows : list DataRecord) :
  existing_get key eid rows = None <-> existsb (keyed key eid) rows = false.
Proof.
  induction rows as [| r rest IH]; cbn; [done |].
  destruct (existing_get key eid rest) as [found |].
  - split; [done |]. intros [_ Hrest]%orb_false_elim. apply IH in Hrest. done.
  - destruct (keyed key eid r); cbn; [done |]. split; [intros _; by apply IH | done].
Qed.





(** The (source key, external id) pairs of a table, in order. *)
Definition keys_of (rows : list DataRecord) : list (string * option Z) :=
  map (fun row => (source_key row, external_id row)) rows.

Lemma existing_set_keys (key : string) (eid : option Z) (f : DataRecord -> DataRecord)
    (rows : list DataRecord) :
  keeps_key f -> keys_of (existing_set key eid f rows) = keys_of rows.
Proof.
  intros Hf. unfold keys_of. induction rows as [| r rest IH]; cbn; [done |].
  destruct (existing_get key eid rest); cbn; [by rewrite IH |].
  destruct (keyed key eid r); cbn; [| done].
  destruct (Hf r) as [-> ->]. done.
Qed.

Lemma existsb_keyed_keys (key : string) (eid : option Z) (rows rows' : list DataRecord) :
  keys_of rows = keys_of rows' ->
  existsb (keyed key eid) rows = existsb (keyed key eid) rows'.
Proof.
  unfold keys_of. revert rows'.
  induction rows as [| r rest IH]; intros [| r' rest']; cbn; try done.
  intros [= Hk He Hrest]. rewrite (IH rest' Hrest). f_equal.
  unfold keyed, of_source. by rewrite Hk, He.
Qed.


(** An assignment to a row of [key] leaves the rows of other sources. *)
Lemma existing_set_other (key key' : string) (eid : option Z)
    (f : DataRecord -> DataRecord) (rows : list DataRecord) :
  keeps_key f -> key' <> key ->
  List.filter (of_source key') (existing_set key eid f rows)
  = List.filter (of_source key') rows.
Proof.
  intros Hf Hne. induction rows as [| r rest IH]; cbn; [done |].
  destruct (existing_get key eid rest); cbn; [by rewrite IH |].
  destruct (keyed key eid r) eqn:Hk; cbn; [| done].
  apply keyed_spec in Hk as [Hk _].
  unfold of_source. destruct (Hf r) as [-> _]. rewrite Hk.
  destruct (String.eqb_spec key key'); [congruence | done].
Qed.

(** *** The loop over the fetched records *)

(** The checksum [visit] computes for a record. *)
Definition sum_of (r : record) : string := if is_dict r then _checksum r else "".

(** The assignment [visit] makes to an existing row. *)
Definition refreshed (r : record) (row : DataRecord) : DataRecord :=
  {| source_key := source_key row; source_url := source_url row;
     external_id := external_id row; payload := r; checksum := Some (sum_of r) |}.

Lemma refreshed_keeps_key (r : record) : keeps_key (refreshed r).
Proof. intros row. done. Qed.

(** Whether [visit] finds the record's id in [existing]. *)
Definition hit (key : string) (rows : list DataRecord) (r : record) : bool :=
  opt_int_truthy (get_id r) && existsb (keyed key (get_id r)) rows.

Lemma visit_eq (key url : string) (st : loop_state) (r : record) :
  visit key url st r =
    match (if opt_int_truthy (get_id r)
           then existing_get key (get_id r) (session st) else None) with
    | Some row =>
        if same_sum (checksum row) (sum_of r) then st
        else {| session := existing_set key (get_id r) (refreshed r) (session st);
                to_insert := to_insert st;
                changed := changed st + 1 |}
    | None =>
        {| session := session st;
           to_insert := to_insert st ++ [stored key url r];
           changed := changed st + 1 |}
    end.
Proof. reflexivity. Qed.

Lemma lookup_hit (key : string) (rows : list DataRecord) (r : record) :
  (if opt_int_truthy (get_id r) then existing_get key (get_id r) rows else None) = None
  <-> hit key rows r = false.
Proof.
  unfold hit. destruct (opt_int_truthy (get_id r)); cbn; [| done].
  apply existing_get_none.
Qed.

Lemma visit_keys (key url : string) (st : loop_state) (r : record) :
  keys_of (session (visit key url st r)) = keys_of (session st).
Proof.
  rewrite visit_eq.
  destruct (if opt_int_truthy (get_id r) then _ else _) as [row |]; [| done].
  destruct (same_sum (checksum row) (sum_of r)); [done |]. cbn.
  apply existing_set_keys, refreshed_keeps_key.
Qed.

Lemma loop_keys (key url : string) (recs : list record) (st : loop_state) :
  keys_of (session (fold_left (visit key url) recs st)) = keys_of (session st).
Proof.
  revert st. induction recs as [| r rest IH]; intros st; cbn; [done |].
  by rewrite IH, visit_keys.
Qed.

Lemma hit_keys (key : string) (rows rows' : list DataRecord) (r : record) :
  keys_of rows = keys_of rows' -> hit key rows r = hit key rows' r.
Proof. intros Hk. unfold hit. by rewrite (existsb_keyed_keys _ _ _ _ Hk). Qed.

Lemma visit_to_insert (key url : string) (st : loop_state) (r : record) :
  to_insert (visit key url st r) =
    to_insert st ++ (if hit key (session st) r then [] else [stored key url r]).
Proof.
  rewrite visit_eq.
  destruct (if opt_int_truthy (get_id r) then _ else _) as [row |] eqn:Hlook.
  - assert (hit key (session st) r = true) as ->.
    { destruct (hit key (session st) r) eqn:Hh; [done |].
      apply lookup_hit in Hh. congruence. }
    rewrite app_nil_r. by destruct (same_sum (checksum row) (sum_of r)).
  - apply lookup_hit in Hlook. by rewrite Hlook.
Qed.

(** The rows the loop leaves to insert: one per record whose id is not
    in [existing], in order. *)
Lemma loop_to_insert (key url : string) (recs : list record) (st : loop_state) :
  to_insert (fold_left (visit key url) recs st) =
    to_insert st ++
      map (stored key url) (List.filter (fun r => negb (hit key (session st) r)) recs).
Proof.
  revert st. induction recs as [| r rest IH]; intros st; cbn [fold_left List.filter map].
  - by rewrite app_nil_r.
  - rewrite IH, visit_to_insert, <- app_assoc. f_equal.
    rewrite (List.filter_ext _ (fun r => negb (hit key (session st) r)));
      [| intros x; f_equal; apply hit_keys, visit_keys].
    by destruct (hit key (session st) r).
Qed.

(** The rows of other sources are not touched by the loop. *)
Lemma loop_other (key key' url : string) (recs : list record) (st : loop_state) :
  key' <> key ->
  List.filter (of_source key') (session (fold_left (visit key url) recs st))
  = List.filter (of_source key') (session st).
Proof.
  intros Hne. revert st. induction recs as [| r rest IH]; intros st; cbn; [done |].
  rewrite IH, visit_eq.
  destruct (if opt_int_truthy (get_id r) then _ else _) as [row |]; [| done].
  destruct (same_sum (checksum row) (sum_of r)); [done |]. cbn.
  by apply existing_set_other; [apply refreshed_keeps_key |].
Qed.








(** *** Flushing and pruning *)

(** The external ids a fetch carries. *)
Fixpoint ids_of (recs : list record) : list Z :=
  match recs with
  | [] => []
  | r :: rest =>
      match get_id r with
      | Some z => z :: ids_of rest
      | None => ids_of rest
      end
  end.

Lemma In_ids_of (z : Z) (recs : list record) :
  In z (ids_of recs) <-> exists r, In r recs /\ get_id r = Some z.
Proof.
  induction recs as [| r rest IH]; cbn.
  - split; [done | by intros (? & [] & _)].
  - destruct (get_id r) as [y |] eqn:Hr; cbn; rewrite IH; split.
    + intros [-> | (x & Hx & Hz)]; [by exists r; auto | exists x; auto].
    + intros (x & [-> | Hx] & Hz); [left; congruence | right; by exists x].
    + intros (x & Hx & Hz). exists x; auto.
    + intros (x & [-> | Hx] & Hz); [congruence | by exists x].
Qed.

Lemma NoDup_ids_filter (keep : record -> bool) (recs : list record) :
  List.NoDup (ids_of recs) -> List.NoDup (ids_of (List.filter keep recs)).
Proof.
  induction recs as [| r rest IH]; cbn; [done |].
  destruct (get_id r) as [z |] eqn:Hr.
  - intros [Hnotin Hnd]%List.NoDup_cons_iff.
    destruct (keep r); cbn; [| by apply IH]. rewrite Hr. constructor; [| by apply IH].
    rewrite In_ids_of. intros (x & [Hx _]%filter_In & Hz).
    apply Hnotin, In_ids_of. by exists x.
  - intros Hnd. destruct (keep r); cbn; [rewrite Hr |]; by apply IH.
Qed.

(** Distinct external ids, none of them 0. *)
Definition clean_ids (recs : list record) : Prop :=
  List.NoDup (ids_of recs) /\ ~ In 0 (ids_of recs).

(** Every external id fits the [external_id] column. *)
Definition ids_fit (recs : list record) : Prop :=
  Forall (fun r => fits_integer (get_id r) = true) recs.

Lemma ids_fit_filter (keep : record -> bool) (recs : list record) :
  ids_fit recs -> ids_fit (List.filter keep recs).
Proof.
  unfold ids_fit. induction recs as [| r rest IH]; cbn; [done |].
  intros [Hr Hrest]%Forall_cons. destruct (keep r); [constructor |]; auto.
Qed.

Lemma keyed_stored (key key' url : string) (eid : option Z) (r : record) :
  keyed key' eid (stored key url r) = String.eqb key key' && same_id (get_id r) eid.
Proof. reflexivity. Qed.

(** A flush of rows whose ids fit is their INSERTs. *)
Lemma flush_stored (key url : string) (rs : list record) (table : list DataRecord) :
  ids_fit rs ->
  flush (map (stored key url) rs) table = insert_all (map (stored key url) rs) table.
Proof.
  intros Hfit. unfold flush.
  assert (forallb (fun row => fits_integer (external_id row)) (map (stored key url) rs)
          = true) as ->; [| done].
  induction Hfit as [| r rest Hr _ IH]; cbn; [done |]. by rewrite Hr, IH.
Qed.

(** A flush that returns has run the INSERTs. *)
Lemma flush_inserts (pending table flushed : list DataRecord) :
  flush pending table = Returned flushed -> insert_all pending table = Returned flushed.
Proof. unfold flush. by destruct (forallb _ pending). Qed.

(** Pending rows with distinct ids that no stored row of the source
    carries are inserted without violating the unique index. *)
Lemma insert_all_stored (key url : string) (rs : list record) (table : list DataRecord) :
  (forall z, In z (ids_of rs) -> existsb (keyed key (Some z)) table = false) ->
  List.NoDup (ids_of rs) ->
  insert_all (map (stored key url) rs) table = Returned (table ++ map (stored key url) rs).
Proof.
  revert table. induction rs as [| r rest IH]; intros table Hfree Hnd; cbn.
  - by rewrite app_nil_r.
  - assert (violates_ix_source_ext (stored key url r) table = false) as ->.
    { unfold violates_ix_source_ext. cbn. destruct (get_id r) as [z |] eqn:Hr; [| done].
      apply Hfree. cbn. rewrite Hr. by left. }
    cbn in Hnd, Hfree. rewrite IH, <- app_assoc; [done | |].
    + intros z Hz. rewrite existsb_app. cbn. rewrite orb_false_r.
      apply orb_false_intro.
      * apply Hfree. destruct (get_id r); [by right | done].
      * rewrite keyed_stored. apply andb_false_intro2, same_id_neq.
        intros Hr. rewrite Hr in Hnd. apply List.NoDup_cons_iff in Hnd. tauto.
    + destruct (get_id r); [by apply List.NoDup_cons_iff in Hnd as [_ ?] | done].
Qed.

(** The list of stale ids [upsert_source] computes. *)
Definition stale_of (key : string) (recs : list record) (table : list DataRecord)
  : list (option Z) :=
  List.filter (fun eid => negb (member eid (incoming_ids recs)))
              (map external_id (List.filter (of_source key) table)).

Lemma filter_all {A} (keep : A -> bool) (l : list A) :
  (forall x, In x l -> keep x = true) -> List.filter keep l = l.
Proof.
  induction l as [| x rest IH]; cbn; [done |]. intros Hall.
  rewrite (Hall x) by auto. rewrite IH; auto.
Qed.

Lemma delete_stale_nil (key : string) (rows : list DataRecord) :
  delete_stale key [] rows = rows.
Proof.
  apply filter_all. intros row _. unfold sql_in. rewrite negb_true_iff.
  apply andb_false_intro2. by destruct (external_id row).
Qed.

Lemma In_delete_stale (key : string) (stale : list (option Z)) (rows : list DataRecord)
    (row : DataRecord) :
  In row (delete_stale key stale rows) <->
  In row rows /\ (of_source key row && sql_in (external_id row) stale = false).
Proof. unfold delete_stale. by rewrite filter_In, negb_true_iff. Qed.

(** A DELETE on one source leaves the rows of the others. *)
Lemma delete_stale_other (key key' : string) (stale : list (option Z))
    (rows : list DataRecord) :
  key' <> key ->
  List.filter (of_source key') (delete_stale key stale rows)
  = List.filter (of_source key') rows.
Proof.
  intros Hne. unfold delete_stale. induction rows as [| r rest IH]; cbn; [done |].
  destruct (of_source key' r) eqn:Hr'.
  - assert (of_source key r = false) as ->.
    { apply of_source_eq in Hr'. unfold of_source. rewrite Hr'.
      by destruct (String.eqb_spec key' key). }
    cbn. by rewrite Hr', IH.
  - destruct (negb _); cbn; [by rewrite Hr', IH | done].
Qed.

(** [upsert_source] in closed form, when the flush succeeds. *)
Lemma upsert_source_flushed (key url : string) (recs : list record)
    (table flushed : list DataRecord) :
  flush
    (to_insert (fold_left (visit key url) recs
                  {| session := table; to_insert := []; changed := 0 |}))
    (session (fold_left (visit key url) recs
                {| session := table; to_insert := []; changed := 0 |}))
  = Returned flushed ->
  upsert_source key url recs table =
    Returned (Z.of_nat (length recs),
              changed (fold_left (visit key url) recs
                         {| session := table; to_insert := []; changed := 0 |}),
              delete_stale key (stale_of key recs table) flushed).
Proof.
  intros Hflush. unfold upsert_source. rewrite Hflush. cbn. do 2 f_equal.
  unfold stale_of. destruct (List.filter (of_source key) table) as [| row rows].
  - cbn. by rewrite delete_stale_nil.
  - match goal with
    | |- context [delete_stale key ?stale flushed] => destruct stale
    end; [by rewrite delete_stale_nil | done].
Qed.

(** With distinct non-zero ids that fit the column the flush succeeds:
    the table becomes the session's rows, followed by a row per record
    whose id was not in [existing], less the stale rows. *)
Lemma upsert_source_clean (key url : string) (recs : list record)
    (table : list DataRecord) :
  clean_ids recs -> ids_fit recs ->
  upsert_source key url recs table =
    Returned (Z.of_nat (length recs),
              changed (fold_left (visit key url) recs
                         {| session := table; to_insert := []; changed := 0 |}),
              delete_stale key (stale_of key recs table)
                (session (fold_left (visit key url) recs
                            {| session := table; to_insert := []; changed := 0 |})
                 ++ map (stored key url)
                        (List.filter (fun r => negb (hit key table r)) recs))).
Proof.
  intros [Hnd Hzero] Hfit. apply upsert_source_flushed.
  rewrite loop_to_insert. cbn [to_insert session app].
  rewrite flush_stored by (by apply ids_fit_filter).
  apply insert_all_stored; [| by apply NoDup_ids_filter].
  intros z (r & [Hr Hmiss]%filter_In & Hz)%In_ids_of.
  rewrite (existsb_keyed_keys _ _ _ table) by apply loop_keys.
  apply negb_true_iff in Hmiss. unfold hit in Hmiss. rewrite Hz in Hmiss.
  assert (opt_int_truthy (Some z) = true) as Htruthy.
  { cbn. apply negb_true_iff, Z.eqb_neq. intros ->. apply Hzero, In_ids_of. by exists r. }
  by rewrite Htruthy in Hmiss.
Qed.

(** Reconciling one source leaves the rows of the others. *)
Lemma upsert_source_other (key key' url : string) (recs : list record)
    (table table' : list DataRecord) (fetched changed : Z) :
  key' <> key ->
  upsert_source key url recs table = Returned (fetched, changed, table') ->
  List.filter (of_source key') table' = List.filter (of_source key') table.
Proof.
  intros Hne Hup.
  destruct (flush
    (to_insert (fold_left (visit key url) recs
                  {| session := table; to_insert := []; changed := 0 |}))
    (session (fold_left (visit key url) recs
                {| session := table; to_insert := []; changed := 0 |}))) as [flushed | e]
    eqn:Hflush.
  - rewrite (upsert_source_flushed _ _ _ _ _ Hflush) in Hup. injection Hup as _ _ <-.
    rewrite delete_stale_other by done.
    apply flush_inserts in Hflush.
    clear -Hflush Hne.
    revert Hflush. rewrite loop_to_insert. cbn [to_insert session app].
    generalize (List.filter (fun r => negb (hit key table r)) recs) as rs.
    pose proof (loop_other key key' url recs
                  {| session := table; to_insert := []; changed := 0 |} Hne) as Hloop.
    cbn [session] in Hloop. rewrite <- Hloop. clear Hloop.
    generalize (session (fold_left (visit key url) recs
                  {| session := table; to_insert := []; changed := 0 |})) as sess.
    intros sess rs. revert sess flushed.
    induction rs as [| r rest IH]; intros sess flushed; cbn.
    + by intros [= ->].
    + destruct (violates_ix_source_ext (stored key url r) sess); [done |].
      intros Hrest. apply IH in Hrest. rewrite Hrest, List.filter_app.
      assert (of_source key' (stored key url r) = false) as Hother.
      { unfold of_source. cbn. by destruct (String.eqb_spec key key'). }
      cbn [List.filter]. by rewrite Hother, app_nil_r.
  - unfold upsert_source in Hup. rewrite Hflush in Hup. done.
Qed.

(** *** A table in sync with a fetch *)










(** *** Rows without external id *)

Lemma existing_set_keeps (key : string) (eid : option Z) (f : DataRecord -> DataRecord)
    (rows : list DataRecord) (row : DataRecord) :
  In row rows -> keyed key eid row = false -> In row (existing_set key eid f rows).
Proof.
  intros Hin Hk. induction rows as [| r rest IH]; cbn; [done |].
  destruct (existing_get key eid rest).
  - destruct Hin as [-> | Hin]; [by left | right; by apply IH].
  - destruct (keyed key eid r) eqn:Hr; [| done].
    destruct Hin as [-> | Hin]; [congruence | by right].
Qed.

Lemma loop_keeps_rows_without_id (key url : string) (recs : list record) (st : loop_state)
    (row : DataRecord) :
  In row (session st) -> external_id row = None ->
  In row (session (fold_left (visit key url) recs st)).
Proof.
  intros Hin Hnone. revert st Hin.
  induction recs as [| r rest IH]; intros st Hin; cbn; [done |].
  apply IH. rewrite visit_eq.
  destruct (opt_int_truthy (get_id r)) eqn:Htruthy; [| done].
  destruct (existing_get key (get_id r) (session st)) as [found |]; [| done].
  destruct (same_sum (checksum found) (sum_of r)); [done |]. cbn.
  apply existing_set_keeps; [done |].
  unfold keyed. rewrite Hnone. apply andb_false_intro2.
  by destruct (get_id r).
Qed.

Lemma insert_all_appends (pending table flushed : list DataRecord) :
  insert_all pending table = Returned flushed -> flushed = table ++ pending.
Proof.
  revert table. induction pending as [| row rest IH]; intros table; cbn.
  - intros [= <-]. by rewrite app_nil_r.
  - destruct (violates_ix_source_ext row table); [done |].
    intros Hrest%IH. by rewrite Hrest, <- app_assoc.
Qed.

(** C3 (what the code does).  Whenever [upsert_source] returns, every
    row that was stored without external id is still stored, whatever
    the fetch contains, and every fetched record without external id has
    been stored as a new row: the rows of the source are not the latest
    fetch's record set once a record without id has been seen. *)
Theorem upsert_source_keeps_rows_without_id :
  forall (key url : string) (recs : list record) (table table' : list DataRecord)
         (fetched changed : Z),
    upsert_source key url recs table = Returned (fetched, changed, table') ->
    (forall row, In row table -> external_id row = None -> In row table')
    /\ (forall r, In r recs -> get_id r = None -> In (stored key url r) table').
Proof.
  intros key url recs table table' fetched changed Hup.
  destruct (flush
    (to_insert (fold_left (visit key url) recs
                  {| session := table; to_insert := []; changed := 0 |}))
    (session (fold_left (visit key url) recs
                {| session := table; to_insert := []; changed := 0 |}))) as [flushed | e]
    eqn:Hflush; [| unfold upsert_source in Hup; by rewrite Hflush in Hup].
  rewrite (upsert_source_flushed _ _ _ _ _ Hflush) in Hup. injection Hup as _ _ <-.
  apply flush_inserts, insert_all_appends in Hflush. rewrite loop_to_insert in Hflush.
  cbn [to_insert session app] in Hflush. subst flushed.
  split.
  - intros row Hin Hnone. apply In_delete_stale. split.
    + apply in_or_app. left. by apply loop_keeps_rows_without_id.
    + apply andb_false_intro2. by rewrite Hnone.
  - intros r Hr Hnone. apply In_delete_stale. split.
    + apply in_or_app. right. apply in_map, filter_In. split; [done |].
      unfold hit. by rewrite Hnone.
    + apply andb_false_intro2. cbn. by rewrite Hnone.
Qed.

(** X2.  Reconciling one source leaves the rows stored for every other
    source key as they were, in order. *)
Theorem upsert_source_leaves_other_sources :
  forall (key key' url : string) (recs : list record) (table table' : list DataRecord)
         (fetched changed : Z),
    key' <> key ->
    upsert_source key url recs table = Returned (fetched, changed, table') ->
    List.filter (of_source key') table' = List.filter (of_source key') table.
Proof.
  intros key key' url recs table table' fetched changed Hne Hup.
  exact (upsert_source_other key key' url recs table table' fetched changed Hne Hup).
Qed.




End Reconciliation.

(** A stand-in for the two library calls, for closed examples: the
    members of an object joined as text, and a text as its own digest.
    The results below hold for every other choice. *)
Definition members_text (r : record) : string :=
  match r with
  | RObject o =>
      fold_right (fun '(k, v) acc => k +:+ "=" +:+ v +:+ ";" +:+ acc) "" (obj_fields o)
  | RValue text => text
  end.

Definition plain_text : Hashlib :=
  {| json_dumps_sort_keys := members_text; sha256_hexdigest := fun s => s |}.

Lemma upsert_source_keeps_rows_without_id_witness :
  In (@stored plain_text "posts" "https://x/posts" (anonymous "P"))
     [ @stored plain_text "posts" "https://x/posts" (anonymous "P");
       @stored plain_text "posts" "https://x/posts" (item 1 "A") ].
Proof.
  refine (proj1
    (@upsert_source_keeps_rows_without_id plain_text "posts" "https://x/posts"
       [item 1 "A"]
       [@stored plain_text "posts" "https://x/posts" (anonymous "P")]
       [ @stored plain_text "posts" "https://x/posts" (anonymous "P");
         @stored plain_text "posts" "https://x/posts" (item 1 "A") ]
       1 1 _) _ _ _); [reflexivity | by left | reflexivity].
Defined.

Lemma upsert_source_leaves_other_sources_witness :
  List.filter (@of_source "users")
    [ @stored plain_text "users" "https://x/users" (item 5 "U");
      @stored plain_text "posts" "https://x/posts" (item 1 "A") ]
  = List.filter (@of_source "users")
      [ @stored plain_text "users" "https://x/users" (item 5 "U");
        @stored plain_text "posts" "https://x/posts" (item 2 "B") ].
Proof.
  refine (@upsert_source_leaves_other_sources plain_text "posts" "users" "https://x/posts"
            [item 1 "A"]
            [ @stored plain_text "users" "https://x/users" (item 5 "U");
              @stored plain_text "posts" "https://x/posts" (item 2 "B") ]
            [ @stored plain_text "users" "https://x/users" (item 5 "U");
              @stored plain_text "posts" "https://x/posts" (item 1 "A") ]
            1 1 _ _); [discriminate | reflexivity].
Defined.



End RecordsProofs.

(** ** Refresh orchestrator *)

Module AggregatorProofs.
Import Py Upstream Cache Records Audits Aggregator RecordsProofs.

Section Refresh.
Context `{Hashlib} `{RedisServer}.




(** Reconciling the given outcomes alone, in order. *)
Fixpoint reconcile_all (os : list Fetcher.outcome) (table : list DataRecord)
  : result (list DataRecord) :=
  match os with
  | [] => Returned table
  | o :: rest =>
      '(_, _, table') ←
        upsert_source (Fetcher.source_key o) (Fetcher.url o) (Fetcher.records o) table;
      reconcile_all rest table'
  end.







(** No reconciliation raises when the records of each outcome carry
    pairwise distinct, non-zero external ids that fit the column. *)
Lemma reconcile_all_clean (os : list Fetcher.outcome) (table : list DataRecord) :
  (forall o, In o os -> clean_ids (Fetcher.records o) /\ ids_fit (Fetcher.records o)) ->
  exists table', reconcile_all os table = Returned table'.
Proof.
  revert table. induction os as [| o rest IH]; intros table Hclean; cbn; [by eexists |].
  destruct (Hclean o (or_introl eq_refl)) as [Hids Hfit].
  rewrite (upsert_source_clean (Fetcher.source_key o) (Fetcher.url o) (Fetcher.records o)
             table Hids Hfit).
  cbn. apply IH. intros o' Ho'. apply Hclean. by right.
Qed.








(** *** Running the refresh twice *)








(** *** End to end *)


(** An upstream that answers every request with the given records. *)
Definition answering (recs : list record) : Fetcher.environment :=
  {| Fetcher.respond := fun _ _ => Fetcher.Response2xx (BodyList recs) 5;
     Fetcher.checked_at := fun _ => 0;
     Fetcher.recorded_at := fun _ => 0 |}.








End Refresh.

(** *** Closed examples *)




Definition empty_db : database := {| data_records := []; fetch_audits := [] |}.









End AggregatorProofs.

(** ** Retries, rounds of fetches and the breaker table *)

Module FetchRounds.
Import Breaker Fetcher Upstream.

(** The failures [_fetch_one] is retried on:
    [retry_if_exception_type((httpx.TimeoutException, httpx.ConnectError))]. *)
Definition retried (a : attempt) : bool :=
  match a with
  | TimeoutException _ | ConnectError _ => true
  | Response2xx _ _ | HTTPStatusError _ | OtherException _ => false
  end.

(** What [_fetch_one] returns (left) or raises (right, by its [str()])
    when [a] is the last request it makes. *)
Definition settled (a : attempt) : list record * Z + string :=
  match a with
  | Response2xx data ms => inl (as_records data, ms)
  | TimeoutException msg | ConnectError msg | HTTPStatusError msg | OtherException msg =>
      inr msg
  end.

Lemma attempts_settle (env : environment) (u : string) (r n : nat) :
  exists k : nat,
    (k <= r)%nat
    /\ attempts env u r n = (settled (respond env u (n + k)), repeat u (S k))
    /\ (forall j : nat, (j < k)%nat -> retried (respond env u (n + j)) = true)
    /\ ((k < r)%nat -> retried (respond env u (n + k)) = false).
Proof.
  revert n. induction r as [| r IH]; intros n.
  - exists 0%nat. rewrite Nat.add_0_r. cbn [attempts].
    split; [lia |]. split; [by destruct (respond env u n) |].
    split; intros; lia.
  - cbn [attempts]. destruct (respond env u n) eqn:Hn;
      try (exists 0%nat; rewrite Nat.add_0_r, Hn;
           split; [lia |]; split; [done |]; split; [intros; lia | done]).
    + destruct (IH (S n)) as (k & Hle & Hrun & Hbefore & Hlast).
      exists (S k). rewrite Hrun. replace (n + S k)%nat with (S n + k)%nat by lia.
      split; [lia |]. split; [done |]. split.
      * intros [| j] Hj; [by rewrite Nat.add_0_r, Hn |].
        replace (n + S j)%nat with (S n + j)%nat by lia. apply Hbefore. lia.
      * intros Hlt. apply Hlast. lia.
    + destruct (IH (S n)) as (k & Hle & Hrun & Hbefore & Hlast).
      exists (S k). rewrite Hrun. replace (n + S k)%nat with (S n + k)%nat by lia.
      split; [lia |]. split; [done |]. split.
      * intros [| j] Hj; [by rewrite Nat.add_0_r, Hn |].
        replace (n + S j)%nat with (S n + j)%nat by lia. apply Hbefore. lia.
      * intros Hlt. apply Hlast. lia.
Qed.

Lemma fetch_one_requests (env : environment) (u : string) :
  exists k : nat, _fetch_one env u = (settled (respond env u k), repeat u (S k)).
Proof.
  unfold _fetch_one. destruct (attempts_settle env u (Nat.pred MAX_RETRIES) 0)
    as (k & _ & Hrun & _).
  by exists k.
Qed.

(** X7.  [_fetch_one] issues between one and [MAX_RETRIES] requests to
    its URL and to no other.  Every request but the last ended in a
    timeout or a connection error; the last one decides the result: its
    body on a 2xx answer, its exception otherwise.  It stops before the
    budget is spent only on an answer that is not retried (a 2xx answer,
    an HTTP status error or any other exception). *)
Theorem fetch_one_retry_budget :
  forall (env : environment) (u : string),
  exists k : nat,
    (k < MAX_RETRIES)%nat
    /\ _fetch_one env u = (settled (respond env u k), repeat u (S k))
    /\ (forall j : nat, (j < k)%nat -> retried (respond env u j) = true)
    /\ ((S k < MAX_RETRIES)%nat -> retried (respond env u k) = false).
Proof.
  intros env u. unfold _fetch_one, MAX_RETRIES. cbn [Nat.pred].
  destruct (attempts_settle env u 2 0) as (k & Hle & Hrun & Hbefore & Hlast).
  exists k. cbn [Nat.add] in *. split; [lia |]. split; [done |].
  split; [done |]. intros Hlt. apply Hlast. lia.
Qed.

(** *** One guarded fetch and the breaker table *)

Lemma is_open_other (now : Z) (u u' : string) (c : gmap string circuit_state) :
  u' <> u -> (_is_open now u c).2 !! u' = c !! u'.
Proof.
  intros Hne. unfold _is_open. destruct (c !! u) as [st |]; [| done].
  destruct (FAILURE_THRESHOLD <=? failures st); [| done].
  destruct (now - opened_at st <? RECOVERY_SECONDS); [done |].
  cbn [snd]. by rewrite lookup_insert_ne.
Qed.

(** A guarded fetch of [u] touches no other entry of the table. *)
Lemma guarded_other (env : environment) (u u' : string) (c : gmap string circuit_state) :
  u' <> u -> (_guarded env u c).1.2 !! u' = c !! u'.
Proof.
  intros Hne. unfold _guarded.
  pose proof (is_open_other (checked_at env u) u u' c Hne) as Hother.
  destruct (_is_open (checked_at env u) u c) as [[] c1]; cbn [fst snd] in *; [done |].
  destruct (_fetch_one env u) as [[[recs ms] | msg] log]; cbn [fst snd].
  - unfold _record_success. by rewrite lookup_delete_ne.
  - unfold _record_failure. by rewrite lookup_insert_ne.
Qed.

(** It sends requests to [u] only. *)
Lemma guarded_log (env : environment) (u : string) (c : gmap string circuit_state) :
  exists n : nat, (_guarded env u c).2 = repeat u n.
Proof.
  unfold _guarded. destruct (_is_open (checked_at env u) u c) as [[] c1];
    [by exists 0%nat |].
  destruct (fetch_one_requests env u) as (k & Hrun).
  rewrite Hrun. destruct (settled (respond env u k)) as [[recs ms] | msg]; by exists (S k).
Qed.

(** The source answered: its entry is gone.  It did not: it has one. *)
Lemma guarded_entry (env : environment) (u : string) (c : gmap string circuit_state) :
  error (_guarded env u c).1.1 = None <-> (_guarded env u c).1.2 !! u = None.
Proof.
  unfold _guarded, _is_open.
  destruct (c !! u) as [st |] eqn:Hst.
  - destruct (FAILURE_THRESHOLD <=? failures st).
    + destruct (checked_at env u - opened_at st <? RECOVERY_SECONDS); cbn [fst snd].
      * by rewrite Hst.
      * destruct (_fetch_one env u) as [[[recs ms] | msg] log]; cbn [fst snd error].
        -- unfold _record_success. by rewrite lookup_delete_eq.
        -- unfold _record_failure. by rewrite lookup_insert_eq.
    + destruct (_fetch_one env u) as [[[recs ms] | msg] log]; cbn [fst snd error].
      * unfold _record_success. by rewrite lookup_delete_eq.
      * unfold _record_failure. by rewrite lookup_insert_eq.
  - destruct (_fetch_one env u) as [[[recs ms] | msg] log]; cbn [fst snd error].
    + unfold _record_success. by rewrite lookup_delete_eq.
    + unfold _record_failure. by rewrite lookup_insert_eq.
Qed.

Lemma fetch_sources_step (env : environment) (u : string) (rest : list string)
    (c : gmap string circuit_state) :
  fetch_sources env (u :: rest) c
  = ((_guarded env u c).1.1 :: (fetch_sources env rest (_guarded env u c).1.2).1.1,
     (fetch_sources env rest (_guarded env u c).1.2).1.2,
     (_guarded env u c).2 ++ (fetch_sources env rest (_guarded env u c).1.2).2).
Proof.
  cbn [fetch_sources]. destruct (_guarded env u c) as [[o c1] log1]. cbn [fst snd].
  by destruct (fetch_sources env rest c1) as [[os c2] log2].
Qed.

(** A round touches the entries of the URLs it is given, and sends
    requests to them, only. *)
Lemma fetch_sources_other (env : environment) (urls : list string) (u : string)
    (c : gmap string circuit_state) :
  ~ In u urls ->
  (fetch_sources env urls c).1.2 !! u = c !! u /\ ~ In u (fetch_sources env urls c).2.
Proof.
  revert c. induction urls as [| u' rest IH]; intros c Hnotin; [by split; [| intros []] |].
  rewrite fetch_sources_step. cbn [fst snd].
  assert (u <> u') as Hne by (intros ->; apply Hnotin; by left).
  destruct (IH (_guarded env u' c).1.2) as [Hentry Hlog]; [intros Hin; apply Hnotin; by right |].
  split; [by rewrite Hentry, guarded_other |].
  intros [Hin | Hin]%in_app_or; [| done].
  destruct (guarded_log env u' c) as (n & Hrep). rewrite Hrep in Hin.
  by apply repeat_spec in Hin.
Qed.

(** X8.  A round of fetches leaves a tripped source alone: while its
    breaker is open (threshold reached, consulted less than
    [RECOVERY_SECONDS] after it opened), no request is sent to it,
    however often it is listed, each of its outcomes is the rejection,
    and its breaker entry is as it was. *)
Theorem fetch_sources_skips_open_circuit :
  forall (env : environment) (urls : list string) (c : gmap string circuit_state)
         (u : string) (st : circuit_state),
    c !! u = Some st ->
    FAILURE_THRESHOLD <= failures st ->
    checked_at env u - opened_at st < RECOVERY_SECONDS ->
    ~ In u (fetch_sources env urls c).2
    /\ (fetch_sources env urls c).1.2 !! u = Some st
    /\ Forall (fun o => url o = u -> o = FetcherProofs.rejected u)
              (fetch_sources env urls c).1.1.
Proof.
  intros env urls c u st Hst Hge Hwin. revert c Hst.
  induction urls as [| u' rest IH]; intros c Hst.
  - cbn. by split; [intros [] |].
  - rewrite fetch_sources_step. cbn [fst snd].
    destruct (decide (u' = u)) as [-> | Hne].
    + rewrite (FetcherProofs.guarded_open env u c)
        by (by rewrite (BreakerProofs.is_open_tripped _ _ _ _ Hst Hge Hwin)).
      cbn [fst snd app]. destruct (IH c Hst) as (Hlog & Hentry & Houts).
      split; [done |]. split; [done |]. by constructor.
    + destruct (IH (_guarded env u' c).1.2) as (Hlog & Hentry & Houts).
      { by rewrite guarded_other. }
      split; [| split; [done |]].
      * intros [Hin | Hin]%in_app_or; [| done].
        destruct (guarded_log env u' c) as (n & Hrep). rewrite Hrep in Hin.
        apply repeat_spec in Hin. congruence.
      * constructor; [| done]. rewrite FetcherProofs.guarded_url. congruence.
Qed.

Lemma fetch_sources_skips_open_circuit_witness :
  fetch_sources FetcherProofs.always_timeout ["https://x/posts"; "https://x/posts"]
    {[ "https://x/posts" := {| failures := 3; opened_at := 0 |} ]}
  = ([FetcherProofs.rejected "https://x/posts"; FetcherProofs.rejected "https://x/posts"],
     {[ "https://x/posts" := {| failures := 3; opened_at := 0 |} ]}, [])
  /\ ~ In "https://x/posts"
       (fetch_sources FetcherProofs.always_timeout ["https://x/posts"; "https://x/posts"]
          {[ "https://x/posts" := {| failures := 3; opened_at := 0 |} ]}).2.
Proof.
  split; [reflexivity |].
  refine (proj1
    (fetch_sources_skips_open_circuit FetcherProofs.always_timeout
       ["https://x/posts"; "https://x/posts"]
       {[ "https://x/posts" := {| failures := 3; opened_at := 0 |} ]}
       "https://x/posts" {| failures := 3; opened_at := 0 |} _ _ _));
    [apply lookup_singleton_eq | unfold FAILURE_THRESHOLD; cbn; lia
    | unfold RECOVERY_SECONDS; cbn; lia].
Defined.

(** X9.  After a round over pairwise distinct URLs, [circuit_status()]
    lists exactly the sources of the round that did not answer: a source
    whose outcome carries no error has no entry, and a source whose
    outcome carries one (a failed fetch or a rejection) has an entry. *)
Theorem circuit_status_lists_failed_sources :
  forall (env : environment) (urls : list string) (c : gmap string circuit_state),
    List.NoDup urls ->
    Forall (fun o => error o = None
                     <-> circuit_status (fetch_sources env urls c).1.2 !! url o = None)
           (fetch_sources env urls c).1.1.
Proof.
  intros env urls c Hnd. revert c.
  induction Hnd as [| u rest Hnotin Hnd IH]; intros c; [by constructor |].
  rewrite fetch_sources_step. cbn [fst snd]. constructor; [| apply IH].
  rewrite FetcherProofs.guarded_url. unfold circuit_status. rewrite lookup_fmap.
  destruct (fetch_sources_other env rest u (_guarded env u c).1.2) as [Hentry _];
    [done |].
  rewrite Hentry, guarded_entry.
  by destruct ((_guarded env u c).1.2 !! u).
Qed.

(** A network on which the posts source answers and every other source
    times out. *)
Definition posts_only : environment :=
  {| respond := fun u _ =>
       if String.eqb u "https://x/posts" then Response2xx (BodyList []) 5
       else TimeoutException "";
     checked_at := fun _ => 10;
     recorded_at := fun _ => 10 |}.

Lemma circuit_status_lists_failed_sources_witness :
  Forall (fun o => error o = None
                   <-> circuit_status
                         (fetch_sources posts_only ["https://x/posts"; "https://x/users"] ∅).1.2
                       !! url o = None)
         (fetch_sources posts_only ["https://x/posts"; "https://x/users"] ∅).1.1.
Proof.
  apply circuit_status_lists_failed_sources.
  repeat constructor; cbn; intuition discriminate.
Defined.

(** *** Consecutive failing rounds *)

(** In a round over pairwise distinct URLs, what happens to a listed
    source is what one guarded fetch does on a table with the source's
    entry. *)
Lemma fetch_sources_once (env : environment) (urls : list string) (u : string)
    (c : gmap string circuit_state) :
  List.NoDup urls -> In u urls ->
  exists c0 : gmap string circuit_state,
    c0 !! u = c !! u
    /\ In (_guarded env u c0).1.1 (fetch_sources env urls c).1.1
    /\ (fetch_sources env urls c).1.2 !! u = (_guarded env u c0).1.2 !! u
    /\ (In u (fetch_sources env urls c).2 -> In u (_guarded env u c0).2).
Proof.
  intros Hnd. revert c. induction Hnd as [| u' rest Hnotin Hnd IH]; intros c; [intros [] |].
  rewrite fetch_sources_step. cbn [fst snd]. intros [-> | Hin].
  - exists c. destruct (fetch_sources_other env rest u (_guarded env u c).1.2 Hnotin)
      as [Hentry Hlog].
    split; [done |]. split; [by left |]. split; [done |].
    intros [? | ?]%in_app_or; done.
  - assert (u <> u') as Hne by (by intros ->).
    destruct (IH (_guarded env u' c).1.2 Hin) as (c0 & Hc0 & Hout & Hentry & Hlog).
    exists c0. rewrite Hc0, guarded_other by done.
    split; [done |]. split; [by right |]. split; [done |].
    intros [Hl | Hl]%in_app_or; [| by apply Hlog].
    destruct (guarded_log env u' c) as (n & Hrep). rewrite Hrep in Hl.
    apply repeat_spec in Hl. congruence.
Qed.

(** The fetch of a source whose breaker is closed failed: one more
    failure on its entry, and the clock reading once the threshold is
    reached. *)
Lemma guarded_failure (env : environment) (u msg : string) (c : gmap string circuit_state) :
  (_fetch_one env u).1 = inr msg ->
  failures (default {| failures := 0; opened_at := 0 |} (c !! u)) < FAILURE_THRESHOLD ->
  (_guarded env u c).1.2 !! u
  = Some {| failures := failures (default {| failures := 0; opened_at := 0 |} (c !! u)) + 1;
            opened_at :=
              if FAILURE_THRESHOLD <=?
                   failures (default {| failures := 0; opened_at := 0 |} (c !! u)) + 1
              then recorded_at env u
              else opened_at (default {| failures := 0; opened_at := 0 |} (c !! u)) |}.
Proof.
  intros Hfail Hlt. unfold _guarded.
  assert (_is_open (checked_at env u) u c = (false, c)) as ->.
  { destruct (c !! u) as [st |] eqn:Hst.
    - by apply (BreakerProofs.is_open_below _ _ _ st).
    - by apply BreakerProofs.is_open_absent. }
  destruct (_fetch_one env u) as [[[recs ms] | msg'] log]; [done |].
  cbn [fst snd]. apply BreakerProofs.record_failure_lookup.
Qed.

(** X10.  Three rounds in a row in which a source fails trip its
    breaker: starting with no entry for the source, after the third
    round the entry counts three failures and holds the clock reading
    of the third; a fourth round that consults the breaker less than
    [RECOVERY_SECONDS] later rejects the source without sending a
    request and leaves the entry as it is. *)
Theorem three_failed_rounds_trip_the_breaker :
  forall (env1 env2 env3 env4 : environment) (urls : list string) (u : string)
         (c : gmap string circuit_state) (msg1 msg2 msg3 : string),
    List.NoDup urls -> In u urls ->
    c !! u = None ->
    (_fetch_one env1 u).1 = inr msg1 ->
    (_fetch_one env2 u).1 = inr msg2 ->
    (_fetch_one env3 u).1 = inr msg3 ->
    checked_at env4 u - recorded_at env3 u < RECOVERY_SECONDS ->
    let c1 := (fetch_sources env1 urls c).1.2 in
    let c2 := (fetch_sources env2 urls c1).1.2 in
    let c3 := (fetch_sources env3 urls c2).1.2 in
    c3 !! u = Some {| failures := 3; opened_at := recorded_at env3 u |}
    /\ In (FetcherProofs.rejected u) (fetch_sources env4 urls c3).1.1
    /\ ~ In u (fetch_sources env4 urls c3).2
    /\ (fetch_sources env4 urls c3).1.2 !! u = c3 !! u.
Proof.
  intros env1 env2 env3 env4 urls u c msg1 msg2 msg3 Hnd Hin Hnone H1 H2 H3 Hwin c1 c2 c3.
  assert (c1 !! u = Some {| failures := 1; opened_at := 0 |}) as Hc1.
  { destruct (fetch_sources_once env1 urls u c Hnd Hin) as (c0 & Hc0 & _ & Hentry & _).
    fold c1 in Hentry. rewrite Hentry, (guarded_failure env1 u msg1 c0 H1);
      rewrite Hc0, Hnone; [done | cbn; unfold FAILURE_THRESHOLD; lia]. }
  assert (c2 !! u = Some {| failures := 2; opened_at := 0 |}) as Hc2.
  { destruct (fetch_sources_once env2 urls u c1 Hnd Hin) as (c0 & Hc0 & _ & Hentry & _).
    fold c2 in Hentry. rewrite Hentry, (guarded_failure env2 u msg2 c0 H2);
      rewrite Hc0, Hc1; [done | cbn; unfold FAILURE_THRESHOLD; lia]. }
  assert (c3 !! u = Some {| failures := 3; opened_at := recorded_at env3 u |}) as Hc3.
  { destruct (fetch_sources_once env3 urls u c2 Hnd Hin) as (c0 & Hc0 & _ & Hentry & _).
    fold c3 in Hentry. rewrite Hentry, (guarded_failure env3 u msg3 c0 H3);
      rewrite Hc0, Hc2; [done | cbn; unfold FAILURE_THRESHOLD; lia]. }
  split; [done |].
  destruct (fetch_sources_once env4 urls u c3 Hnd Hin) as (c0 & Hc0 & Hout & Hentry & Hlog).
  rewrite Hc3 in Hc0.
  assert (_guarded env4 u c0 = (FetcherProofs.rejected u, c0, [])) as Hrej.
  { apply FetcherProofs.guarded_open.
    by rewrite (BreakerProofs.is_open_tripped _ _ _ _ Hc0). }
  rewrite Hrej in Hout, Hentry, Hlog. cbn [fst snd] in *.
  split; [done |]. split; [by intros ?%Hlog |]. by rewrite Hentry, Hc0.
Qed.

Lemma three_failed_rounds_trip_the_breaker_witness :
  let c3 :=
    (fetch_sources posts_only ["https://x/posts"; "https://x/users"]
       (fetch_sources posts_only ["https://x/posts"; "https://x/users"]
          (fetch_sources posts_only ["https://x/posts"; "https://x/users"] ∅).1.2).1.2).1.2 in
  c3 !! "https://x/users" = Some {| failures := 3; opened_at := 10 |}
  /\ In (FetcherProofs.rejected "https://x/users")
        (fetch_sources posts_only ["https://x/posts"; "https://x/users"] c3).1.1.
Proof.
  destruct (three_failed_rounds_trip_the_breaker posts_only posts_only posts_only posts_only
              ["https://x/posts"; "https://x/users"] "https://x/users" ∅ "" "" "")
    as (Hentry & Hout & _).
  - repeat constructor; cbn; intuition discriminate.
  - right. by left.
  - reflexivity.
  - reflexivity.
  - reflexivity.
  - reflexivity.
  - unfold RECOVERY_SECONDS. cbn. lia.
  - split; [exact Hentry | exact Hout].
Defined.

(** *** Source keys *)

Lemma list_ascii_of_string_app (a b : string) :
  list_ascii_of_string (a +:+ b) = list_ascii_of_string a ++ list_ascii_of_string b.
Proof.
  induction a as [| x a IH]; [done |].
  change (String x a +:+ b) with (String x (a +:+ b)). cbn. by rewrite IH.
Qed.

Lemma upto_slash_no_slash (cs : list ascii) : ~ In slash (upto_slash cs).
Proof.
  induction cs as [| x cs IH]; cbn; [tauto |].
  destruct (Ascii.eqb_spec x slash) as [-> | Hne]; cbn; [tauto |].
  intros [-> | Hin]; tauto.
Qed.

Lemma upto_slash_app (cs rest : list ascii) :
  ~ In slash cs -> upto_slash (cs ++ slash :: rest) = cs.
Proof.
  induction cs as [| x cs IH]; cbn; intros Hno.
  - by rewrite ?Ascii.eqb_refl.
  - destruct (Ascii.eqb_spec x slash) as [-> | Hne]; [tauto |].
    rewrite IH; [done | tauto].
Qed.

Lemma upto_slash_all (cs : list ascii) : ~ In slash cs -> upto_slash cs = cs.
Proof.
  induction cs as [| x cs IH]; cbn; intros Hno; [done |].
  destruct (Ascii.eqb_spec x slash) as [-> | Hne]; [tauto |].
  rewrite IH; [done | tauto].
Qed.

Lemma lstrip_slash_prefix (p tail : list ascii) :
  p <> [] -> ~ In slash p -> lstrip_slash (p ++ tail) = p ++ tail.
Proof.
  destruct p as [| x p]; [done |]. intros _ Hno. cbn.
  destruct (Ascii.eqb_spec x slash) as [-> | Hne]; [| done].
  exfalso. apply Hno. by left.
Qed.

(** X11.  The source key of a URL is its last path segment: for a name
    without slash that is not empty, [base/name] has key [name], and so
    has [name] alone; a trailing slash changes nothing; and no source
    key contains a slash. *)
Theorem source_key_of_last_segment :
  forall (base name : string),
    name <> "" ->
    ~ In slash (list_ascii_of_string name) ->
    source_key_of (base +:+ "/" +:+ name) = name
    /\ source_key_of name = name
    /\ (forall u : string, source_key_of (u +:+ "/") = source_key_of u)
    /\ (forall u : string, ~ In slash (list_ascii_of_string (source_key_of u))).
Proof.
  intros base name Hne Hno.
  set (p := rev (list_ascii_of_string name)).
  assert (p <> []) as Hp.
  { intros Hnil. apply Hne. rewrite <- (string_of_list_ascii_of_string name).
    rewrite <- (rev_involutive (list_ascii_of_string name)). fold p. by rewrite Hnil. }
  assert (~ In slash p) as Hno' by (unfold p; by rewrite <- in_rev).
  split; [| split; [| split]].
  - unfold source_key_of. rewrite !list_ascii_of_string_app, !rev_app_distr. fold p.
    cbn [list_ascii_of_string rev app]. rewrite <- app_assoc. cbn [app].
    rewrite lstrip_slash_prefix, upto_slash_app by done.
    unfold p. by rewrite rev_involutive, string_of_list_ascii_of_string.
  - unfold source_key_of. fold p. rewrite <- (app_nil_r p).
    rewrite lstrip_slash_prefix, app_nil_r, upto_slash_all by done.
    unfold p. by rewrite rev_involutive, string_of_list_ascii_of_string.
  - intros u. unfold source_key_of. rewrite list_ascii_of_string_app, rev_app_distr.
    cbn [list_ascii_of_string rev app lstrip_slash]. by rewrite ?Ascii.eqb_refl.
  - intros u. unfold source_key_of. rewrite list_ascii_of_string_of_list_ascii, <- in_rev.
    apply upto_slash_no_slash.
Qed.

Lemma source_key_of_last_segment_witness :
  source_key_of "https://jsonplaceholder.typicode.com/posts" = "posts".
Proof.
  refine (proj1 (source_key_of_last_segment "https://jsonplaceholder.typicode.com" "posts" _ _)).
  - discriminate.
  - cbn. unfold slash. intuition discriminate.
Defined.

End FetchRounds.

(** ** Pool lifecycle, cache keys and hit statistics *)

Module CacheAdminProofs.
Import Py Cache Records CacheAdmin CacheProofs.

Section Pool.
Context `{RedisServer}.

(** X12.  [ping_redis] never raises: it answers [True] exactly when the
    pool is initialised and the store answers, and [False] otherwise.
    After [close_redis_pool] it answers [False] and each cache operation
    raises the [CacheError] of [get_redis]; closing twice is closing
    once.  After [init_redis_pool], whether the store answers or fails,
    [cache_get] (on a keyspace of JSON texts), [cache_delete] and
    [invalidate_pattern] raise nothing; [cache_set] returns for every
    value the encoder does not refuse, and what it raises otherwise is
    the [TypeError] or [ValueError] of [json.dumps]. *)
Theorem pool_lifecycle :
  forall (r : redis) (now : Z) (key pattern : string) (v : pyval) (ttl : Z),
    (ping_redis r = true
     <-> pool_initialized r = true /\ exists keys, backend r = Serving keys)
    /\ ping_redis (close_redis_pool r) = false
    /\ close_redis_pool (close_redis_pool r) = close_redis_pool r
    /\ (cache_get now key (close_redis_pool r) = Raises NOT_INITIALISED
        /\ cache_set now key v ttl (close_redis_pool r) = Raises NOT_INITIALISED
        /\ cache_delete key (close_redis_pool r) = Raises NOT_INITIALISED
        /\ invalidate_pattern now pattern (close_redis_pool r) = Raises NOT_INITIALISED)
    /\ ((exists answer, cache_get now key (init_redis_pool r) = Returned answer)
        /\ (forall document : json,
              json_dumps v = Returned document ->
              exists r', cache_set now key v ttl (init_redis_pool r) = Returned r')
        /\ (forall e : exn,
              cache_set now key v ttl (init_redis_pool r) = Raises e ->
              json_dumps v = Raises e
              /\ ((exists detail, e = TypeError detail)
                  \/ (exists detail, e = ValueError detail)))
        /\ (exists r', cache_delete key (init_redis_pool r) = Returned r')
        /\ (exists n r', invalidate_pattern now pattern (init_redis_pool r)
                         = Returned (n, r'))).
Proof.
  intros r now key pattern v ttl. split; [| split; [| split; [| split]]].
  - unfold ping_redis, get_redis. destruct r as [[] [detail | keys]]; cbn; split; try done.
    + by intros [_ [keys ?]].
    + intros _. split; [done | by eexists].
    + by intros [? _].
    + by intros [? _].
  - by destruct r as [[] s].
  - by destruct r as [[] s].
  - by destruct r as [[] s].
  - split; [| split; [| split; [| split]]].
    + destruct r as [pool [detail | keys]]; cbn; [by eexists |].
      unfold cache_get, init_redis_pool. cbn. destruct (GET now key keys); by eexists.
    + intros document Hv. unfold cache_set, init_redis_pool. cbn.
      rewrite Hv. destruct r as [pool [detail | keys]]; cbn; by eexists.
    + intros e. unfold cache_set, init_redis_pool. cbn.
      destruct (json_dumps v) as [document | e'] eqn:Hv; cbn.
      * by destruct r as [pool [detail | keys]].
      * pose proof (json_dumps_raised v e' Hv) as Herr.
        destruct Herr as [[d ->] | [d ->]]; cbn; intros [= <-];
          (split; [done |]); [left | right]; by eexists.
    + destruct r as [pool [detail | keys]]; cbn; by eexists.
    + destruct r as [pool [detail | keys]]; cbn; by do 2 eexists.
Qed.

End Pool.

Lemma pool_lifecycle_witness :
  exists r', @cache_set plain_server 1000 "agg:v2:k" (PInt 7) 300
               (init_redis_pool (uninitialised (Serving ∅)))
             = Returned r'.
Proof.
  refine (proj1 (proj2 (proj2 (proj2 (proj2 (proj2
    (@pool_lifecycle plain_server (uninitialised (Serving ∅)) 1000 "agg:v2:k" "agg:v2:*"
       (PInt 7) 300)))))) (JNumber 7) _).
  reflexivity.
Defined.

(** *** Cache keys *)

Lemma length_append (a b : string) :
  String.length (a +:+ b) = (String.length a + String.length b)%nat.
Proof.
  induction a as [| x a IH]; [done |].
  change (String x a +:+ b) with (String x (a +:+ b)). cbn. by rewrite IH.
Qed.

Lemma length_substring (n : nat) (s : string) :
  (String.length (substring 0 n s) <= n)%nat.
Proof.
  revert s. induction n as [| n IH]; intros [| x s]; cbn; try lia.
  specialize (IH s). lia.
Qed.

Lemma length_replace (old new : ascii) (s : string) :
  String.length (replace old new s) = String.length s.
Proof. induction s as [| x s IH]; cbn; [done | by rewrite IH]. Qed.

Lemma append_assoc (a b c : string) : (a +:+ b) +:+ c = a +:+ (b +:+ c).
Proof.
  induction a as [| x a IH]; [done |].
  change (String x ((a +:+ b) +:+ c) = String x (a +:+ (b +:+ c))). by rewrite IH.
Qed.

Section Keys.
Context `{Hashlib} `{RedisServer}.

(** Every key that starts with [agg:v2:] matches the pattern the
    invalidations use. *)
Lemma matches_prefix (rest : string) : matches "agg:v2:*" ("agg:v2:" +:+ rest) = true.
Proof.
  change "agg:v2:*" with ("agg:v2:" +:+ "*").
  rewrite matches_literal_prefix by reflexivity.
  cbv -[String.prefix ascii_dec]. cbn. by destruct rest.
Qed.

(** Whatever its arguments, [build_key] returns a key of at most 80
    characters that matches the pattern [agg:v2:*], and so does the key
    of its freshness sentinel. *)
Lemma build_key_shape :
  forall parts : list part,
    matches "agg:v2:*" (build_key parts) = true
    /\ matches "agg:v2:*" (fresh_key (build_key parts)) = true
    /\ (String.length (build_key parts) <= 80)%nat.
Proof.
  intros parts. unfold build_key, fresh_key. split; [| split].
  - apply matches_prefix.
  - rewrite append_assoc. apply matches_prefix.
  - rewrite !length_append, length_replace.
    pose proof (length_substring 12 (sha256_hexdigest (join ":" (map str parts)))).
    pose proof (length_substring 60 (join ":" (map str parts))).
    cbn [String.length]. lia.
Qed.

(** Invalidating [agg:v2:*] on a reachable store leaves nothing to read
    under a key that starts with [agg:v2:]. *)
Lemma invalidated_prefix (now now' : Z) (rest : string) (keys : gmap string entry) :
  now <= now' ->
  GET now' ("agg:v2:" +:+ rest) (keys ∖ scanned now "agg:v2:*" keys) = None.
Proof.
  intros Hle. unfold GET. rewrite lookup_difference, scanned_lookup, matches_prefix.
  destruct (keys !! ("agg:v2:" +:+ rest)) as [e |]; [| done]. cbn.
  destruct (Z.ltb_spec now (expires_at e)); [done |].
  destruct (Z.ltb_spec now' (expires_at e)); [lia | done].
Qed.

(** X13.  On a reachable store, after [invalidate_pattern("agg:v2:*")]
    (what [bust_cache] and [refresh_data] call) a [cache_get] of any key
    built by [build_key] is a miss, from then on and until the key is
    set again. *)
Theorem invalidate_pattern_clears_built_keys :
  forall (parts : list part) (now now' : Z) (keys : gmap string entry),
    now <= now' ->
    exists (n : Z) (r' : redis),
      invalidate_pattern now "agg:v2:*" (serving keys) = Returned (n, r')
      /\ cache_get now' (build_key parts) r' = Returned (PNone, false).
Proof.
  intros parts now now' keys Hle.
  exists (Z.of_nat (size (scanned now "agg:v2:*" keys))),
         (serving (keys ∖ scanned now "agg:v2:*" keys)).
  split; [reflexivity |].
  rewrite cache_get_serving. unfold build_key. by rewrite invalidated_prefix.
Qed.

End Keys.

Lemma invalidate_pattern_clears_built_keys_witness :
  exists (n : Z) (r' : redis),
    @invalidate_pattern plain_server 1000 "agg:v2:*"
      (serving (written 990 (@build_key RecordsProofs.plain_text [Text "record"; Number 7])
                        (PInt 7) 3600 ∅))
    = Returned (n, r')
    /\ cache_get 1001 (@build_key RecordsProofs.plain_text [Text "record"; Number 7]) r'
       = Returned (PNone, false).
Proof.
  apply (@invalidate_pattern_clears_built_keys RecordsProofs.plain_text plain_server). lia.
Defined.

(** *** Writes are local *)

Lemma fresh_key_inj (k k' : string) : fresh_key k = fresh_key k' -> k = k'.
Proof.
  unfold fresh_key. revert k'. induction k as [| x k IH]; intros [| y k'] Heq; [done | | |].
  - exfalso. apply (f_equal String.length) in Heq. rewrite !length_append in Heq.
    cbn in Heq. lia.
  - exfalso. apply (f_equal String.length) in Heq. rewrite !length_append in Heq.
    cbn in Heq. lia.
  - change (String x (k +:+ ":fresh") = String y (k' +:+ ":fresh")) in Heq.
    injection Heq as -> Heq. by rewrite (IH k' Heq).
Qed.

(** What [cache_get] reads: the value key and the sentinel key. *)
Lemma cache_get_reads (now : Z) (key : string) (keys keys' : gmap string entry) :
  keys' !! key = keys !! key ->
  keys' !! fresh_key key = keys !! fresh_key key ->
  cache_get now key (serving keys') = cache_get now key (serving keys).
Proof.
  intros Hvalue Hsentinel. rewrite !cache_get_serving. unfold EXISTS, GET.
  by rewrite Hvalue, Hsentinel.
Qed.

Section Writes.
Context `{RedisServer}.

(** X14.  [cache_set] and [cache_delete] of a key touch that key and
    its sentinel only: whenever [cache_set] returns, whatever the value
    and whether the server accepts the expiries or not, a [cache_get]
    of another key, at any time, answers as before, provided neither
    key is the sentinel key of the other; and [cache_set] returns for
    every value the encoder does not refuse.  So it is after
    [cache_delete(k)], and then a [cache_get(k)] is a miss, whatever
    was stored. *)
Theorem cache_writes_are_local :
  forall (keys : gmap string entry) (k k' : string) (v : pyval) (ttl now now' : Z),
    k' <> k -> k' <> fresh_key k -> k <> fresh_key k' ->
    (forall r', cache_set now k v ttl (serving keys) = Returned r' ->
                cache_get now' k' r' = cache_get now' k' (serving keys))
    /\ (forall document : json,
          json_dumps v = Returned document ->
          exists r', cache_set now k v ttl (serving keys) = Returned r')
    /\ (exists r', cache_delete k (serving keys) = Returned r'
                   /\ cache_get now' k' r' = cache_get now' k' (serving keys)
                   /\ cache_get now' k r' = Returned (PNone, false)).
Proof.
  intros keys k k' v ttl now now' Hne Hne1 Hne2.
  assert (fresh_key k' <> fresh_key k) as Hne3 by (by intros ?%fresh_key_inj).
  split; [| split].
  - intros r'. unfold cache_set, serving. cbn.
    destruct (json_dumps v) as [document | e] eqn:Hv; cbn.
    + intros [= <-]. apply cache_get_reads; unfold SETEX;
        destruct (accepts_expiry now (ttl + CACHE_STALE_GRACE));
        destruct (accepts_expiry now ttl); cbn; by rewrite ?lookup_insert_ne.
    + pose proof (json_dumps_raised v e Hv) as [[d ->] | [d ->]]; done.
  - intros document Hv. unfold cache_set, serving. cbn. rewrite Hv. cbn.
    by eexists.
  - exists (serving (DEL (fresh_key k) (DEL k keys))). split; [reflexivity |]. split.
    + apply cache_get_reads; unfold DEL; by rewrite !lookup_delete_ne.
    + rewrite cache_get_serving. unfold GET, DEL.
      rewrite lookup_delete_ne by apply fresh_key_ne.
      by rewrite lookup_delete_eq.
Qed.

End Writes.

Lemma cache_writes_are_local_witness :
  cache_get 1010 "agg:v2:a"
    (serving (written 1005 "agg:v2:b" (PInt 2) 300 (written 1000 "agg:v2:a" (PInt 1) 300 ∅)))
  = Returned (PInt 1, false).
Proof.
  pose proof (proj1 (@cache_writes_are_local plain_server
                       (written 1000 "agg:v2:a" (PInt 1) 300 ∅)
                       "agg:v2:b" "agg:v2:a" (PInt 2) 300 1005 1010
                       ltac:(discriminate) ltac:(discriminate) ltac:(discriminate))
                    (serving (written 1005 "agg:v2:b" (PInt 2) 300
                                (written 1000 "agg:v2:a" (PInt 1) 300 ∅)))
                    eq_refl) as Hget.
  rewrite Hget. reflexivity.
Defined.

(** *** Hit statistics *)

(** What a cached read counts. *)
Inductive counted := Hit | StaleHit | Miss.

Definition count (s : stats) (e : counted) : stats :=
  match e with
  | Hit => record_hit false s
  | StaleHit => record_hit true s
  | Miss => record_miss s
  end.

Definition is_hit (e : counted) : bool := match e with Hit => true | _ => false end.
Definition is_stale_hit (e : counted) : bool := match e with StaleHit => true | _ => false end.
Definition is_miss (e : counted) : bool := match e with Miss => true | _ => false end.

Definition number (keep : counted -> bool) (events : list counted) : Z :=
  Z.of_nat (length (List.filter keep events)).

Lemma count_all (events : list counted) (s : stats) :
  hits (fold_left count events s) = hits s + number is_hit events
  /\ stale_hits (fold_left count events s) = stale_hits s + number is_stale_hit events
  /\ misses (fold_left count events s) = misses s + number is_miss events.
Proof.
  revert s. induction events as [| e events IH]; intros s.
  - unfold number. cbn. lia.
  - cbn [fold_left]. destruct (IH (count s e)) as (Hh & Hs & Hm).
    rewrite Hh, Hs, Hm. unfold number.
    destruct e; cbn [count record_hit record_miss hits misses stale_hits List.filter
                     is_hit is_stale_hit is_miss length]; lia.
Qed.

Lemma number_total (events : list counted) :
  number is_hit events + number is_miss events + number is_stale_hit events
  = Z.of_nat (length events).
Proof.
  unfold number. induction events as [| [] events IH]; cbn [List.filter is_hit is_miss
    is_stale_hit length]; lia.
Qed.

(** X15.  Starting from the counters of a fresh process, after any
    sequence of [record_hit()], [record_hit(stale=True)] and
    [record_miss()] calls, [get_cache_stats] reports how many of each
    there were and their number as [total_requests]; [hit_rate] is
    [0.0], without a division, when there were none, and the rounded
    quotient of the hits (fresh and stale) by the total otherwise. *)
Theorem get_cache_stats_counts :
  forall `{Floats} (events : list counted),
    let reported := get_cache_stats (fold_left count events no_stats) in
    stats_hits reported = number is_hit events
    /\ stats_stale_hits reported = number is_stale_hit events
    /\ stats_misses reported = number is_miss events
    /\ total_requests reported = Z.of_nat (length events)
    /\ hit_rate reported
       = match events with
         | [] => float_zero
         | _ :: _ =>
             round_div (number is_hit events + number is_stale_hit events)
                       (Z.of_nat (length events)) 4
         end.
Proof.
  intros F events reported. subst reported.
  destruct (count_all events no_stats) as (Hh & Hs & Hm).
  pose proof (number_total events) as Htotal.
  unfold get_cache_stats. cbn [stats_hits stats_stale_hits stats_misses total_requests hit_rate].
  rewrite Hh, Hs, Hm. cbn [no_stats hits misses stale_hits]. rewrite !Z.add_0_l.
  repeat split; try done.
  rewrite Htotal. destruct events as [| e events]; [done |].
  destruct (Z.eqb_spec (Z.of_nat (length (e :: events))) 0) as [Hz | _]; [cbn in Hz; lia | done].
Qed.

End CacheAdminProofs.

(** ** Refresh and the cached responses *)

Module RefreshCacheProofs.
Import Py Breaker Upstream Cache Records Audits Aggregator CacheAdmin CacheProofs.

Section Coherence.
Context `{Hashlib} `{RedisServer}.

(** X16.  A refresh that returns on a reachable store leaves no cached
    response behind: whatever the key built by [build_key], a
    [cache_get] after the refresh is a miss, so that the next read goes
    to the database the refresh has committed to. *)
Theorem refresh_data_clears_built_keys :
  forall (env : Fetcher.environment) (now now' : Z) (sources : list string) (by_ : string)
         (w : world) (keys : gmap string entry) (response : RefreshResponse)
         (parts : list part),
    cache w = serving keys ->
    (refresh_data env now sources by_ w).1 = Returned response ->
    now <= now' ->
    cache_get now' (build_key parts) (cache (refresh_data env now sources by_ w).2)
    = Returned (PNone, false).
Proof.
  intros env now now' sources by_ w keys response parts Hcache Hrun Hle.
  unfold refresh_data in *.
  destruct (Fetcher.fetch_sources env sources (circuit w)) as [[raw c] log].
  unfold refresh_results in *. rewrite Hcache in *.
  destruct (handle_all by_ raw _) as [st | e]; [| done].
  cbn in *. rewrite cache_get_serving. unfold build_key.
  by rewrite CacheAdminProofs.invalidated_prefix.
Qed.

End Coherence.

(** A world in which the response for record 7 is cached. *)
Definition cached_world : world :=
  {| circuit := ∅;
     db := {| data_records := []; fetch_audits := [] |};
     cache := serving (written 990
                         (@build_key RecordsProofs.plain_text [Text "record"; Number 7])
                         (PInt 7) 3600 ∅) |}.

Lemma refresh_data_clears_built_keys_witness :
  cache_get 995 (@build_key RecordsProofs.plain_text [Text "record"; Number 7])
            (cache cached_world)
  = Returned (PInt 7, false)
  /\ cache_get 1001 (@build_key RecordsProofs.plain_text [Text "record"; Number 7])
       (cache (@refresh_data RecordsProofs.plain_text plain_server
                 (AggregatorProofs.answering [RecordsProofs.item 1 "A"]) 1000
                 ["https://x/posts"] "manual" cached_world).2)
     = Returned (PNone, false).
Proof.
  split; [vm_compute; reflexivity |].
  eapply (@refresh_data_clears_built_keys RecordsProofs.plain_text plain_server
            (AggregatorProofs.answering [RecordsProofs.item 1 "A"]) 1000 1001
            ["https://x/posts"] "manual" cached_world).
  - reflexivity.
  - vm_compute. reflexivity.
  - lia.
Defined.

End RefreshCacheProofs.

(** ** Reconciliation: what a fetch leaves stored *)

Module ReconcileProofs.
Import Py Upstream Records RecordsProofs.

Section Reconcile.
Context `{Hashlib}.



(** The row carries an external id. *)
Definition has_id (row : DataRecord) : bool :=
  match external_id row with Some _ => true | None => false end.

(** X18.  Reconciling an empty fetch returns [(0, 0)] and deletes every
    row of the source that carries an external id: the deletions are
    not counted as changes, the rows of the source without external id
    stay, and so do the rows of every other source. *)
Theorem upsert_source_empty_fetch :
  forall (key url : string) (table : list DataRecord),
    upsert_source key url [] table
    = Returned (0, 0, List.filter (fun row => negb (of_source key row && has_id row)) table).
Proof.
  intros key url table.
  rewrite (upsert_source_flushed key url [] table table) by reflexivity.
  cbn [length fold_left Records.changed Z.of_nat]. do 2 f_equal.
  unfold delete_stale. apply List.filter_ext_in. intros row Hin. f_equal.
  destruct (of_source key row) eqn:Hsrc; [| done]. cbn.
  unfold sql_in, has_id. destruct (external_id row) as [z |] eqn:Hid; [| done].
  apply member_In. unfold stale_of. apply filter_In. split; [| done].
  rewrite <- Hid. apply in_map, filter_In. done.
Qed.



End Reconcile.



End ReconcileProofs.

(** ** API key check *)

Module AuthProofs.
Import Auth.

(** X20.  [require_api_key] returns only the configured key: whatever it
    returns is the header's value, equal to [settings.API_KEY] and not
    empty, so that with an empty configured key every request is
    refused.  It returns the configured key when that is sent, provided
    the key is ASCII and not empty; a missing or empty header raises
    [AuthenticationError], and so does an ASCII value that differs from
    an ASCII key; a value that is not ASCII raises the [TypeError] of
    [compare_digest] instead. *)
Theorem require_api_key_accepts_only_the_key :
  forall (API_KEY : string) (api_key : option string),
    (forall key, require_api_key API_KEY api_key = Returned key ->
                 api_key = Some key /\ key = API_KEY /\ key <> "")
    /\ (isascii API_KEY = true -> API_KEY <> "" ->
        require_api_key API_KEY (Some API_KEY) = Returned API_KEY)
    /\ require_api_key API_KEY None = Raises (AuthenticationError "Invalid or missing API key")
    /\ require_api_key API_KEY (Some "")
       = Raises (AuthenticationError "Invalid or missing API key")
    /\ (forall key, isascii key = true -> isascii API_KEY = true -> key <> API_KEY ->
                    require_api_key API_KEY (Some key)
                    = Raises (AuthenticationError "Invalid or missing API key"))
    /\ (forall key, key <> "" -> isascii key = false ->
                    require_api_key API_KEY (Some key)
                    = Raises (TypeError
                                "comparing strings with non-ASCII characters is not supported")).
Proof.
  intros API_KEY api_key.
  split; [| split; [| split; [| split; [| split]]]]; try done.
  - intros key Hret. destruct api_key as [k |]; [| done]. cbn in Hret.
    destruct k as [| c k]; [done |]. cbn [Py.str_truthy] in Hret.
    unfold compare_digest in Hret.
    destruct (isascii (String c k) && isascii API_KEY); [| done].
    destruct (String.eqb_spec (String c k) API_KEY) as [Heq | Hne]; [| done].
    injection Hret as <-. by repeat split.
  - intros Hascii Hne. unfold require_api_key, compare_digest.
    destruct API_KEY as [| c k]; [done |]. cbn [Py.str_truthy].
    by rewrite Hascii, String.eqb_refl.
  - intros key Hk Hascii Hne. unfold require_api_key, compare_digest.
    destruct key as [| c k]; [done |]. cbn [Py.str_truthy]. rewrite Hk, Hascii. cbn [andb].
    destruct (String.eqb_spec (String c k) API_KEY); [congruence | done].
  - intros key Hne Hk. unfold require_api_key, compare_digest.
    destruct key as [| c k]; [done |]. cbn [Py.str_truthy]. by rewrite Hk.
Qed.

Lemma require_api_key_accepts_only_the_key_witness :
  require_api_key "s3cret" (Some "s3cret") = Returned "s3cret"
  /\ require_api_key "s3cret" (Some "guess")
     = Raises (AuthenticationError "Invalid or missing API key").
Proof.
  split.
  - refine (proj1 (proj2 (require_api_key_accepts_only_the_key "s3cret" None)) _ _);
      [reflexivity | discriminate].
  - refine (proj1 (proj2 (proj2 (proj2 (proj2
      (require_api_key_accepts_only_the_key "s3cret" None))))) "guess" _ _ _);
      [reflexivity | reflexivity | discriminate].
Defined.

End AuthProofs.

(** ** Rate limiter *)

Module RateLimitProofs.
Import RateLimit.

(** The limiter after a sequence of requests, each with the clock
    reading at which it is dispatched. *)
Definition run (trace : list (Z * request)) (st : limiter) : limiter :=
  fold_left (fun st tr => (dispatch tr.1 tr.2 st).2) trace st.

(** The number of requests of the trace that are counted for [ip]. *)
Definition seen (ip : string) (trace : list (Z * request)) : Z :=
  Z.of_nat (length (List.filter (fun tr => String.eqb (_resolve_client_ip tr.2) ip) trace)).

(** The purge keeps every bucket whose window started at most twice
    the window length ago. *)
Lemma cleanup_keeps (now : Z) (st : limiter) (ip : string) (b : bucket) :
  _buckets st !! ip = Some b ->
  now - window_start b <= RATE_LIMIT_WINDOW_SECONDS * 2 ->
  _buckets (cleanup now st) !! ip = Some b.
Proof.
  intros Hb Hlive. unfold cleanup.
  destruct (_CLEANUP_INTERVAL <? now - _last_cleanup st); [| done].
  cbn [_buckets]. apply map_lookup_filter_Some. split; [done |]. cbn. lia.
Qed.

(** It removes buckets only. *)
Lemma cleanup_lookup (now : Z) (st : limiter) (ip : string) :
  _buckets (cleanup now st) !! ip = None
  \/ _buckets (cleanup now st) !! ip = _buckets st !! ip.
Proof.
  unfold cleanup. destruct (_CLEANUP_INTERVAL <? now - _last_cleanup st); [| by right].
  cbn [_buckets].
  destruct (filter _ (_buckets st) !! ip) as [b |] eqn:Hb; [| by left].
  right. apply map_lookup_filter_Some in Hb as [Hb _]. by rewrite Hb.
Qed.

(** A request that opens a window. *)
Lemma dispatch_opens (now : Z) (r : request) (st : limiter) :
  match _buckets st !! _resolve_client_ip r with
  | Some b => RATE_LIMIT_WINDOW_SECONDS < now - window_start b
  | None => True
  end ->
  (dispatch now r st).1 = Forwarded 99 60
  /\ _buckets (dispatch now r st).2 !! _resolve_client_ip r
     = Some {| window_start := now; count := 1 |}.
Proof.
  intros Hold. unfold dispatch.
  set (ip := _resolve_client_ip r) in *.
  assert (match _buckets (cleanup now st) !! ip with
          | Some b =>
              if RATE_LIMIT_WINDOW_SECONDS <? now - window_start b
              then {| window_start := now; count := 1 |}
              else {| window_start := window_start b; count := count b + 1 |}
          | None => {| window_start := now; count := 1 |}
          end = {| window_start := now; count := 1 |}) as ->.
  { destruct (cleanup_lookup now st ip) as [-> | ->]; [done |].
    destruct (_buckets st !! ip) as [b |]; [| done].
    by destruct (Z.ltb_spec RATE_LIMIT_WINDOW_SECONDS (now - window_start b)); [| lia]. }
  cbn [count window_start fst snd _buckets]. split.
  - unfold RATE_LIMIT_REQUESTS, RATE_LIMIT_WINDOW_SECONDS.
    change (100 <? 1) with false. cbn [fst]. f_equal; lia.
  - change (RATE_LIMIT_REQUESTS <? 1) with false. cbn [snd _buckets].
    by rewrite lookup_insert_eq.
Qed.

(** A request inside the window of the client's bucket. *)
Lemma dispatch_counts (now t0 k : Z) (r : request) (st : limiter) :
  _buckets st !! _resolve_client_ip r = Some {| window_start := t0; count := k |} ->
  now - t0 <= RATE_LIMIT_WINDOW_SECONDS ->
  (dispatch now r st).1
  = (if k + 1 <=? RATE_LIMIT_REQUESTS
     then Forwarded (RATE_LIMIT_REQUESTS - (k + 1))
                    (Z.max 0 (t0 + RATE_LIMIT_WINDOW_SECONDS - now))
     else TooManyRequests (Z.max 0 (t0 + RATE_LIMIT_WINDOW_SECONDS - now)))
  /\ _buckets (dispatch now r st).2 !! _resolve_client_ip r
     = Some {| window_start := t0; count := k + 1 |}.
Proof.
  intros Hb Hin. unfold dispatch.
  set (ip := _resolve_client_ip r) in *.
  rewrite (cleanup_keeps now st ip _ Hb)
    by (cbn; unfold RATE_LIMIT_WINDOW_SECONDS in *; lia).
  cbn [window_start count].
  destruct (Z.ltb_spec RATE_LIMIT_WINDOW_SECONDS (now - t0)); [lia |].
  cbn [count window_start].
  destruct (Z.ltb_spec RATE_LIMIT_REQUESTS (k + 1));
    destruct (Z.leb_spec (k + 1) RATE_LIMIT_REQUESTS); try lia;
    cbn [fst snd _buckets]; (split; [| by rewrite lookup_insert_eq]); [done |].
  f_equal. lia.
Qed.

(** A request of another client inside the window leaves the bucket. *)
Lemma dispatch_other (now : Z) (r : request) (st : limiter) (ip : string) (b : bucket) :
  _resolve_client_ip r <> ip ->
  _buckets st !! ip = Some b ->
  now - window_start b <= RATE_LIMIT_WINDOW_SECONDS ->
  _buckets (dispatch now r st).2 !! ip = Some b.
Proof.
  intros Hne Hb Hin. unfold dispatch.
  destruct (RATE_LIMIT_REQUESTS <? _); cbn [snd _buckets];
    rewrite lookup_insert_ne by done;
    apply cleanup_keeps; try done; unfold RATE_LIMIT_WINDOW_SECONDS in *; lia.
Qed.

(** The bucket of a client after a trace inside its window. *)
Lemma run_counts (trace : list (Z * request)) (st : limiter) (ip : string) (t0 k : Z) :
  _buckets st !! ip = Some {| window_start := t0; count := k |} ->
  Forall (fun tr => tr.1 - t0 <= RATE_LIMIT_WINDOW_SECONDS) trace ->
  _buckets (run trace st) !! ip = Some {| window_start := t0; count := k + seen ip trace |}.
Proof.
  intros Hb Hall. revert st k Hb.
  induction Hall as [| [t r] trace Hin _ IH]; intros st k Hb.
  - unfold seen. cbn. by rewrite Z.add_0_r.
  - cbn [run fold_left fst snd] in *. unfold seen. cbn [List.filter snd].
    destruct (String.eqb_spec (_resolve_client_ip r) ip) as [Heq | Hne].
    + rewrite <- Heq in Hb. destruct (dispatch_counts t t0 k r st Hb Hin) as [_ Hnext].
      rewrite Heq in Hnext. fold (run trace (dispatch t r st).2).
      rewrite (IH _ (k + 1) Hnext). unfold seen. cbn [length]. do 2 f_equal. lia.
    + fold (run trace (dispatch t r st).2). apply IH.
      by apply (dispatch_other t r st ip _ Hne Hb).
Qed.

(** X21.  A request of a client that has no bucket, or whose window
    started more than 60 seconds before, opens a window and is
    forwarded with 99 requests remaining.  From then on, whatever the
    other clients send, the client's k-th request of the window (those
    dispatched up to 60 seconds after the window opened) is forwarded,
    with 100 - k requests remaining, when k is at most 100, and
    answered 429 otherwise, with the seconds left in the window as
    [Retry-After]. *)
Theorem rate_limit_window :
  forall (st : limiter) (t0 t : Z) (r0 r : request) (trace : list (Z * request)),
    match _buckets st !! _resolve_client_ip r0 with
    | Some b => RATE_LIMIT_WINDOW_SECONDS < t0 - window_start b
    | None => True
    end ->
    _resolve_client_ip r = _resolve_client_ip r0 ->
    Forall (fun tr => tr.1 - t0 <= RATE_LIMIT_WINDOW_SECONDS) trace ->
    t - t0 <= RATE_LIMIT_WINDOW_SECONDS ->
    (dispatch t0 r0 st).1 = Forwarded 99 60
    /\ (dispatch t r (run trace (dispatch t0 r0 st).2)).1
       = (let k := seen (_resolve_client_ip r0) trace + 2 in
          if k <=? RATE_LIMIT_REQUESTS
          then Forwarded (RATE_LIMIT_REQUESTS - k)
                         (Z.max 0 (t0 + RATE_LIMIT_WINDOW_SECONDS - t))
          else TooManyRequests (Z.max 0 (t0 + RATE_LIMIT_WINDOW_SECONDS - t))).
Proof.
  intros st t0 t r0 r trace Hold Hsame Hall Hin.
  destruct (dispatch_opens t0 r0 st Hold) as [Hfirst Hopen].
  split; [done |].
  pose proof (run_counts trace _ _ t0 1 Hopen Hall) as Hb.
  rewrite <- Hsame in Hb.
  destruct (dispatch_counts t t0 _ r _ Hb Hin) as [Hverdict _].
  rewrite Hverdict, Hsame. cbn zeta.
  by replace (1 + seen (_resolve_client_ip r0) trace + 1)
    with (seen (_resolve_client_ip r0) trace + 2) by lia.
Qed.

(** A request from 10.0.0.1 without proxy headers. *)
Definition from_peer : request := {| headers := []; client_host := Some "10.0.0.1" |}.

Lemma rate_limit_window_witness :
  (dispatch 1000 from_peer no_requests).1 = Forwarded 99 60
  /\ (dispatch 1001 from_peer (run (repeat (1000, from_peer) 98)
                                   (dispatch 1000 from_peer no_requests).2)).1
     = Forwarded 0 59
  /\ (dispatch 1001 from_peer (run (repeat (1000, from_peer) 99)
                                   (dispatch 1000 from_peer no_requests).2)).1
     = TooManyRequests 59.
Proof.
  split; [| split].
  - refine (proj1 (rate_limit_window no_requests 1000 1000 from_peer from_peer [] _ _ _ _));
      [done | done | constructor | unfold RATE_LIMIT_WINDOW_SECONDS; lia].
  - refine (proj2 (rate_limit_window no_requests 1000 1001 from_peer from_peer
                     (repeat (1000, from_peer) 98) _ _ _ _));
      [done | done | | unfold RATE_LIMIT_WINDOW_SECONDS; lia].
    apply Forall_forall. intros tr Htr%list_elem_of_In%repeat_spec. subst.
    unfold RATE_LIMIT_WINDOW_SECONDS. cbn. lia.
  - refine (proj2 (rate_limit_window no_requests 1000 1001 from_peer from_peer
                     (repeat (1000, from_peer) 99) _ _ _ _));
      [done | done | | unfold RATE_LIMIT_WINDOW_SECONDS; lia].
    apply Forall_forall. intros tr Htr%list_elem_of_In%repeat_spec. subst.
    unfold RATE_LIMIT_WINDOW_SECONDS. cbn. lia.
Defined.

(** *** The client a request is counted for *)

Lemma lstrip_head (cs : list ascii) :
  match lstrip cs with c :: _ => isspace c = false | [] => True end.
Proof.
  induction cs as [| c cs IH]; cbn [lstrip]; [done |].
  by destruct (isspace c) eqn:Hc.
Qed.

Lemma lstrip_suffix (cs : list ascii) : exists p, cs = p ++ lstrip cs.
Proof.
  induction cs as [| c cs [p IH]]; cbn [lstrip]; [by exists [] |].
  destruct (isspace c); [| by exists []].
  exists (c :: p). cbn. by rewrite <- IH.
Qed.

(** The text of [strip] is a stretch of the string. *)
Lemma strip_middle (s : string) :
  exists p q, list_ascii_of_string s = p ++ list_ascii_of_string (strip s) ++ q.
Proof.
  unfold strip. rewrite list_ascii_of_string_of_list_ascii.
  destruct (lstrip_suffix (list_ascii_of_string s)) as [p Hp].
  destruct (lstrip_suffix (rev (lstrip (list_ascii_of_string s)))) as [q Hq].
  exists p, (rev q). rewrite <- rev_app_distr, <- Hq, rev_involutive. exact Hp.
Qed.

Lemma strip_ends (s : string) :
  (forall c rest, list_ascii_of_string (strip s) = c :: rest -> isspace c = false)
  /\ (forall c rest, rev (list_ascii_of_string (strip s)) = c :: rest -> isspace c = false).
Proof.
  unfold strip. rewrite list_ascii_of_string_of_list_ascii, rev_involutive.
  set (l := lstrip (list_ascii_of_string s)). split.
  - intros c rest Hc.
    destruct (lstrip_suffix (rev l)) as [q Hq].
    apply (f_equal (@rev ascii)) in Hq. rewrite rev_involutive, rev_app_distr, Hc in Hq.
    pose proof (lstrip_head (list_ascii_of_string s)) as Hhead. fold l in Hhead.
    rewrite Hq in Hhead. exact Hhead.
  - intros c rest Hc. pose proof (lstrip_head (rev l)) as Hhead. by rewrite Hc in Hhead.
Qed.

Lemma before_comma_no_comma (s : string) :
  ~ In ","%char (list_ascii_of_string (before_comma s)).
Proof.
  induction s as [| c s IH]; cbn; [tauto |].
  destruct (Ascii.eqb_spec c ","%char) as [-> | Hne]; cbn; [tauto |].
  intros [-> | Hin]; tauto.
Qed.

(** X22.  The client a request is counted for is taken from the first
    trusted proxy header that has a value, [X-Forwarded-For] before
    [X-Real-IP], whatever the peer address is: it is the text before the
    first comma of that value, without surrounding white space, so that
    it contains no comma and neither starts nor ends with white space.
    The peer address, or ["unknown"] when there is none, is used only
    when neither header has a value. *)
Theorem resolve_client_ip_precedence :
  forall (r : request),
    let forwarded := headers_get "X-Forwarded-For" (headers r) in
    let real := headers_get "X-Real-IP" (headers r) in
    _resolve_client_ip r
    = (if Py.opt_str_truthy forwarded then strip (before_comma (default "" forwarded))
       else if Py.opt_str_truthy real then strip (before_comma (default "" real))
       else default "unknown" (client_host r))
    /\ (Py.opt_str_truthy forwarded || Py.opt_str_truthy real = true ->
        ~ In ","%char (list_ascii_of_string (_resolve_client_ip r))
        /\ (forall c rest, list_ascii_of_string (_resolve_client_ip r) = c :: rest ->
                           isspace c = false)
        /\ (forall c rest, rev (list_ascii_of_string (_resolve_client_ip r)) = c :: rest ->
                           isspace c = false)).
Proof.
  intros r forwarded real.
  assert (forall v, ~ In ","%char (list_ascii_of_string (strip (before_comma v)))) as Hcomma.
  { intros v Hin. destruct (strip_middle (before_comma v)) as (p & q & Hmid).
    apply (before_comma_no_comma v). rewrite Hmid.
    apply in_or_app. right. apply in_or_app. by left. }
  assert (_resolve_client_ip r
          = (if Py.opt_str_truthy forwarded then strip (before_comma (default "" forwarded))
             else if Py.opt_str_truthy real then strip (before_comma (default "" real))
             else default "unknown" (client_host r))) as Heq.
  { unfold _resolve_client_ip, TRUSTED_PROXY_HEADERS. cbn [first_trusted].
    fold forwarded real.
    destruct forwarded as [[| c v] |]; cbn [Py.opt_str_truthy Py.str_truthy default];
      try done; destruct real as [[| c' v'] |]; done. }
  split; [exact Heq |]. intros Hsome. rewrite Heq.
  destruct (Py.opt_str_truthy forwarded).
  - split; [apply Hcomma | apply strip_ends].
  - cbn in Hsome. rewrite Hsome. split; [apply Hcomma | apply strip_ends].
Qed.

(** A request that came through a proxy. *)
Definition through_proxy : request :=
  {| headers := [("host", "api"); ("x-real-ip", "10.0.0.9");
                 ("x-forwarded-for", " 203.0.113.7 , 10.0.0.9")];
     client_host := Some "10.0.0.9" |}.

Lemma resolve_client_ip_precedence_witness :
  _resolve_client_ip through_proxy = "203.0.113.7"
  /\ ~ In ","%char (list_ascii_of_string (_resolve_client_ip through_proxy)).
Proof.
  split; [reflexivity |].
  refine (proj1 (proj2 (resolve_client_ip_precedence through_proxy) _)). reflexivity.
Defined.

End RateLimitProofs.

(** ** Queries *)

Module QueriesProofs.
Import Py Records Audits Queries.

(** *** An engine: insertion sort, groups in the order found *)

Fixpoint insert_desc {A : Type} (key : A -> Z) (x : A) (rows : list A) : list A :=
  match rows with
  | [] => [x]
  | y :: rest => if key y <? key x then x :: rows else y :: insert_desc key x rest
  end.

Fixpoint sort_desc {A : Type} (key : A -> Z) (rows : list A) : list A :=
  match rows with
  | [] => []
  | x :: rest => insert_desc key x (sort_desc key rest)
  end.

Lemma insert_desc_permutes {A : Type} (key : A -> Z) (x : A) (rows : list A) :
  Permutation (insert_desc key x rows) (x :: rows).
Proof.
  induction rows as [| y rest IH]; cbn; [done |].
  destruct (key y <? key x); [done |].
  rewrite IH. apply perm_swap.
Qed.

Lemma sort_desc_permutes {A : Type} (key : A -> Z) (rows : list A) :
  Permutation (sort_desc key rows) rows.
Proof.
  induction rows as [| x rest IH]; cbn; [done |].
  by rewrite insert_desc_permutes, IH.
Qed.

Lemma insert_desc_sorts {A : Type} (key : A -> Z) (x : A) (rows : list A) :
  StronglySorted (fun a b => key b <= key a) rows ->
  StronglySorted (fun a b => key b <= key a) (insert_desc key x rows).
Proof.
  induction 1 as [| y rest Hsorted IH Hall]; cbn.
  - constructor; [constructor | constructor].
  - destruct (Z.ltb_spec (key y) (key x)).
    + constructor; [by constructor |]. constructor; [lia |].
      eapply Forall_impl; [exact Hall |]. cbn. intros z Hz. lia.
    + constructor; [exact IH |].
      rewrite (insert_desc_permutes key x rest). constructor; [lia | exact Hall].
Qed.

Lemma sort_desc_sorts {A : Type} (key : A -> Z) (rows : list A) :
  StronglySorted (fun a b => key b <= key a) (sort_desc key rows).
Proof.
  induction rows as [| x rest IH]; cbn; [constructor |]. by apply insert_desc_sorts.
Qed.

Definition insertion_engine : Engine :=
  {| order_by_desc := @sort_desc;
     order_by_desc_permutes := @sort_desc_permutes;
     order_by_desc_sorts := @sort_desc_sorts;
     group_order := fun groups => groups;
     group_order_permutes := fun groups => Permutation_refl groups |}.

(** *** Slices of a sorted list *)

Lemma StronglySorted_app_inv {A : Type} (R : A -> A -> Prop) (l1 l2 : list A) :
  StronglySorted R (l1 ++ l2) ->
  StronglySorted R l1 /\ StronglySorted R l2
  /\ (forall a b, In a l1 -> In b l2 -> R a b).
Proof.
  induction l1 as [| x l1 IH]; cbn; intros Hsorted.
  - split; [constructor |]. split; [done |]. intros a b [].
  - apply StronglySorted_inv in Hsorted as [Hrest Hall].
    destruct (IH Hrest) as (H1 & H2 & Hcross).
    rewrite Forall_app in Hall. destruct Hall as [Hall1 Hall2].
    split; [by constructor |]. split; [done |].
    intros a b [<- | Ha] Hb; [| by apply Hcross].
    eapply Forall_forall in Hall2; [exact Hall2 | by apply list_elem_of_In].
Qed.

(** A page of a sorted list: sorted, no longer than asked for, made of
    rows of the list, and none of the rows after it ranks before one of
    its rows. *)
Lemma page_of_sorted {A : Type} (R : A -> A -> Prop) (offset limit : nat) (l : list A) :
  StronglySorted R l ->
  StronglySorted R (take limit (drop offset l))
  /\ length (take limit (drop offset l)) = Nat.min limit (length l - offset)
  /\ (forall a, In a (take limit (drop offset l)) -> In a l)
  /\ (forall a b, In a (take limit (drop offset l)) ->
                  In b (drop limit (drop offset l)) -> R a b).
Proof.
  intros Hsorted.
  rewrite <- (take_drop offset l) in Hsorted.
  apply StronglySorted_app_inv in Hsorted as (_ & Hdrop & _).
  pose proof Hdrop as Hpage. rewrite <- (take_drop limit (drop offset l)) in Hpage.
  apply StronglySorted_app_inv in Hpage as (Htake & _ & Hcross).
  split; [done |]. split; [by rewrite length_take, length_drop |]. split; [| done].
  intros a Ha. rewrite <- (take_drop offset l). apply in_or_app. right.
  rewrite <- (take_drop limit (drop offset l)). apply in_or_app. by left.
Qed.

Section Statements.
Context `{Engine}.

Lemma offset_limit_returns {A : Type} (offset limit : Z) (rows : list A) :
  0 <= offset -> 0 <= limit ->
  offset_limit offset limit rows
  = Returned (take (Z.to_nat limit) (drop (Z.to_nat offset) rows)).
Proof.
  intros Ho Hl. unfold offset_limit.
  destruct (Z.ltb_spec offset 0); [lia |]. by destruct (Z.ltb_spec limit 0); [lia |].
Qed.

Lemma In_selected (source_key : option string) (table : list Row) (row : Row) :
  In row (selected source_key table) <->
  In row table
  /\ (opt_str_truthy source_key = true ->
      Records.source_key (columns row) = default "" source_key).
Proof.
  unfold selected. destruct (opt_str_truthy source_key).
  - rewrite filter_In. unfold of_source. rewrite String.eqb_eq. tauto.
  - intuition discriminate.
Qed.

(** X23.  [get_paginated] for a page number from 1 and a page size from
    0: [total] is the number of stored rows of the source (of all rows
    when no source key or an empty one is given), whatever the page;
    the page holds [page_size] rows, or what is left of the rows after
    the earlier pages, or none; its rows are stored rows of the source,
    latest [fetched_at] first.  A page number below 1 with a positive
    page size makes the database refuse the statement. *)
Theorem get_paginated_page :
  forall (source_key : option string) (page page_size : Z) (table : list Row),
    (1 <= page -> 0 <= page_size ->
     exists rows : list Row,
       get_paginated source_key page page_size table
       = Returned (Z.of_nat (length (selected source_key table)), rows)
       /\ Z.of_nat (length rows)
          = Z.min page_size
              (Z.max 0 (Z.of_nat (length (selected source_key table))
                        - (page - 1) * page_size))
       /\ (forall row, In row rows -> In row (selected source_key table))
       /\ StronglySorted (fun a b => fetched_at b <= fetched_at a) rows)
    /\ (forall row, In row (selected source_key table) <->
                    In row table
                    /\ (opt_str_truthy source_key = true ->
                        Records.source_key (columns row) = default "" source_key))
    /\ get_paginated (Some "") page page_size table
       = get_paginated None page page_size table
    /\ (page < 1 -> 0 < page_size ->
        get_paginated source_key page page_size table
        = Raises (OtherError "OFFSET must not be negative")).
Proof.
  intros source_key page page_size table.
  split; [| split; [apply In_selected | split; [done |]]].
  - intros Hpage Hsize. unfold get_paginated.
    rewrite offset_limit_returns by nia. eexists. split; [reflexivity |].
    destruct (page_of_sorted (fun a b => fetched_at b <= fetched_at a)
                (Z.to_nat ((page - 1) * page_size)) (Z.to_nat page_size)
                (order_by_desc fetched_at (selected source_key table))
                (order_by_desc_sorts fetched_at _)) as (Hsorted & Hlen & Hin & _).
    split; [| split; [| done]].
    + rewrite Hlen, (Permutation_length (order_by_desc_permutes fetched_at _)). nia.
    + intros row Hrow%Hin.
      by apply (Permutation_in _ (order_by_desc_permutes fetched_at _)).
  - intros Hpage Hsize. unfold get_paginated, offset_limit.
    by destruct (Z.ltb_spec ((page - 1) * page_size) 0); [| nia].
Qed.

(** X24.  [AuditRepository.recent(limit)], for a limit from 0, returns
    [limit] audit rows, or all of them when there are fewer, latest
    [created_at] first, and no audit row left out is later than one
    returned. *)
Theorem recent_returns_the_latest :
  forall (limit : Z) (audits : list AuditRow),
    0 <= limit ->
    exists rows rest : list AuditRow,
      recent limit audits = Returned rows
      /\ Z.of_nat (length rows) = Z.min limit (Z.of_nat (length audits))
      /\ Permutation (rows ++ rest) audits
      /\ StronglySorted (fun a b => created_at b <= created_at a) rows
      /\ (forall a b, In a rows -> In b rest -> created_at b <= created_at a).
Proof.
  intros limit audits Hlimit. unfold recent.
  rewrite offset_limit_returns by lia. change (Z.to_nat 0) with 0%nat. rewrite drop_0.
  exists (take (Z.to_nat limit) (order_by_desc created_at audits)),
         (drop (Z.to_nat limit) (order_by_desc created_at audits)).
  destruct (page_of_sorted (fun a b => created_at b <= created_at a) 0 (Z.to_nat limit)
              (order_by_desc created_at audits) (order_by_desc_sorts created_at _))
    as (Hsorted & Hlen & _ & Hcross).
  rewrite !drop_0 in *. split; [done |]. split; [| split; [| split; [done |]]].
  - rewrite Hlen, (Permutation_length (order_by_desc_permutes created_at _)). lia.
  - rewrite take_drop. apply order_by_desc_permutes.
  - intros a b Ha Hb. by apply (Hcross a b).
Qed.

End Statements.

(** *** Groups *)

Definition total (values : list Z) : Z := fold_right Z.add 0 values.

Lemma total_cons (v : Z) (values : list Z) : total (v :: values) = v + total values.
Proof. reflexivity. Qed.

Lemma total_permutes (l l' : list Z) : Permutation l l' -> total l = total l'.
Proof. unfold total. induction 1; cbn in *; lia. Qed.

Lemma in_group_spec (g : string * string) (row : Row) :
  in_group g row = true <-> group_of row = g.
Proof.
  unfold in_group, group_of. destruct g as [k u]. cbn.
  rewrite andb_true_iff, !String.eqb_eq. split; [by intros [-> ->] | by intros [= -> ->]].
Qed.

(** The number of rows of a group. *)
Definition size_of (table : list Row) (g : string * string) : Z :=
  Z.of_nat (length (List.filter (in_group g) table)).

Lemma total_indicator (groups : list (string * string)) (row : Row) :
  NoDup groups -> group_of row ∈ groups ->
  total (map (fun g => if in_group g row then 1 else 0) groups) = 1.
Proof.
  induction 1 as [| g groups Hnotin Hnd IH]; [by intros ?%elem_of_nil |].
  cbn [map]. rewrite total_cons. intros [Heq | Hin]%elem_of_cons.
  - rewrite (proj2 (in_group_spec g row)) by done.
    assert (total (map (fun g => if in_group g row then 1 else 0) groups) = 0) as ->; [| lia].
    clear IH Hnd. induction groups as [| g' groups IH]; [done |]. cbn [map].
    rewrite total_cons. apply not_elem_of_cons in Hnotin as [Hne Hnotin].
    destruct (in_group g' row) eqn:Hg'; [| by rewrite IH].
    apply in_group_spec in Hg'. congruence.
  - destruct (in_group g row) eqn:Hg; [| by rewrite IH].
    apply in_group_spec in Hg. congruence.
Qed.

Lemma total_sizes (table : list Row) (groups : list (string * string)) :
  NoDup groups -> (forall row, In row table -> group_of row ∈ groups) ->
  total (map (size_of table) groups) = Z.of_nat (length table).
Proof.
  intros Hnd. induction table as [| row table IH]; intros Hall.
  - clear. induction groups as [| g groups IHg]; [done |].
    cbn [map]. rewrite total_cons, IHg. done.
  - assert (total (map (size_of (row :: table)) groups)
            = total (map (size_of table) groups)
              + total (map (fun g => if in_group g row then 1 else 0) groups)) as ->.
    { clear. induction groups as [| g groups IHg]; [done |]. cbn [map].
      rewrite !total_cons, IHg.
      unfold size_of. cbn [List.filter]. destruct (in_group g row); cbn [length]; lia. }
    rewrite IH by (intros r Hr; apply Hall; by right).
    rewrite total_indicator by (try done; apply Hall; by left). cbn [length]. lia.
Qed.

Lemma fold_max (rest : list Z) (v : Z) :
  (fold_left Z.max rest v = v \/ In (fold_left Z.max rest v) rest)
  /\ v <= fold_left Z.max rest v
  /\ (forall x, In x rest -> x <= fold_left Z.max rest v).
Proof.
  revert v. induction rest as [| y rest IH]; intros v; cbn; [by split; [left | split] |].
  destruct (IH (Z.max v y)) as (Hin & Hle & Hall). split; [| split].
  - destruct Hin as [-> | Hin]; [| by right; right].
    destruct (Z.max_spec v y) as [[_ ->] | [_ ->]]; [right; by left | by left].
  - lia.
  - intros x [<- | Hx]; [lia | by apply Hall].
Qed.

Lemma sql_max_spec (values : list Z) :
  values <> [] ->
  exists m, sql_max values = Some m /\ In m values /\ (forall x, In x values -> x <= m).
Proof.
  destruct values as [| v rest]; [done |]. intros _. cbn [sql_max].
  destruct (fold_max rest v) as (Hin & Hle & Hall).
  exists (fold_left Z.max rest v). split; [done |]. split.
  - destruct Hin as [-> | Hin]; [by left | by right].
  - intros x [<- | Hx]; [done | by apply Hall].
Qed.

Section Groups.
Context `{Engine}.

Lemma source_summary_eq (table : list Row) :
  source_summary table
  = map (fun g => {| group_key := g.1; group_url := g.2; cnt := size_of table g;
                     last_fetch := sql_max (map fetched_at (List.filter (in_group g) table)) |})
        (group_order (remove_dups (map group_of table))).
Proof. reflexivity. Qed.

Lemma groups_listed (table : list Row) (g : string * string) :
  In g (group_order (remove_dups (map group_of table))) <->
  exists row, In row table /\ group_of row = g.
Proof.
  rewrite <- list_elem_of_In, (group_order_permutes _), elem_of_remove_dups, list_elem_of_In.
  rewrite in_map_iff. split; intros (row & Hrow); exists row; tauto.
Qed.

(** X25.  [source_summary()] partitions the table: its counts add up
    to the number of stored rows; no (source_key, source_url) pair is
    listed twice; every stored row belongs to a group listed; and each
    group listed counts its rows, at least one, and carries the
    [fetched_at] of one of them that none of them exceeds. *)
Theorem source_summary_partitions :
  forall table : list Row,
    total (map cnt (source_summary table)) = Z.of_nat (length table)
    /\ List.NoDup (map (fun s => (group_key s, group_url s)) (source_summary table))
    /\ (forall row, In row table ->
          exists s, In s (source_summary table)
                    /\ group_of row = (group_key s, group_url s))
    /\ (forall s, In s (source_summary table) ->
          cnt s = size_of table (group_key s, group_url s)
          /\ 1 <= cnt s
          /\ exists row,
               In row table
               /\ group_of row = (group_key s, group_url s)
               /\ last_fetch s = Some (fetched_at row)
               /\ (forall row', In row' table ->
                     group_of row' = (group_key s, group_url s) ->
                     fetched_at row' <= fetched_at row)).
Proof.
  intros table. rewrite source_summary_eq.
  set (groups := group_order (remove_dups (map group_of table))).
  assert (NoDup groups) as Hnd.
  { unfold groups. rewrite (group_order_permutes _). apply NoDup_remove_dups. }
  split; [| split; [| split]].
  - rewrite map_map. cbn [cnt]. apply total_sizes; [done |].
    intros row Hrow. apply list_elem_of_In, groups_listed. by exists row.
  - rewrite map_map. cbn [group_key group_url].
    replace (map (fun x : string * string => (x.1, x.2)) groups) with groups;
      [by apply NoDup_ListNoDup |].
    clearbody groups. clear. induction groups as [| [k u] groups IH]; cbn; congruence.
  - intros row Hrow. eexists. split.
    + apply in_map. apply groups_listed. by exists row.
    + cbn [group_key group_url]. by destruct (group_of row).
  - intros s (g & <- & Hg)%in_map_iff. cbn [cnt group_key group_url last_fetch].
    replace (g.1, g.2) with g by (by destruct g).
    apply groups_listed in Hg as (row0 & Hrow0 & Hg0).
    assert (In row0 (List.filter (in_group g) table)) as Hin0
      by (apply filter_In; split; [done | by apply in_group_spec]).
    split; [done |]. split.
    { unfold size_of. destruct (List.filter (in_group g) table); [done | cbn; lia]. }
    destruct (sql_max_spec (map fetched_at (List.filter (in_group g) table)))
      as (m & Hmax & Hm & Hall).
    { destruct (List.filter (in_group g) table); [done | discriminate]. }
    apply in_map_iff in Hm as (row & <- & [Hrow Hgrp]%filter_In).
    exists row. split; [done |]. split; [by apply in_group_spec |]. split; [done |].
    intros row' Hrow' Hg'. apply Hall, in_map, filter_In. split; [done |].
    by apply in_group_spec.
Qed.

End Groups.

(** *** Closed examples *)

Definition a_row (i t : Z) (key : string) : Row :=
  {| id := i; fetched_at := t;
     columns := {| Records.source_key := key; Records.source_url := "https://x/" +:+ key;
                   external_id := Some i; payload := RecordsProofs.item i "A";
                   checksum := None |} |}.

Definition an_audit (i t : Z) : AuditRow :=
  {| audit_id := i; created_at := t;
     audit := {| Audits.source_url := "https://x/posts"; Audits.source_key := "posts";
                 status := "ok"; records_fetched := 1; records_changed := 0;
                 Audits.duration_ms := 5; error_detail := None;
                 triggered_by := "scheduler" |} |}.

Lemma get_paginated_page_witness :
  @get_paginated insertion_engine (Some "posts") 2 2
    [a_row 1 10 "posts"; a_row 2 30 "users"; a_row 3 20 "posts"; a_row 4 40 "posts"]
  = Returned (3, [a_row 1 10 "posts"])
  /\ exists rows : list Row,
       @get_paginated insertion_engine (Some "posts") 1 2
         [a_row 1 10 "posts"; a_row 2 30 "users"; a_row 3 20 "posts"; a_row 4 40 "posts"]
       = Returned (3, rows)
       /\ Z.of_nat (length rows) = 2.
Proof.
  split; [reflexivity |].
  destruct (proj1 (@get_paginated_page insertion_engine (Some "posts") 1 2
              [a_row 1 10 "posts"; a_row 2 30 "users"; a_row 3 20 "posts";
               a_row 4 40 "posts"]))
    as (rows & Hrun & Hlen & _); [lia | lia |].
  exists rows. split; [exact Hrun | exact Hlen].
Defined.

Lemma recent_returns_the_latest_witness :
  @recent insertion_engine 2 [an_audit 1 10; an_audit 2 30; an_audit 3 20]
  = Returned [an_audit 2 30; an_audit 3 20]
  /\ exists rows rest : list AuditRow,
       @recent insertion_engine 2 [an_audit 1 10; an_audit 2 30; an_audit 3 20]
       = Returned rows
       /\ Z.of_nat (length rows) = Z.min 2 3.
Proof.
  split; [reflexivity |].
  destruct (@recent_returns_the_latest insertion_engine 2
              [an_audit 1 10; an_audit 2 30; an_audit 3 20])
    as (rows & rest & Hrun & Hlen & _); [lia |].
  exists rows, rest. split; [exact Hrun | exact Hlen].
Defined.

End QueriesProofs.

(** ** Aggregate summary *)

Module SummaryProofs.
Import Py Cache Records CacheAdmin Queries Summary CacheProofs.

(** *** Stand-ins for the datetime text and the validation *)

(** A datetime written as its clock reading in decimal. *)
Definition epoch_text : Datetimes :=
  {| datetime_str := fun d => NilEmpty.string_of_int (Z.to_int d) |}.

Definition read_datetime (v : pyval) : option Z :=
  match v with
  | PStr s => Z.of_int <$> NilEmpty.int_of_string s
  | _ => None
  end.

(** A validation that reads the members of a dumped model by position. *)
Definition read_source (v : pyval) : option SourceResult :=
  match v with
  | PDict [(_, PStr key); (_, PStr url); (_, PInt n); (_, fetched); (_, PInt ms);
           (_, PStr st)] =>
      match fetched with
      | PNone =>
          Some {| source_key := key; source_url := url; record_count := n;
                  last_fetch := None; duration_ms := ms; status := st |}
      | _ =>
          d ← read_datetime fetched;
          Some {| source_key := key; source_url := url; record_count := n;
                  last_fetch := Some d; duration_ms := ms; status := st |}
      end
  | _ => None
  end.

Fixpoint read_sources (items : list pyval) : option (list SourceResult) :=
  match items with
  | [] => Some []
  | v :: rest => s ← read_source v; l ← read_sources rest; Some (s :: l)
  end.

Definition read_response (v : pyval) : result AggregateResponse :=
  match v with
  | PDict [(_, PInt n); (_, PList items); (_, at_); (_, PStr st)] =>
      match read_sources items, read_datetime at_ with
      | Some l, Some d =>
          Returned {| total_records := n; sources := l; aggregated_at := d;
                      cache_status := Some st |}
      | _, _ => Raises (OtherError "ValidationError")
      end
  | _ => Raises (OtherError "ValidationError")
  end.

Lemma read_datetime_dumped (d : Z) :
  read_datetime (json_loads (encode (@dump_datetime epoch_text d))) = Some d.
Proof. cbn. rewrite NilEmpty.isi. cbn. by rewrite DecimalZ.of_to. Qed.

Lemma read_sources_dumped (l : list SourceResult) :
  read_sources (map json_loads (map encode (map (@dump_source epoch_text) l))) = Some l.
Proof.
  induction l as [| [key url n fetched ms st] l IH]; [done |].
  cbn [map read_sources]. rewrite IH.
  destruct fetched as [d |]; cbn; [| done].
  rewrite NilEmpty.isi. cbn. by rewrite DecimalZ.of_to.
Qed.

Lemma read_response_dumped (r : AggregateResponse) (s : string) (document : json)
    (value : pyval) :
  json_dumps (@model_dump epoch_text r) = Returned document ->
  setitem (json_loads document) "cache_status" (PStr s) = Returned value ->
  read_response value = Returned (with_status s r).
Proof.
  intros [_ ->]%json_dumps_returned.
  destruct r as [n l d st]. cbn. intros [= <-]. cbn.
  rewrite read_sources_dumped, NilEmpty.isi. cbn. by rewrite DecimalZ.of_to.
Qed.

Definition reading_back : @Pydantic epoch_text :=
  {| validate := read_response; validate_model_dump := read_response_dumped |}.

(** *** Reading through the cache *)

Section Reads.
Context `{Datetimes} `{Hashlib} `{Engine} `{!Pydantic} `{RedisServer}.

(** The key under which the summary is cached. *)
Definition summary_key : string := build_key [Text "aggregate_summary"].

(** A dumped response is a value the encoder does not refuse. *)
Lemma model_dump_dumps (r : AggregateResponse) :
  json_dumps (model_dump r) = Returned (encode (model_dump r)).
Proof.
  apply json_dumps_encodable. destruct r as [n l d st]. cbn. rewrite andb_true_r.
  assert (forallb encodable (map dump_source l) = true) as ->;
    [| by destruct st].
  induction l as [| [key url m fetched ms status] l IH]; [done |].
  cbn [map forallb]. rewrite IH. by destruct fetched.
Qed.

(** What is written for the responses is accepted by the server. *)
Lemma cache_set_dumped (now : Z) (r : AggregateResponse) (keys : gmap string entry) :
  cache_set now summary_key (model_dump r) CACHE_TTL_WARM (serving keys)
  = Returned (serving (written now summary_key (model_dump r) CACHE_TTL_WARM keys)).
Proof.
  destruct (accepts_ttl now CACHE_TTL_WARM) as [Httl Hstale];
    [unfold CACHE_TTL_WARM, CACHE_TTL_COLD; lia |].
  by apply (cache_set_serving now summary_key (model_dump r) (encode (model_dump r))
              CACHE_TTL_WARM keys (model_dump_dumps r)).
Qed.

(** The value [cache_get] returns for a cached response. *)
Definition cached (r : AggregateResponse) : pyval := json_loads (encode (model_dump r)).

Lemma cached_truthy (r : AggregateResponse) : truthy (cached r) = true.
Proof. reflexivity. Qed.

Lemma cached_validates (r : AggregateResponse) (s : string) :
  (value' ← setitem (cached r) "cache_status" (PStr s); validate value')
  = Returned (with_status s r).
Proof.
  destruct (setitem (cached r) "cache_status" (PStr s)) as [value | e] eqn:Hset; [| done].
  cbn. eapply validate_model_dump; [apply model_dump_dumps | exact Hset].
Qed.

(** Nothing to read under the key: the summary is computed and cached. *)
Lemma summary_miss (now utcnow : Z) (table : list Row) (keys : gmap string entry)
    (counters : stats) :
  GET now summary_key keys = None ->
  get_aggregate_summary now utcnow table (serving keys) counters
  = (Returned (summarise utcnow table),
     {| cache := serving (written now summary_key (model_dump (summarise utcnow table))
                            CACHE_TTL_WARM keys);
        counters := record_miss counters;
        scheduled := None |}).
Proof.
  intros Hnone. unfold get_aggregate_summary. fold summary_key.
  rewrite cache_get_serving, Hnone. cbn [truthy andb]. by rewrite cache_set_dumped.
Qed.

(** A cached response that is fresh is served. *)
Lemma summary_hit (now elapsed utcnow : Z) (table : list Row) (keys : gmap string entry)
    (counters : stats) (r : AggregateResponse) :
  0 <= elapsed < CACHE_TTL_WARM ->
  get_aggregate_summary (now + elapsed) utcnow table
    (serving (written now summary_key (model_dump r) CACHE_TTL_WARM keys)) counters
  = (Returned (with_status "HIT" r),
     {| cache := serving (written now summary_key (model_dump r) CACHE_TTL_WARM keys);
        counters := record_hit false counters;
        scheduled := None |}).
Proof.
  intros Hfresh. unfold get_aggregate_summary. fold summary_key.
  rewrite (cache_get_written _ _ _ _ _ _ _ (model_dump_dumps r)). unfold answer.
  destruct (Z.ltb_spec elapsed CACHE_TTL_WARM); [| lia].
  fold (cached r). rewrite cached_truthy. cbn [andb negb]. by rewrite cached_validates.
Qed.

(** A cached response that is stale is served and a revalidation scheduled. *)
Lemma summary_stale (now elapsed utcnow : Z) (table : list Row) (keys : gmap string entry)
    (counters : stats) (r : AggregateResponse) :
  CACHE_TTL_WARM <= elapsed < CACHE_TTL_WARM + CACHE_STALE_GRACE ->
  get_aggregate_summary (now + elapsed) utcnow table
    (serving (written now summary_key (model_dump r) CACHE_TTL_WARM keys)) counters
  = (Returned (with_status "STALE" r),
     {| cache := serving (written now summary_key (model_dump r) CACHE_TTL_WARM keys);
        counters := record_hit true counters;
        scheduled := Some summary_key |}).
Proof.
  intros Hstale. unfold get_aggregate_summary. fold summary_key.
  rewrite (cache_get_written _ _ _ _ _ _ _ (model_dump_dumps r)). unfold answer.
  destruct (Z.ltb_spec elapsed CACHE_TTL_WARM); [lia |].
  destruct (Z.ltb_spec elapsed (CACHE_TTL_WARM + CACHE_STALE_GRACE)); [| lia].
  fold (cached r). rewrite cached_truthy. cbn [andb negb]. by rewrite cached_validates.
Qed.

Lemma summarise_total (utcnow : Z) (table : list Row) :
  total_records (summarise utcnow table) = Z.of_nat (length table).
Proof.
  unfold summarise. cbn [total_records]. rewrite map_map. cbn [record_count].
  fold (QueriesProofs.total (map cnt (source_summary table))).
  rewrite QueriesProofs.source_summary_eq, map_map. cbn [cnt].
  apply QueriesProofs.total_sizes.
  - rewrite (group_order_permutes _). apply NoDup_remove_dups.
  - intros row Hrow. apply list_elem_of_In, QueriesProofs.groups_listed. by exists row.
Qed.

(** X26.  With nothing cached, [get_aggregate_summary] computes the
    summary from the table, whose [total_records] is the number of
    stored rows, counts a miss and caches it; for the next 300 seconds
    a call returns that summary again, with status HIT, and counts a
    hit, whatever the table has become meanwhile. *)
Theorem aggregate_summary_miss_then_hit :
  forall (now elapsed utcnow utcnow' : Z) (table table' : list Row)
         (keys : gmap string entry) (counters : stats),
    GET now summary_key keys = None ->
    0 <= elapsed < CACHE_TTL_WARM ->
    let first := get_aggregate_summary now utcnow table (serving keys) counters in
    let second :=
      get_aggregate_summary (now + elapsed) utcnow' table' (cache first.2)
                            (Summary.counters first.2) in
    first.1 = Returned (summarise utcnow table)
    /\ total_records (summarise utcnow table) = Z.of_nat (length table)
    /\ cache_status (summarise utcnow table) = Some "MISS"
    /\ Summary.counters first.2 = record_miss counters
    /\ second.1 = Returned (with_status "HIT" (summarise utcnow table))
    /\ Summary.counters second.2 = record_hit false (record_miss counters)
    /\ cache second.2 = cache first.2
    /\ scheduled second.2 = None.
Proof.
  intros now elapsed utcnow utcnow' table table' keys counters Hnone Hfresh first second.
  subst second first. rewrite (summary_miss now utcnow table keys counters Hnone).
  cbn [fst snd cache Summary.counters]. rewrite summary_hit by done.
  repeat split; try done. apply summarise_total.
Qed.

(** X27.  From 300 up to 360 seconds after the summary was cached, a
    call returns the cached summary with status STALE, counts a stale
    hit and schedules a revalidation of the key, leaving the store as
    it is.  Once the revalidation has run, calls in the 300 seconds
    that follow return the summary it computed from the table it saw,
    with status HIT. *)
Theorem aggregate_summary_stale_then_revalidated :
  forall (now elapsed later elapsed' utcnow utcnow' utcnow'' : Z)
         (table table' table'' : list Row) (keys : gmap string entry)
         (counters : stats) (r : AggregateResponse),
    CACHE_TTL_WARM <= elapsed < CACHE_TTL_WARM + CACHE_STALE_GRACE ->
    0 <= elapsed' < CACHE_TTL_WARM ->
    let store := serving (written now summary_key (model_dump r) CACHE_TTL_WARM keys) in
    let stale := get_aggregate_summary (now + elapsed) utcnow table store counters in
    let store' := _revalidate_aggregate later utcnow' table' summary_key (cache stale.2) in
    stale.1 = Returned (with_status "STALE" r)
    /\ Summary.counters stale.2 = record_hit true counters
    /\ scheduled stale.2 = Some summary_key
    /\ cache stale.2 = store
    /\ (get_aggregate_summary (later + elapsed') utcnow'' table'' store' counters).1
       = Returned (with_status "HIT" (summarise utcnow' table')).
Proof.
  intros now elapsed later elapsed' utcnow utcnow' utcnow'' table table' table'' keys
         counters r Hstale Hfresh store stale store'.
  subst store' stale store. rewrite summary_stale by done.
  cbn [fst snd cache Summary.counters scheduled]. repeat split.
  unfold _revalidate_aggregate. rewrite cache_set_dumped. cbv iota beta.
  by rewrite summary_hit.
Qed.

(** X28.  After a refresh that returns on a reachable store, the next
    call of [get_aggregate_summary] does not serve what was cached
    before: it computes the summary from the table it sees, with status
    MISS and the number of stored rows as [total_records], and counts a
    miss. *)
Theorem aggregate_summary_after_refresh :
  forall (env : Fetcher.environment) (now now' utcnow : Z) (sources : list string)
         (by_ : string) (w : Aggregator.world) (keys : gmap string entry)
         (response : Aggregator.RefreshResponse) (table : list Row) (counters : stats),
    Aggregator.cache w = serving keys ->
    (Aggregator.refresh_data env now sources by_ w).1 = Returned response ->
    now <= now' ->
    let read :=
      get_aggregate_summary now' utcnow table
        (Aggregator.cache (Aggregator.refresh_data env now sources by_ w).2) counters in
    read.1 = Returned (summarise utcnow table)
    /\ cache_status (summarise utcnow table) = Some "MISS"
    /\ total_records (summarise utcnow table) = Z.of_nat (length table)
    /\ Summary.counters read.2 = record_miss counters.
Proof.
  intros env now now' utcnow sources by_ w keys response table counters Hcache Hrun Hle read.
  subst read. unfold Aggregator.refresh_data in *.
  destruct (Fetcher.fetch_sources env sources (Aggregator.circuit w)) as [[raw c] log].
  unfold Aggregator.refresh_results in *. rewrite Hcache in *.
  destruct (Aggregator.handle_all by_ raw _) as [st | e]; [| done].
  cbn in Hrun |- *.
  rewrite summary_miss by (unfold summary_key, build_key;
                           by apply CacheAdminProofs.invalidated_prefix).
  repeat split; try done. exact (summarise_total utcnow table).
Qed.

End Reads.

(** *** Closed examples *)

Definition three_rows : list Row :=
  [QueriesProofs.a_row 1 10 "posts"; QueriesProofs.a_row 2 30 "users";
   QueriesProofs.a_row 3 20 "posts"].

Definition summary_of (utcnow : Z) (table : list Row) : AggregateResponse :=
  @summarise QueriesProofs.insertion_engine utcnow table.

Definition read_summary (now utcnow : Z) (table : list Row) (store : redis) (counters : stats)
  : result AggregateResponse * effects :=
  @get_aggregate_summary epoch_text RecordsProofs.plain_text QueriesProofs.insertion_engine
    reading_back plain_server now utcnow table store counters.

Lemma aggregate_summary_miss_then_hit_witness :
  total_records (summary_of 5000 three_rows) = 3
  /\ (read_summary (1000 + 10) 5010 []
        (cache (read_summary 1000 5000 three_rows (serving ∅) no_stats).2)
        (counters (read_summary 1000 5000 three_rows (serving ∅) no_stats).2)).1
     = Returned (with_status "HIT" (summary_of 5000 three_rows)).
Proof.
  split; [reflexivity |].
  refine (proj1 (proj2 (proj2 (proj2 (proj2
    (@aggregate_summary_miss_then_hit epoch_text RecordsProofs.plain_text
       QueriesProofs.insertion_engine reading_back plain_server
       1000 10 5000 5010 three_rows [] ∅ no_stats _ _)))))).
  - reflexivity.
  - unfold CACHE_TTL_WARM. lia.
Defined.

Lemma aggregate_summary_stale_then_revalidated_witness :
  (read_summary (1000 + 300) 5300 three_rows
     (serving (written 1000 (@summary_key RecordsProofs.plain_text)
                       (@model_dump epoch_text (summary_of 5000 [])) CACHE_TTL_WARM ∅))
     no_stats).1
  = Returned (with_status "STALE" (summary_of 5000 [])).
Proof.
  refine (proj1
    (@aggregate_summary_stale_then_revalidated epoch_text RecordsProofs.plain_text
       QueriesProofs.insertion_engine reading_back plain_server
       1000 300 1301 10 5300 5301 5311 three_rows three_rows three_rows ∅ no_stats
       (summary_of 5000 []) _ _));
    unfold CACHE_TTL_WARM, CACHE_STALE_GRACE; lia.
Defined.

Lemma aggregate_summary_after_refresh_witness :
  (read_summary 1001 5001 three_rows
     (Aggregator.cache
        (@Aggregator.refresh_data RecordsProofs.plain_text plain_server
           (AggregatorProofs.answering [RecordsProofs.item 1 "A"]) 1000
           ["https://x/posts"] "manual"
           {| Aggregator.circuit := ∅;
              Aggregator.db := AggregatorProofs.empty_db;
              Aggregator.cache :=
                serving (written 990 (@summary_key RecordsProofs.plain_text)
                                 (@model_dump epoch_text (summary_of 4990 []))
                                 CACHE_TTL_WARM ∅) |}).2)
     no_stats).1
  = Returned (summary_of 5001 three_rows).
Proof.
  refine (proj1
    (@aggregate_summary_after_refresh epoch_text RecordsProofs.plain_text
       QueriesProofs.insertion_engine reading_back plain_server
       (AggregatorProofs.answering [RecordsProofs.item 1 "A"]) 1000 1001 5001
       ["https://x/posts"] "manual" _ _ _ three_rows no_stats _ _ _)).
  - reflexivity.
  - vm_compute. reflexivity.
  - lia.
Defined.

End SummaryProofs.

(** ** Record routes *)

Module RoutesProofs.
Import Py Cache Records CacheAdmin Queries Summary Routes CacheProofs.

(** *** Stand-ins for the payload values and the validation *)

(** An object as a dict of its id and its members, another value as
    its text. *)
Definition members_value (r : Upstream.record) : pyval :=
  match r with
  | Upstream.RObject o =>
      PDict [ (KStr "id",
               match Upstream.obj_id o with Some n => PInt n | None => PNone end);
              (KStr "members",
               PList (map (fun kv => PList [PStr kv.1; PStr kv.2])
                          (Upstream.obj_fields o))) ]
  | Upstream.RValue text => PStr text
  end.

Lemma members_value_native (r : Upstream.record) : json_native (members_value r) = true.
Proof.
  destruct r as [[i l] | text]; [| done]. cbn. rewrite andb_true_r.
  assert (forallb json_native (map (fun kv : string * string => PList [PStr kv.1; PStr kv.2]) l)
          = true) as ->; [| by destruct i].
  induction l as [| kv l IH]; [done |]. cbn. by rewrite IH.
Qed.

Definition payload_as_members : Payloads :=
  {| payload_value := members_value; payload_native := members_value_native |}.

Fixpoint read_members (items : list pyval) : option (list (string * string)) :=
  match items with
  | [] => Some []
  | PList [PStr k; PStr v] :: rest => l ← read_members rest; Some ((k, v) :: l)
  | _ => None
  end.

Definition read_payload (v : pyval) : option Upstream.record :=
  match v with
  | PStr text => Some (Upstream.RValue text)
  | PDict [(_, PNone); (_, PList items)] =>
      l ← read_members items;
      Some (Upstream.RObject {| Upstream.obj_id := None; Upstream.obj_fields := l |})
  | PDict [(_, PInt n); (_, PList items)] =>
      l ← read_members items;
      Some (Upstream.RObject {| Upstream.obj_id := Some n; Upstream.obj_fields := l |})
  | _ => None
  end.

Definition read_optional_int (v : pyval) : option (option Z) :=
  match v with PNone => Some None | PInt n => Some (Some n) | _ => None end.

Definition read_optional_str (v : pyval) : option (option string) :=
  match v with PNone => Some None | PStr s => Some (Some s) | _ => None end.

Definition read_record (v : pyval) : option RecordOut :=
  match v with
  | PDict [(_, PInt i); (_, PStr key); (_, ext); (_, pay); (_, sum); (_, at_)] =>
      e ← read_optional_int ext;
      p ← read_payload pay;
      c ← read_optional_str sum;
      d ← SummaryProofs.read_datetime at_;
      Some {| Routes.id := i; source_key := key; external_id := e; payload := p;
              checksum := c; Routes.fetched_at := d |}
  | _ => None
  end.

Fixpoint read_records (items : list pyval) : option (list RecordOut) :=
  match items with
  | [] => Some []
  | v :: rest => out ← read_record v; l ← read_records rest; Some (out :: l)
  end.

Definition read_page (v : pyval) : option PaginatedRecords :=
  match v with
  | PDict [(_, PInt n); (_, PInt p); (_, PInt size); (_, PList l)] =>
      outs ← read_records l;
      Some {| total := n; page := p; page_size := size; items := outs |}
  | _ => None
  end.

Definition or_invalid {A : Type} (o : option A) : Py.result A :=
  match o with
  | Some a => Py.Returned a
  | None => Py.Raises (OtherError "ValidationError")
  end.

Lemma read_members_dumped (l : list (string * string)) :
  read_members
    (map json_loads (map encode (map (fun kv => PList [PStr kv.1; PStr kv.2]) l)))
  = Some l.
Proof. induction l as [| [k v] l IH]; [done |]. cbn in *. by rewrite IH. Qed.

Lemma read_payload_dumped (r : Upstream.record) :
  read_payload (json_loads (encode (members_value r))) = Some r.
Proof.
  destruct r as [[i l] | text]; [| done]. unfold members_value.
  rewrite json_loads_encode_dict by reflexivity.
  cbn [map encode json_loads Upstream.obj_id Upstream.obj_fields].
  destruct i as [n |]; cbn [encode json_loads read_payload];
    by rewrite read_members_dumped.
Qed.

Lemma read_record_dumped (out : RecordOut) :
  read_record (json_loads (encode
                 (@dump_record SummaryProofs.epoch_text payload_as_members out)))
  = Some out.
Proof.
  destruct out as [i key ext pay sum d]. unfold dump_record.
  rewrite json_loads_encode_dict by reflexivity.
  cbn [map Routes.id source_key external_id payload checksum Routes.fetched_at
       payload_value payload_as_members].
  pose proof (SummaryProofs.read_datetime_dumped d) as Hd.
  destruct ext, sum;
    cbn [encode json_loads read_record read_optional_int read_optional_str mbind
         option_bind];
    rewrite read_payload_dumped; cbn [mbind option_bind]; rewrite Hd; done.
Qed.

Lemma read_records_dumped (l : list RecordOut) :
  read_records (map json_loads (map encode
                  (map (@dump_record SummaryProofs.epoch_text payload_as_members) l)))
  = Some l.
Proof.
  induction l as [| out l IH]; [done |]. cbn [map read_records].
  rewrite read_record_dumped, IH. done.
Qed.

Lemma read_page_dumped (p : PaginatedRecords) (document : json) :
  json_dumps (@dump_page SummaryProofs.epoch_text payload_as_members p)
  = Py.Returned document ->
  or_invalid (read_page (json_loads document)) = Py.Returned p.
Proof.
  intros [_ ->]%json_dumps_returned.
  destruct p as [n pg size l]. unfold dump_page.
  rewrite json_loads_encode_dict by reflexivity.
  cbn [map encode json_loads total page page_size items read_page].
  by rewrite read_records_dumped.
Qed.

Lemma validated_record_dumped (out : RecordOut) (document : json) :
  json_dumps (@dump_record SummaryProofs.epoch_text payload_as_members out)
  = Py.Returned document ->
  or_invalid (read_record (json_loads document)) = Py.Returned out.
Proof. intros [_ ->]%json_dumps_returned. by rewrite read_record_dumped. Qed.

Definition reading_records : @Models SummaryProofs.epoch_text payload_as_members :=
  {| validate_record := fun v => or_invalid (read_record v);
     validate_page := fun v => or_invalid (read_page v);
     validate_record_dump := validated_record_dumped;
     validate_page_dump := read_page_dumped |}.

(** *** Reading records through the cache *)

Section Reads.
Context `{Datetimes} `{Payloads} `{Hashlib} `{Engine} `{!Models} `{RedisServer}.

(** The cache keys of the two handlers. *)
Definition records_key (source_key : option string) (page page_size : Z) : string :=
  build_key [Text "records"; key_part source_key; Number page; Number page_size].

Definition record_key (record_id : Z) : string :=
  build_key [Text "record"; Number record_id].

(** The page [list_records] builds from the table. *)
Definition page_of (source_key : option string) (page page_size : Z) (table : list Row)
  : PaginatedRecords :=
  {| total := Z.of_nat (length (selected source_key table));
     page := page;
     page_size := page_size;
     items :=
       map from_row
           (take (Z.to_nat page_size)
                 (drop (Z.to_nat ((page - 1) * page_size))
                       (order_by_desc Queries.fetched_at (selected source_key table)))) |}.

(** A dumped record and a dumped page are values the encoder does not
    refuse, and what is written for them is accepted by the server. *)
Lemma dump_record_dumps (out : RecordOut) :
  json_dumps (dump_record out) = Py.Returned (encode (dump_record out)).
Proof.
  apply json_dumps_encodable. destruct out as [i key ext pay sum d].
  cbn. rewrite (native_encodable _ (payload_native pay)). by destruct ext, sum.
Qed.

Lemma dump_page_dumps (p : PaginatedRecords) :
  json_dumps (dump_page p) = Py.Returned (encode (dump_page p)).
Proof.
  apply json_dumps_encodable. destruct p as [n pg size l]. cbn. rewrite andb_true_r.
  apply forallb_forall. intros v (out & <- & _)%in_map_iff.
  pose proof (dump_record_dumps out) as [Hout _]%json_dumps_returned. exact Hout.
Qed.

Lemma cache_set_page (now : Z) (key : string) (p : PaginatedRecords)
    (keys : gmap string entry) :
  cache_set now key (dump_page p) CACHE_TTL_WARM (serving keys)
  = Py.Returned (serving (written now key (dump_page p) CACHE_TTL_WARM keys)).
Proof.
  destruct (accepts_ttl now CACHE_TTL_WARM) as [Httl Hstale];
    [unfold CACHE_TTL_WARM, CACHE_TTL_COLD; lia |].
  by apply (cache_set_serving now key (dump_page p) (encode (dump_page p))
              CACHE_TTL_WARM keys (dump_page_dumps p)).
Qed.

Lemma cache_set_record (now : Z) (key : string) (out : RecordOut)
    (keys : gmap string entry) :
  cache_set now key (dump_record out) CACHE_TTL_COLD (serving keys)
  = Py.Returned (serving (written now key (dump_record out) CACHE_TTL_COLD keys)).
Proof.
  destruct (accepts_ttl now CACHE_TTL_COLD) as [Httl Hstale];
    [unfold CACHE_TTL_COLD; lia |].
  by apply (cache_set_serving now key (dump_record out) (encode (dump_record out))
              CACHE_TTL_COLD keys (dump_record_dumps out)).
Qed.

Lemma dumped_page_truthy (p : PaginatedRecords) :
  truthy (json_loads (encode (dump_page p))) = true.
Proof. reflexivity. Qed.

Lemma dumped_record_truthy (out : RecordOut) :
  truthy (json_loads (encode (dump_record out))) = true.
Proof. reflexivity. Qed.

Lemma get_paginated_in_bounds (source_key : option string) (page page_size : Z)
    (table : list Row) :
  1 <= page -> 1 <= page_size ->
  get_paginated source_key page page_size table
  = Py.Returned (total (page_of source_key page page_size table),
                 take (Z.to_nat page_size)
                      (drop (Z.to_nat ((page - 1) * page_size))
                            (order_by_desc Queries.fetched_at (selected source_key table)))).
Proof.
  intros Hpage Hsize. unfold get_paginated.
  by rewrite QueriesProofs.offset_limit_returns by nia.
Qed.

(** Within its bounds and with nothing fresh to read, [list_records]
    queries the table and caches the page. *)
Lemma list_records_queries (source_key : option string) (page page_size now : Z)
    (table : list Row) (keys : gmap string entry) (counters : stats) :
  1 <= page -> 1 <= page_size <= 200 ->
  (forall raw, GET now (records_key source_key page page_size) keys = Some raw ->
               EXISTS now (fresh_key (records_key source_key page page_size)) keys = false) ->
  list_records source_key page page_size now table (serving keys) counters
  = (Returned (page_of source_key page page_size table),
     {| cache := serving (written now (records_key source_key page page_size)
                            (dump_page (page_of source_key page page_size table))
                            CACHE_TTL_WARM keys);
        counters := record_miss counters |}).
Proof.
  intros Hpage Hsize Hnothing. unfold list_records.
  destruct (Z.ltb_spec page 1); [lia |].
  destruct (Z.ltb_spec page_size 1); [lia |].
  destruct (Z.ltb_spec 200 page_size); [lia |]. cbn [orb app].
  fold (records_key source_key page page_size).
  rewrite cache_get_serving.
  assert ((let '(value, is_stale) :=
             match GET now (records_key source_key page page_size) keys with
             | Some raw =>
                 (json_loads raw,
                  negb (EXISTS now (fresh_key (records_key source_key page page_size)) keys))
             | None => (PNone, false)
             end in truthy value && negb is_stale) = false) as Hskip.
  { destruct (GET now (records_key source_key page page_size) keys) as [raw |] eqn:Hraw;
      [| done].
    rewrite (Hnothing raw eq_refl). cbn. apply andb_false_r. }
  destruct (match GET now (records_key source_key page page_size) keys with
            | Some raw => _ | None => _ end) as [value is_stale].
  rewrite Hskip. rewrite get_paginated_in_bounds by lia.
  by rewrite cache_set_page.
Qed.

(** A page cached less than 300 seconds ago is served. *)
Lemma list_records_hit (source_key : option string) (page page_size now elapsed : Z)
    (table : list Row) (keys : gmap string entry) (counters : stats)
    (p : PaginatedRecords) :
  1 <= page -> 1 <= page_size <= 200 ->
  0 <= elapsed < CACHE_TTL_WARM ->
  list_records source_key page page_size (now + elapsed) table
    (serving (written now (records_key source_key page page_size) (dump_page p)
                      CACHE_TTL_WARM keys)) counters
  = (Returned p,
     {| cache := serving (written now (records_key source_key page page_size) (dump_page p)
                            CACHE_TTL_WARM keys);
        counters := record_hit false counters |}).
Proof.
  intros Hpage Hsize Hfresh. unfold list_records.
  destruct (Z.ltb_spec page 1); [lia |].
  destruct (Z.ltb_spec page_size 1); [lia |].
  destruct (Z.ltb_spec 200 page_size); [lia |]. cbn [orb app].
  fold (records_key source_key page page_size).
  rewrite (cache_get_written _ _ _ _ _ _ _ (dump_page_dumps p)). unfold answer.
  destruct (Z.ltb_spec elapsed CACHE_TTL_WARM); [| lia].
  rewrite dumped_page_truthy. cbn [andb negb].
  by rewrite (validate_page_dump p _ (dump_page_dumps p)).
Qed.

(** X29.  [list_records] with [page >= 1] and [1 <= page_size <= 200],
    on a reachable store with nothing cached under its key, returns the
    page of the table ([total] rows of the source in all, at most
    [page_size] items), counts a miss and caches the page.  For the next
    300 seconds a request with the same cache key is answered with that
    page and counted as a hit, whatever the table has become.  From 300
    seconds on the cached page is not served, not even during the stale
    grace: the page is queried from the table again and a miss is
    counted. *)
Theorem list_records_caches_pages :
  forall (source_key source_key' : option string) (page page_size now : Z)
         (table table' : list Row) (keys : gmap string entry) (counters counters' : stats),
    1 <= page -> 1 <= page_size <= 200 ->
    GET now (records_key source_key page page_size) keys = None ->
    let first := list_records source_key page page_size now table (serving keys) counters in
    first.1 = Returned (page_of source_key page page_size table)
    /\ Z.of_nat (length (items (page_of source_key page page_size table))) <= page_size
    /\ Routes.counters first.2 = record_miss counters
    /\ (forall elapsed,
          0 <= elapsed < CACHE_TTL_WARM ->
          records_key source_key' page page_size = records_key source_key page page_size ->
          list_records source_key' page page_size (now + elapsed) table'
                       (Routes.cache first.2) counters'
          = (Returned (page_of source_key page page_size table),
             {| cache := Routes.cache first.2; counters := record_hit false counters' |}))
    /\ (forall elapsed,
          CACHE_TTL_WARM <= elapsed ->
          let again :=
            list_records source_key page page_size (now + elapsed) table'
                         (Routes.cache first.2) counters' in
          again.1 = Returned (page_of source_key page page_size table')
          /\ Routes.counters again.2 = record_miss counters').
Proof.
  intros source_key source_key' page page_size now table table' keys counters counters'
         Hpage Hsize Hnone first.
  subst first. rewrite list_records_queries by (try done; intros raw; by rewrite Hnone).
  cbn [fst snd Routes.cache Routes.counters].
  split; [done |]. split; [| split; [done |]]. 2: split.
  - unfold page_of. cbn [items]. rewrite length_map, length_take. lia.
  - intros elapsed Hfresh Hkey. rewrite <- Hkey. by apply list_records_hit.
  - intros elapsed Hstale.
    rewrite list_records_queries; [done | done | done |].
    intros raw _. unfold EXISTS, GET.
    rewrite (written_sentinel _ _ _ _ _ _ (dump_page_dumps _)). cbn [expires_at].
    by destruct (Z.ltb_spec (now + elapsed) (now + CACHE_TTL_WARM)); [lia |].
Qed.

Lemma get_by_id_found (record_id : Z) (table : list Row) (row : Row) :
  get_by_id record_id table = Some row -> In row table /\ Queries.id row = record_id.
Proof.
  unfold get_by_id. intros [Hin Hid]%find_some. split; [done |]. by apply Z.eqb_eq.
Qed.

(** With nothing to read under its key, [get_record] looks the row up. *)
Lemma get_record_queries (record_id now : Z) (table : list Row) (keys : gmap string entry)
    (counters : stats) :
  GET now (record_key record_id) keys = None ->
  get_record record_id now table (serving keys) counters
  = match get_by_id record_id table with
    | None =>
        (Raises (NotFoundError ("Record " +:+ pretty record_id +:+ " not found")),
         {| cache := serving keys; counters := record_miss counters |})
    | Some row =>
        (Returned (from_row row),
         {| cache := serving (written now (record_key record_id) (dump_record (from_row row))
                                CACHE_TTL_COLD keys);
            counters := record_miss counters |})
    end.
Proof.
  intros Hnone. unfold get_record. fold (record_key record_id).
  rewrite cache_get_serving, Hnone. cbn [truthy andb].
  destruct (get_by_id record_id table) as [row |]; [| done].
  by rewrite cache_set_record.
Qed.

(** A row cached less than 3600 seconds ago is served. *)
Lemma get_record_hit (record_id now elapsed : Z) (table : list Row)
    (keys : gmap string entry) (counters : stats) (out : RecordOut) :
  0 <= elapsed < CACHE_TTL_COLD ->
  get_record record_id (now + elapsed) table
    (serving (written now (record_key record_id) (dump_record out) CACHE_TTL_COLD keys))
    counters
  = (Returned out,
     {| cache := serving (written now (record_key record_id) (dump_record out)
                            CACHE_TTL_COLD keys);
        counters := record_hit false counters |}).
Proof.
  intros Hfresh. unfold get_record. fold (record_key record_id).
  rewrite (cache_get_written _ _ _ _ _ _ _ (dump_record_dumps out)). unfold answer.
  destruct (Z.ltb_spec elapsed CACHE_TTL_COLD); [| lia].
  rewrite dumped_record_truthy. cbn [andb negb].
  by rewrite (validate_record_dump out _ (dump_record_dumps out)).
Qed.

(** X30.  [get_record] on a reachable store with nothing cached under
    its key: for an id that no stored row has it raises
    [NotFoundError], counts a miss and caches nothing; for the id of a
    stored row it returns that row, counts a miss and caches it, and for
    the next 3600 seconds a request for the id is answered with that
    row and counted as a hit, whatever the table has become. *)
Theorem get_record_caches_found_rows :
  forall (record_id now : Z) (table : list Row) (keys : gmap string entry)
         (counters : stats),
    GET now (record_key record_id) keys = None ->
    let first := get_record record_id now table (serving keys) counters in
    (get_by_id record_id table = None ->
     first = (Raises (NotFoundError ("Record " +:+ pretty record_id +:+ " not found")),
              {| cache := serving keys; counters := record_miss counters |}))
    /\ (forall row,
          get_by_id record_id table = Some row ->
          In row table
          /\ Queries.id row = record_id
          /\ first.1 = Returned (from_row row)
          /\ Routes.counters first.2 = record_miss counters
          /\ (forall (elapsed : Z) (table' : list Row) (counters' : stats),
                0 <= elapsed < CACHE_TTL_COLD ->
                get_record record_id (now + elapsed) table' (Routes.cache first.2) counters'
                = (Returned (from_row row),
                   {| cache := Routes.cache first.2;
                      counters := record_hit false counters' |}))).
Proof.
  intros record_id now table keys counters Hnone first. subst first.
  rewrite (get_record_queries record_id now table keys counters Hnone). split.
  - by intros ->.
  - intros row Hrow. destruct (get_by_id_found _ _ _ Hrow) as [Hin Hid].
    rewrite Hrow. cbn [fst snd Routes.cache Routes.counters].
    repeat split; try done.
    intros elapsed table' counters' Hfresh. by apply get_record_hit.
Qed.

End Reads.

(** *** Closed examples *)

Definition read_records_page (source_key : option string) (page page_size now : Z)
    (table : list Row) (store : redis) (counters : stats)
  : result PaginatedRecords * effects :=
  @list_records SummaryProofs.epoch_text payload_as_members RecordsProofs.plain_text
    QueriesProofs.insertion_engine reading_records plain_server
    source_key page page_size now table store counters.

Definition read_record_by_id (record_id now : Z) (table : list Row) (store : redis)
    (counters : stats) : result RecordOut * effects :=
  @get_record SummaryProofs.epoch_text payload_as_members RecordsProofs.plain_text
    reading_records plain_server record_id now table store counters.

(** The page of all sources is cached under the key of the source
    named "None", and served for it. *)
Lemma list_records_caches_pages_witness :
  (read_records_page None 1 2 1000 SummaryProofs.three_rows (serving ∅) no_stats).1
  = Returned (@page_of QueriesProofs.insertion_engine None 1 2 SummaryProofs.three_rows)
  /\ (read_records_page (Some "None") 1 2 (1000 + 10) []
        (Routes.cache
           (read_records_page None 1 2 1000 SummaryProofs.three_rows (serving ∅) no_stats).2)
        no_stats).1
     = Returned (@page_of QueriesProofs.insertion_engine None 1 2 SummaryProofs.three_rows).
Proof.
  destruct (@list_records_caches_pages SummaryProofs.epoch_text payload_as_members
              RecordsProofs.plain_text QueriesProofs.insertion_engine reading_records
              plain_server None (Some "None") 1 2 1000 SummaryProofs.three_rows [] ∅ no_stats no_stats)
    as (Hfirst & _ & _ & Hhit & _); [lia | lia | reflexivity |].
  split; [exact Hfirst |].
  unfold read_records_page. rewrite (Hhit 10); [reflexivity | | reflexivity].
  unfold CACHE_TTL_WARM. lia.
Defined.

Lemma get_record_caches_found_rows_witness :
  read_record_by_id 7 1000 SummaryProofs.three_rows (serving ∅) no_stats
  = (Raises (NotFoundError "Record 7 not found"),
     {| Routes.cache := serving ∅; Routes.counters := record_miss no_stats |})
  /\ (read_record_by_id 3 1000 SummaryProofs.three_rows (serving ∅) no_stats).1
     = Returned (from_row (QueriesProofs.a_row 3 20 "posts")).
Proof.
  split.
  - refine (proj1 (@get_record_caches_found_rows SummaryProofs.epoch_text
                     payload_as_members RecordsProofs.plain_text reading_records
                     plain_server 7 1000 SummaryProofs.three_rows ∅ no_stats _) _); reflexivity.
  - refine (proj1 (proj2 (proj2
      (proj2 (@get_record_caches_found_rows SummaryProofs.epoch_text
                payload_as_members RecordsProofs.plain_text reading_records
                plain_server 3 1000 SummaryProofs.three_rows ∅ no_stats _)
             (QueriesProofs.a_row 3 20 "posts") _)))); reflexivity.
Defined.

End RoutesProofs.
